(** * go-patch: the patch-application algorithm of [pkg/patch/apply.go]

    A shallow embedding of [Apply] and [findField] together with the part
    of Go's [reflect] package and of [github.com/fatih/structs] that the
    two functions call.  Go values carry their dynamic type, records live
    in a heap of cells addressed by pointers, and a call either panics or
    returns [(changed, err)] together with the heap it leaves behind.

    What the model covers: the kinds bool, int, int16, int64, float64
    (whole numbers) and string, named types over them, structs, pointers,
    slices, [map[string]interface{}] (nil or not) and [interface{}]; a
    pointer always points to a whole cell.  An integer converted to
    [float64] is rounded to 53 bits, and a [float64] outside the range
    of [int64] converted to an integer gives what the compiler's code
    gives on amd64.  Struct types are given by their fields, so
    a type does not contain itself; fields tagged [structs:"-"], which
    [Struct.Fields] leaves out, are not declared in the model; the order
    in which [range] visits a map is the order of the association list
    that stands for it. *)

From Stdlib Require Import ZArith Lia Bool Ascii.
From stdpp Require Import base list strings.

Set Warnings "-register-all".

Local Open Scope string_scope.
Local Open Scope Z_scope.

(** ** Types *)

(** The basic kinds the model covers. *)
Inductive basic : Set := BBool | BInt | BInt16 | BInt64 | BFloat64 | BString.

(** What [reflect.StructField] tells [structs.Field] about a field: its
    identifier, the value of the [json] key of its tag (the empty string
    is what [StructTag.Get] returns when the key is absent) and whether
    the identifier is exported ([PkgPath == ""]). *)
Record finfo : Set := FInfo {
  fname : string;
  ftag : string;
  fexported : bool
}.

(** Go types.  A defined type whose underlying type is basic, such as
    [type Position int16], is [TNamed "Position" BInt16]; a struct type
    carries its name and its fields in declaration order. *)
Inductive type : Set :=
| TBasic (b : basic)
| TNamed (n : string) (b : basic)
| TStruct (n : string) (fs : list (finfo * type))
| TPtr (t : type)
| TSlice (t : type)
| TMap
| TIface.

(** [reflect.Kind], for the kinds above; [Invalid] is the kind of the
    zero [reflect.Value]. *)
Inductive kind : Set :=
| KInvalid | KBool | KInt | KInt16 | KInt64 | KFloat64 | KString
| KStruct | KPointer | KSlice | KMap | KInterface.

Definition basic_kind (b : basic) : kind :=
  match b with
  | BBool => KBool | BInt => KInt | BInt16 => KInt16 | BInt64 => KInt64
  | BFloat64 => KFloat64 | BString => KString
  end.

Definition Kind (t : type) : kind :=
  match t with
  | TBasic b | TNamed _ b => basic_kind b
  | TStruct _ _ => KStruct
  | TPtr _ => KPointer
  | TSlice _ => KSlice
  | TMap => KMap
  | TIface => KInterface
  end.

Definition basic_eqb (a b : basic) : bool :=
  match a, b with
  | BBool, BBool | BInt, BInt | BInt16, BInt16 | BInt64, BInt64
  | BFloat64, BFloat64 | BString, BString => true
  | _, _ => false
  end.

Definition kind_eqb (a b : kind) : bool :=
  match a, b with
  | KInvalid, KInvalid | KBool, KBool | KInt, KInt | KInt16, KInt16
  | KInt64, KInt64 | KFloat64, KFloat64 | KString, KString
  | KStruct, KStruct | KPointer, KPointer | KSlice, KSlice
  | KMap, KMap | KInterface, KInterface => true
  | _, _ => false
  end.

Definition finfo_eqb (a b : finfo) : bool :=
  String.eqb (fname a) (fname b) && String.eqb (ftag a) (ftag b)
  && Bool.eqb (fexported a) (fexported b).

(** Type identity. *)
Fixpoint type_eqb (a b : type) {struct a} : bool :=
  match a, b with
  | TBasic x, TBasic y => basic_eqb x y
  | TNamed n x, TNamed m y => String.eqb n m && basic_eqb x y
  | TStruct n fs, TStruct m gs =>
      String.eqb n m &&
      (fix go (fs gs : list (finfo * type)) {struct fs} : bool :=
         match fs, gs with
         | [], [] => true
         | (i, t) :: fs', (j, u) :: gs' =>
             finfo_eqb i j && type_eqb t u && go fs' gs'
         | _, _ => false
         end) fs gs
  | TPtr x, TPtr y => type_eqb x y
  | TSlice x, TSlice y => type_eqb x y
  | TMap, TMap => true
  | TIface, TIface => true
  | _, _ => false
  end.

(** ** Values *)

(** A Go value together with its dynamic type.  [VNil] is the nil
    interface value.  A [float64] is represented by its integral value;
    [VMap] is a [map[string]interface{}] that is not nil, listed in the
    order in which [range] visits it, and [VNilMap] is the nil map of
    that type; a pointer holds the address of a heap cell or is nil; a
    slice is nil or holds its elements. *)
Inductive value : Set :=
| VNil
| VBool (t : type) (b : bool)
| VInt (t : type) (z : Z)
| VFloat (t : type) (z : Z)
| VString (t : type) (s : string)
| VPtr (t : type) (a : option nat)
| VStruct (t : type) (fs : list value)
| VSlice (t : type) (xs : option (list value))
| VMap (m : list (string * value))
| VNilMap.

Abbreviation heap := (list value).

(** [reflect.TypeOf]: [None] is the nil type of a nil interface. *)
Definition TypeOf (v : value) : option type :=
  match v with
  | VNil => None
  | VBool t _ | VInt t _ | VFloat t _ | VString t _ => Some t
  | VPtr t _ => Some (TPtr t)
  | VStruct t _ => Some t
  | VSlice t _ => Some (TSlice t)
  | VMap _ | VNilMap => Some TMap
  end.

(** [reflect.ValueOf(v).Kind()]. *)
Definition ValueKind (v : value) : kind :=
  match TypeOf v with
  | Some t => Kind t
  | None => KInvalid
  end.

(** ** The zero value of a type ([reflect.Zero], [reflect.New]) *)

Fixpoint zero (t : type) : value :=
  match t with
  | TBasic BBool | TNamed _ BBool => VBool t false
  | TBasic BFloat64 | TNamed _ BFloat64 => VFloat t 0
  | TBasic BString | TNamed _ BString => VString t ""
  | TBasic _ | TNamed _ _ => VInt t 0
  | TStruct _ fs =>
      VStruct t
        ((fix go (fs : list (finfo * type)) : list value :=
            match fs with
            | [] => []
            | (_, u) :: fs' => zero u :: go fs'
            end) fs)
  | TPtr u => VPtr u None
  | TSlice u => VSlice u None
  | TMap => VNilMap
  | TIface => VNil
  end.

(** ** Conversion ([reflect.Value.CanConvert], [reflect.Value.Convert]) *)

(** Width in bits of the integer kinds. *)
Definition bits (b : basic) : Z :=
  match b with
  | BInt16 => 16
  | _ => 64
  end.

(** Two's complement wrap-around of [z] to [w] bits. *)
Definition wrap (w z : Z) : Z :=
  (z + 2 ^ (w - 1)) mod 2 ^ w - 2 ^ (w - 1).

Definition byte_of (z : Z) : Ascii.ascii := Ascii.ascii_of_N (Z.to_N z).

(** [string(rune(x))]: the UTF-8 encoding of the code point [r], the
    replacement character for what is not a code point. *)
Definition utf8 (r : Z) : string :=
  let replacement :=
    String (byte_of 239) (String (byte_of 191) (String (byte_of 189) "")) in
  if (r <? 0) || (1114111 <? r) || ((55296 <=? r) && (r <=? 57343))
  then replacement
  else if r <? 128 then String (byte_of r) ""
  else if r <? 2048 then
    String (byte_of (Z.lor 192 (Z.shiftr r 6)))
      (String (byte_of (Z.lor 128 (Z.land r 63))) "")
  else if r <? 65536 then
    String (byte_of (Z.lor 224 (Z.shiftr r 12)))
      (String (byte_of (Z.lor 128 (Z.land (Z.shiftr r 6) 63)))
         (String (byte_of (Z.lor 128 (Z.land r 63))) ""))
  else
    String (byte_of (Z.lor 240 (Z.shiftr r 18)))
      (String (byte_of (Z.lor 128 (Z.land (Z.shiftr r 12) 63)))
         (String (byte_of (Z.lor 128 (Z.land (Z.shiftr r 6) 63)))
            (String (byte_of (Z.lor 128 (Z.land r 63))) ""))).

(** The name of a type ([Type.Name]); empty for a type literal. *)
Definition type_name (t : type) : string :=
  match t with
  | TBasic BBool => "bool" | TBasic BInt => "int" | TBasic BInt16 => "int16"
  | TBasic BInt64 => "int64" | TBasic BFloat64 => "float64"
  | TBasic BString => "string"
  | TNamed n _ => n
  | TStruct n _ => n
  | _ => ""
  end.

(** [haveIdenticalUnderlyingType(a, b, false)]: the underlying types are
    identical when struct tags are ignored. *)
Fixpoint identical_underlying (a b : type) {struct a} : bool :=
  match a, b with
  | (TBasic x | TNamed _ x), (TBasic y | TNamed _ y) => basic_eqb x y
  | TStruct _ fs, TStruct _ gs =>
      (fix go (fs gs : list (finfo * type)) {struct fs} : bool :=
         match fs, gs with
         | [] , [] => true
         | (i, t) :: fs', (j, u) :: gs' =>
             String.eqb (fname i) (fname j)
             && Bool.eqb (fexported i) (fexported j)
             && String.eqb (type_name t) (type_name u)
             && kind_eqb (Kind t) (Kind u)
             && identical_underlying t u
             && go fs' gs'
         | _, _ => false
         end) fs gs
  | TPtr x, TPtr y | TSlice x, TSlice y =>
      String.eqb (type_name x) (type_name y)
      && kind_eqb (Kind x) (Kind y)
      && identical_underlying x y
  | TMap, TMap => true
  | TIface, TIface => true
  | _, _ => false
  end.

Definition is_int_kind (k : kind) : bool :=
  match k with KInt | KInt16 | KInt64 => true | _ => false end.

(** [Type.ConvertibleTo]: whether [reflect]'s [convertOp] finds a
    conversion from [src] to [dst]. *)
Definition ConvertibleTo (src dst : type) : bool :=
  (is_int_kind (Kind src)
     && (is_int_kind (Kind dst) || kind_eqb (Kind dst) KFloat64
         || kind_eqb (Kind dst) KString))
  || (kind_eqb (Kind src) KFloat64
     && (is_int_kind (Kind dst) || kind_eqb (Kind dst) KFloat64))
  || identical_underlying dst src
  || match dst, src with
     | TPtr d, TPtr s => identical_underlying d s
     | _, _ => false
     end
  || kind_eqb (Kind dst) KInterface.

(** [v.CanConvert(t)]; [None] is the panic of [Value.Type] on the zero
    [reflect.Value] and of [ConvertibleTo] on the nil type. *)
Definition CanConvert (v : value) (t : option type) : option bool :=
  match TypeOf v, t with
  | Some vt, Some dt => Some (ConvertibleTo vt dt)
  | _, _ => None
  end.

Definition basic_of (t : type) : basic :=
  match t with
  | TBasic b | TNamed _ b => b
  | _ => BInt
  end.

(** [float64(x)] for an integer [x]: the nearest number with a
    significand of 53 bits, the one with an even significand when two
    are as near. *)
Definition float64_of_int (z : Z) : Z :=
  let a := Z.abs z in
  if a <? 2 ^ 53 then z
  else
    let e := Z.log2 a - 52 in
    let q := a / 2 ^ e in
    let r := a mod 2 ^ e in
    let half := 2 ^ (e - 1) in
    let q := if (half <? r) || ((r =? half) && Z.odd q) then q + 1 else q in
    Z.sgn z * (q * 2 ^ e).

(** [int64(f)] for a [float64] [f] that is a whole number.  For an [f]
    outside the range of [int64] the language leaves the result to the
    implementation; this is what the compiler's code for amd64 gives,
    the smallest [int64]. *)
Definition int64_of_float (z : Z) : Z :=
  if (- 2 ^ 63 <=? z) && (z <? 2 ^ 63) then z else - 2 ^ 63.

(** [v.Convert(t).Interface()] for a [v] that [CanConvert] to [t]. *)
Definition Convert (v : value) (t : type) : value :=
  match Kind t with
  | KInterface => v
  | _ =>
    match v with
    | VNil => VNil
    | VBool _ b => VBool t b
    | VInt _ z =>
        match Kind t with
        | KFloat64 => VFloat t (float64_of_int z)
        | KString => VString t (utf8 z)
        | _ => VInt t (wrap (bits (basic_of t)) z)
        end
    | VFloat _ z =>
        match Kind t with
        | KFloat64 => VFloat t z
        | _ => VInt t (wrap (bits (basic_of t)) (int64_of_float z))
        end
    | VString _ s => VString t s
    | VPtr _ a => match t with TPtr u => VPtr u a | _ => v end
    | VStruct _ fs => VStruct t fs
    | VSlice _ xs => match t with TSlice u => VSlice u xs | _ => v end
    | VMap m => VMap m
    | VNilMap => VNilMap
    end
  end.

Arguments CanConvert : simpl never.
Arguments Convert : simpl never.

(** ** Deep equality ([reflect.DeepEqual]) *)

(** [deepValueEqual]; [n] bounds the number of pointers followed on one
    path.  [reflect] stops at a pair of pointers it has already visited
    and takes it as equal, which is what running out of [n] returns. *)
Fixpoint deepValueEqual (h : heap) (n : nat) {struct n} : value -> value -> bool :=
  fix eq (x y : value) {struct x} : bool :=
    match x, y with
    | VNil, VNil => true
    | VBool t a, VBool u b => type_eqb t u && Bool.eqb a b
    | VInt t a, VInt u b => type_eqb t u && (a =? b)
    | VFloat t a, VFloat u b => type_eqb t u && (a =? b)
    | VString t a, VString u b => type_eqb t u && String.eqb a b
    | VPtr t None, VPtr u None => type_eqb t u
    | VPtr t (Some a), VPtr u (Some b) =>
        type_eqb t u &&
        (Nat.eqb a b ||
         match n with
         | O => true
         | S n' =>
             match h !! a, h !! b with
             | Some x', Some y' => deepValueEqual h n' x' y'
             | _, _ => false
             end
         end)
    | VStruct t fs, VStruct u gs =>
        type_eqb t u &&
        (fix all2 (fs gs : list value) {struct fs} : bool :=
           match fs, gs with
           | [], [] => true
           | f :: fs', g :: gs' => eq f g && all2 fs' gs'
           | _, _ => false
           end) fs gs
    | VSlice t None, VSlice u None => type_eqb t u
    | VSlice t (Some xs), VSlice u (Some ys) =>
        type_eqb t u &&
        (fix all2 (xs ys : list value) {struct xs} : bool :=
           match xs, ys with
           | [], [] => true
           | a :: xs', b :: ys' => eq a b && all2 xs' ys'
           | _, _ => false
           end) xs ys
    | VMap m, VMap m' =>
        Nat.eqb (length m) (length m') &&
        (fix all (m : list (string * value)) {struct m} : bool :=
           match m with
           | [] => true
           | (k, a) :: rest =>
               match List.find (fun kv => String.eqb (fst kv) k) m' with
               | Some (_, b) => eq a b && all rest
               | None => false
               end
           end) m
    | VNilMap, VNilMap => true
    | _, _ => false
    end.

Definition DeepEqual (h : heap) (x y : value) : bool :=
  deepValueEqual h (S (length h * length h)) x y.

Arguments DeepEqual : simpl never.

(** ** Records as [github.com/fatih/structs] sees them *)

(** [structs.New(target)]: the record reached from [target] through its
    pointers.  A record reached through a pointer is the heap cell [a]
    and its fields can be set; a record passed by value is a copy whose
    fields cannot. *)
Inductive Struct : Set :=
| SAddr (a : nat)
| SCopy (v : value).

(** [strctVal]: follow pointers until a struct; [None] is the panic
    ["not struct"] (also for a nil pointer on the way, and for a pointer
    to an interface, whose [Elem] has the kind [Interface] whatever it
    holds).  [n] bounds the pointers followed: [New] gives one more than
    there are cells, which only a chain of pointers that runs in a
    circle exhausts. *)
Fixpoint strctVal (h : heap) (n : nat) (loc : Struct) (v : value) : option Struct :=
  match v with
  | VStruct _ _ => Some loc
  | VPtr t (Some a) =>
      if kind_eqb (Kind t) KInterface then None
      else
        match n with
        | O => None
        | S n' =>
            match h !! a with
            | Some v' => strctVal h n' (SAddr a) v'
            | None => None
            end
        end
  | _ => None
  end.

Definition New (h : heap) (target : value) : option Struct :=
  strctVal h (S (length h)) (SCopy target) target.

(** The record value a [Struct] stands for in heap [h]. *)
Definition struct_value (h : heap) (s : Struct) : option value :=
  match s with
  | SAddr a => h !! a
  | SCopy v => Some v
  end.

(** A [structs.Field]: the declaration, the static type, the position
    in the record and the value the field holds now. *)
Record Field : Set := MkField {
  finf : finfo;
  ftype : type;
  findex : nat;
  fvalue : value
}.

Fixpoint getFields (i : nat) (ds : list (finfo * type)) (vs : list value) : list Field :=
  match ds, vs with
  | (d, t) :: ds', v :: vs' => MkField d t i v :: getFields (S i) ds' vs'
  | _, _ => []
  end.

(** [dst.Fields()], read from heap [h]. *)
Definition Fields (h : heap) (dst : Struct) : list Field :=
  match struct_value h dst with
  | Some (VStruct (TStruct _ ds) vs) => getFields O ds vs
  | _ => []
  end.

Definition Name (f : Field) : string := fname (finf f).
Definition Tag (f : Field) : string := ftag (finf f).
Definition IsExported (f : Field) : bool := fexported (finf f).
Definition FieldKind (f : Field) : kind := Kind (ftype f).
Definition Value (f : Field) : value := fvalue f.

(** [Field.IsZero]. *)
Definition IsZero (h : heap) (f : Field) : bool :=
  DeepEqual h (Value f) (zero (ftype f)).

(** [Kind.String]. *)
Definition kind_string (k : kind) : string :=
  match k with
  | KInvalid => "invalid" | KBool => "bool" | KInt => "int"
  | KInt16 => "int16" | KInt64 => "int64" | KFloat64 => "float64"
  | KString => "string" | KStruct => "struct" | KPointer => "ptr"
  | KSlice => "slice" | KMap => "map" | KInterface => "interface"
  end.

(** What [reflect.Value.Set] accepts without panicking: a value of the
    destination's own type, or any value when the destination is an
    interface. *)
Definition assignable (dst : type) (v : value) : bool :=
  kind_eqb (Kind dst) KInterface ||
  match TypeOf v with
  | Some t => type_eqb dst t
  | None => false
  end.

Arguments assignable : simpl never.

Inductive set_result : Set :=
| SetPanic
| SetErr (e : string)
| SetOk (h : heap).

(** [Field.Set]: refuses a field that is not exported or not settable
    and a value of another kind; otherwise stores the value. *)
Definition FieldSet (h : heap) (dst : Struct) (f : Field) (val : value) : set_result :=
  if negb (IsExported f) then SetErr "field is not exported"
  else
    match dst with
    | SCopy _ => SetErr "field is not settable"
    | SAddr a =>
        if negb (kind_eqb (FieldKind f) (ValueKind val)) then
          SetErr ("wrong kind. got: " ++ kind_string (ValueKind val)
                  ++ " want: " ++ kind_string (FieldKind f))
        else if assignable (ftype f) val then
          match h !! a with
          | Some (VStruct t vs) =>
              SetOk (<[a := VStruct t (<[findex f := val]> vs)]> h)
          | _ => SetPanic
          end
        else SetPanic
    end.

(** [strings.Cut(s, ",")], first component. *)
Fixpoint cut_comma (s : string) : string :=
  match s with
  | EmptyString => EmptyString
  | String c s' =>
      if Ascii.eqb c ","%char then EmptyString else String c (cut_comma s')
  end.

(** ** [findField] *)

Fixpoint findField_in (fields : list Field) (name : string) : option Field :=
  match fields with
  | [] => None
  | field :: rest =>
      let tag := Tag field in
      let tag := if String.eqb tag "" then Name field else cut_comma tag in
      if String.eqb tag name && IsExported field then Some field
      else findField_in rest name
  end.

Definition findField (h : heap) (dst : Struct) (name : string) : option Field :=
  findField_in (Fields h dst) name.

(** ** Small [reflect] helpers used by [Apply] *)

(** [t.Elem()] when [t] is a pointer type, [t] itself otherwise. *)
Definition elem_if_pointer (t : type) : type :=
  match t with
  | TPtr u => u
  | _ => t
  end.

(** [Type.FieldByName] on a struct type; [None] stands for the panic on
    another type and for the nil [Type] of a name that is not found. *)
Definition FieldByName (t : type) (name : string) : option type :=
  match t with
  | TStruct _ ds =>
      match List.find (fun d => String.eqb (fname (fst d)) name) ds with
      | Some (_, u) => Some u
      | None => None
      end
  | _ => None
  end.

(** [reflect.Indirect(reflect.ValueOf(v)).Kind()]; the pointee of a
    pointer to an interface has the kind [Interface]. *)
Definition IndirectKind (h : heap) (v : value) : kind :=
  match v with
  | VPtr t (Some a) =>
      if kind_eqb (Kind t) KInterface then KInterface
      else
        match h !! a with
        | Some x => ValueKind x
        | None => KInvalid
        end
  | VPtr _ None => KInvalid
  | _ => ValueKind v
  end.

(** [Value.Len]; [None] is its panic on a value without a length. *)
Definition Len (v : value) : option nat :=
  match v with
  | VString _ s => Some (String.length s)
  | VSlice _ (Some xs) => Some (length xs)
  | VSlice _ None => Some O
  | VMap m => Some (length m)
  | VNilMap => Some O
  | _ => None
  end.

(** [reflect.New(t)]: a fresh cell holding the zero value of [t]. *)
Definition alloc (h : heap) (t : type) : nat * heap :=
  (length h, (h ++ [zero t])%list).

(** [reflect.MakeSlice(TSlice t, n, n)]. *)
Definition MakeSlice (t : type) (n : nat) : list value :=
  replicate n (zero t).

(** The result of a call: a panic, or the two results together with the
    heap the call leaves. *)
Inductive outcome : Set :=
| Panic
| Return (changed : bool) (err : option string) (h : heap).

(** What processing one patch entry leads to: the call is over ([Done]),
    or the loop goes on with the next entry ([Continue]). *)
Inductive step : Set :=
| Done (o : outcome)
| Continue (changed : bool) (err : option string) (h : heap).

(** The [for key, value := range patch] loop, over the entries in the
    order in which [range] yields them. *)
Definition range_patch (entry : string -> value -> bool -> option string -> heap -> step)
  : list (string * value) -> bool -> option string -> heap -> outcome :=
  fix loop m changed err h :=
    match m with
    | [] => Return changed err h
    | (key, value) :: rest =>
        match entry key value changed err h with
        | Done o => o
        | Continue changed' err' h' => loop rest changed' err' h'
        end
    end.

(** A call [Apply(target, patch)], given how one entry is processed:
    [structs.New(target)] first, then the loop. *)
Definition Apply_with
    (entry : value -> value -> Struct -> string -> bool -> option string -> heap -> step)
    (target : value) (patch : list (string * value)) (h : heap) : outcome :=
  match New h target with
  | None => Panic
  | Some dst =>
      range_patch (fun key value => entry value target dst key) patch false None h
  end.

Inductive elems_result : Set :=
| EPanic
| EErr (e : string) (h : heap)
| EOk (arr : list value) (err : option string) (h : heap).

(** [reflect.TypeOf(target)], followed by [Elem()] when it is a pointer
    type. *)
Definition target_type (target : value) : option type :=
  match TypeOf target with
  | Some t => Some (elem_if_pointer t)
  | None => None
  end.

(** ** [Apply] of [pkg/patch/apply.go] *)

Module PkgPatch.

(** The [for i, srcElemValue := range valueAsArray] loop.  [apply] is
    the recursive call of [Apply]; [slot] is the element type of the
    slice being built, [dstElemType] the loop's variable of that name. *)
Definition range_elems (apply : value -> list (string * value) -> heap -> outcome)
    (name : string) (slot : type)
  : list value -> nat -> type -> list value -> option string -> heap -> elems_result :=
  fix loop xs i dstElemType castedArray err h :=
    match xs with
    | [] => EOk castedArray err h
    | VMap valueToApply :: rest =>
        let dstElemType := elem_if_pointer dstElemType in
        let (a, h1) := alloc h dstElemType in
        let newArrayElem := VPtr dstElemType (Some a) in
        match apply newArrayElem valueToApply h1 with
        | Panic => EPanic
        | Return _ (Some e) h2 => EErr e h2
        | Return _ None h2 =>
            if assignable slot newArrayElem
            then loop rest (S i) dstElemType (<[i := newArrayElem]> castedArray) None h2
            else EPanic
        end
    | VNilMap :: rest =>
        (* a nil mapping is a mapping: the same, with no entry to apply *)
        let dstElemType := elem_if_pointer dstElemType in
        let (a, h1) := alloc h dstElemType in
        let newArrayElem := VPtr dstElemType (Some a) in
        match apply newArrayElem [] h1 with
        | Panic => EPanic
        | Return _ (Some e) h2 => EErr e h2
        | Return _ None h2 =>
            if assignable slot newArrayElem
            then loop rest (S i) dstElemType (<[i := newArrayElem]> castedArray) None h2
            else EPanic
        end
    | srcElemValue :: rest =>
        match CanConvert srcElemValue (Some dstElemType) with
        | None => EPanic
        | Some false => EErr ("can't convert " ++ name ++ " to dst type") h
        | Some true =>
            let c := Convert srcElemValue dstElemType in
            if assignable slot c
            then loop rest (S i) dstElemType (<[i := c]> castedArray) err h
            else EPanic
        end
    end.

(** The body of the loop of [Apply] for the entry [key, val]. *)
Fixpoint ApplyEntry (val : value) (target : value) (dst : Struct) (key : string)
    (changed : bool) (err : option string) (h : heap) {struct val} : step :=
  let name := key in
  match findField h dst name with
  | None => Continue changed err h (* skip non-existing fields *)
  | Some dstField =>
    let dstKind := FieldKind dstField in
    let dstValue := Value dstField in
    (* from [reflect.DeepEqual] to the end of the loop body *)
    let assign (err : option string) : step :=
      let changed := if negb (DeepEqual h val dstValue) then true else changed in
      if kind_eqb dstKind KSlice then
        (* handling of setting arrays/slices *)
        match TypeOf dstValue, Len val with
        | Some (TSlice dstElemType), Some n =>
            let castedArray := MakeSlice dstElemType n in
            match val with
            | VSlice TIface valueAsArray =>
                match
                  match valueAsArray with
                  | Some xs =>
                      range_elems (Apply_with ApplyEntry) name dstElemType
                        xs O dstElemType castedArray err h
                  | None => EOk castedArray err h
                  end
                with
                | EPanic => Done Panic
                | EErr e h' => Done (Return changed (Some e) h')
                | EOk castedArray err h' =>
                    match err with
                    | Some e => Done (Return changed (Some e) h')
                    | None =>
                        match FieldSet h' dst dstField
                                (VSlice dstElemType (Some castedArray)) with
                        | SetPanic => Done Panic
                        | SetErr e => Done (Return changed (Some e) h')
                        | SetOk h'' => Continue changed None h''
                        end
                    end
                end
            | _ => Done (Return changed (Some (name ++ " is not an array")) h)
            end
        | _, _ => Done Panic
        end
      else
        (* other values *)
        match CanConvert val (TypeOf dstValue) with
        | None => Done Panic
        | Some false =>
            Done (Return changed (Some ("can't convert " ++ name ++ " to dst type")) h)
        | Some true =>
            match TypeOf dstValue with
            | None => Done Panic
            | Some t =>
                match FieldSet h dst dstField (Convert val t) with
                | SetPanic => Done Panic
                | SetErr e => Done (Return changed (Some e) h)
                | SetOk h' => Continue changed None h'
                end
            end
        end in
    match val with
    | VMap srcValueAsStruct =>
        if kind_eqb dstKind KPointer && IsZero h dstField then
          (* recursive for a nil value of a pointer to struct *)
          match target_type target with
          | None => Done Panic
          | Some targetType =>
            match FieldByName targetType (Name dstField) with
            | None => Done Panic
            | Some sFieldType =>
              let sFieldType := elem_if_pointer sFieldType in
              let (a, h1) := alloc h sFieldType in
              let valueToSet := VPtr sFieldType (Some a) in
              match Apply_with ApplyEntry valueToSet srcValueAsStruct h1 with
              | Panic => Done Panic
              | Return _ (Some iErr) h2 => Done (Return changed (Some iErr) h2)
              | Return iChanged None h2 =>
                  match FieldSet h2 dst dstField valueToSet with
                  | SetPanic => Done Panic
                  | SetErr e => Done (Return changed (Some e) h2)
                  | SetOk h3 => Continue (changed || iChanged) None h3
                  end
              end
            end
          end
        else if kind_eqb dstKind KStruct
                || (kind_eqb dstKind KPointer
                    && kind_eqb (IndirectKind h dstValue) KStruct) then
          (* recursive for structs and pointers to existing structs *)
          match Apply_with ApplyEntry dstValue srcValueAsStruct h with
          | Panic => Done Panic
          | Return _ (Some iErr) h2 => Done (Return changed (Some iErr) h2)
          | Return iChanged None h2 => Continue (changed || iChanged) err h2
          end
        else assign err
    | VNilMap =>
        (* a nil mapping is a mapping: the same, with no entry to apply *)
        if kind_eqb dstKind KPointer && IsZero h dstField then
          match target_type target with
          | None => Done Panic
          | Some targetType =>
            match FieldByName targetType (Name dstField) with
            | None => Done Panic
            | Some sFieldType =>
              let sFieldType := elem_if_pointer sFieldType in
              let (a, h1) := alloc h sFieldType in
              let valueToSet := VPtr sFieldType (Some a) in
              match Apply_with ApplyEntry valueToSet [] h1 with
              | Panic => Done Panic
              | Return _ (Some iErr) h2 => Done (Return changed (Some iErr) h2)
              | Return iChanged None h2 =>
                  match FieldSet h2 dst dstField valueToSet with
                  | SetPanic => Done Panic
                  | SetErr e => Done (Return changed (Some e) h2)
                  | SetOk h3 => Continue (changed || iChanged) None h3
                  end
              end
            end
          end
        else if kind_eqb dstKind KStruct
                || (kind_eqb dstKind KPointer
                    && kind_eqb (IndirectKind h dstValue) KStruct) then
          match Apply_with ApplyEntry dstValue [] h with
          | Panic => Done Panic
          | Return _ (Some iErr) h2 => Done (Return changed (Some iErr) h2)
          | Return iChanged None h2 => Continue (changed || iChanged) err h2
          end
        else assign err
    | _ =>
        (* not compatible types (different kind) *)
        assign (if kind_eqb dstKind KStruct
                then Some (name ++ " is not a struct") else err)
    end
  end.

(** [Apply(target, patch)] run in heap [h]. *)
Definition Apply (h : heap) (target : value) (patch : list (string * value)) : outcome :=
  Apply_with ApplyEntry target patch h.

(** The part of the loop body from [reflect.DeepEqual] to its end, as
    [ApplyEntry] runs it, for the entry [name, val] resolved to
    [dstField]. *)
Definition assign (val : value) (dst : Struct) (name : string) (dstField : Field)
    (changed : bool) (err : option string) (h : heap) : step :=
  let dstKind := FieldKind dstField in
  let dstValue := Value dstField in
  let changed := if negb (DeepEqual h val dstValue) then true else changed in
  if kind_eqb dstKind KSlice then
    (* handling of setting arrays/slices *)
    match TypeOf dstValue, Len val with
    | Some (TSlice dstElemType), Some n =>
        let castedArray := MakeSlice dstElemType n in
        match val with
        | VSlice TIface valueAsArray =>
            match
              match valueAsArray with
              | Some xs =>
                  range_elems (Apply_with ApplyEntry) name dstElemType
                    xs O dstElemType castedArray err h
              | None => EOk castedArray err h
              end
            with
            | EPanic => Done Panic
            | EErr e h' => Done (Return changed (Some e) h')
            | EOk castedArray err h' =>
                match err with
                | Some e => Done (Return changed (Some e) h')
                | None =>
                    match FieldSet h' dst dstField
                            (VSlice dstElemType (Some castedArray)) with
                    | SetPanic => Done Panic
                    | SetErr e => Done (Return changed (Some e) h')
                    | SetOk h'' => Continue changed None h''
                    end
                end
            end
        | _ => Done (Return changed (Some (name ++ " is not an array")) h)
        end
    | _, _ => Done Panic
    end
  else
    (* other values *)
    match CanConvert val (TypeOf dstValue) with
    | None => Done Panic
    | Some false =>
        Done (Return changed (Some ("can't convert " ++ name ++ " to dst type")) h)
    | Some true =>
        match TypeOf dstValue with
        | None => Done Panic
        | Some t =>
            match FieldSet h dst dstField (Convert val t) with
            | SetPanic => Done Panic
            | SetErr e => Done (Return changed (Some e) h)
            | SetOk h' => Continue changed None h'
            end
        end
    end.

(** The part of the loop body for a nil pointer field patched with a
    mapping, as [ApplyEntry] runs it. *)
Definition assign_new (srcValueAsStruct : list (string * value)) (target : value)
    (dst : Struct) (dstField : Field) (changed : bool) (h : heap) : step :=
  match target_type target with
  | None => Done Panic
  | Some targetType =>
    match FieldByName targetType (Name dstField) with
    | None => Done Panic
    | Some sFieldType =>
      let sFieldType := elem_if_pointer sFieldType in
      let (a, h1) := alloc h sFieldType in
      let valueToSet := VPtr sFieldType (Some a) in
      match Apply h1 valueToSet srcValueAsStruct with
      | Panic => Done Panic
      | Return _ (Some iErr) h2 => Done (Return changed (Some iErr) h2)
      | Return iChanged None h2 =>
          match FieldSet h2 dst dstField valueToSet with
          | SetPanic => Done Panic
          | SetErr e => Done (Return changed (Some e) h2)
          | SetOk h3 => Continue (changed || iChanged) None h3
          end
      end
    end
  end.

End PkgPatch.

(** ** [Apply] of the earlier revision of the file ([part_000]) *)

Module Part000.

(** [reflect.Indirect(reflect.ValueOf(v))]: the pointee of a pointer;
    [None] is the zero [reflect.Value] (of nil and of a nil pointer). *)
Definition Indirect (h : heap) (v : value) : option value :=
  match v with
  | VNil => None
  | VPtr _ (Some a) => h !! a
  | VPtr _ None => None
  | _ => Some v
  end.

(** The [for i, srcElemValue := range valueAsArray] loop. *)
Fixpoint range_elems (name : string) (dstElemType : type) (xs : list value)
    (i : nat) (castedArray : list value) : option (string + list value) :=
  match xs with
  | [] => Some (inr castedArray)
  | srcElemValue :: rest =>
      match CanConvert srcElemValue (Some dstElemType) with
      | None => None
      | Some false => Some (inl ("can't convert " ++ name ++ " to dst type"))
      | Some true =>
          range_elems name dstElemType rest (S i)
            (<[i := Convert srcElemValue dstElemType]> castedArray)
      end
  end.

(** The body of the loop of [Apply] for the entry [key, val]. *)
Fixpoint ApplyEntry (val : value) (target : value) (dst : Struct) (key : string)
    (changed : bool) (err : option string) (h : heap) {struct val} : step :=
  let name := key in
  match findField h dst name with
  | None => Continue changed err h (* skip non-existing fields *)
  | Some dstField =>
    let dstKind := FieldKind dstField in
    let dstValue := Value dstField in
    let srcValue := Indirect h val in
    if kind_eqb dstKind KStruct
       || (kind_eqb dstKind KPointer
           && kind_eqb (IndirectKind h dstValue) KStruct) then
      (* recursive for structs and pointers to structs *)
      match val with
      | VMap valueAsStruct =>
          match Apply_with ApplyEntry dstValue valueAsStruct h with
          | Panic => Done Panic
          | Return _ (Some iErr) h2 => Done (Return changed (Some iErr) h2)
          | Return iChanged None h2 => Continue (changed || iChanged) err h2
          end
      | VNilMap =>
          (* a nil mapping is a mapping without entries *)
          match Apply_with ApplyEntry dstValue [] h with
          | Panic => Done Panic
          | Return _ (Some iErr) h2 => Done (Return changed (Some iErr) h2)
          | Return iChanged None h2 => Continue (changed || iChanged) err h2
          end
      | _ => Done (Return changed (Some (name ++ " is not a struct")) h)
      end
    else
      let changed := if negb (DeepEqual h val dstValue) then true else changed in
      if kind_eqb dstKind KSlice then
        (* handling of setting arrays/slices *)
        match TypeOf dstValue, from_option Len None srcValue with
        | Some (TSlice dstElemType), Some n =>
            let castedArray := MakeSlice dstElemType n in
            match val with
            | VSlice TIface valueAsArray =>
                match range_elems name dstElemType (default [] valueAsArray)
                        O castedArray with
                | None => Done Panic
                | Some (inl e) => Done (Return changed (Some e) h)
                | Some (inr castedArray) =>
                    match err with
                    | Some e => Done (Return changed (Some e) h)
                    | None =>
                        match FieldSet h dst dstField
                                (VSlice dstElemType (Some castedArray)) with
                        | SetPanic => Done Panic
                        | SetErr e => Done (Return changed (Some e) h)
                        | SetOk h' => Continue changed None h'
                        end
                    end
                end
            | _ => Done (Return changed (Some (name ++ " is not an array")) h)
            end
        | _, _ => Done Panic
        end
      else
        (* other values *)
        match from_option (fun v => CanConvert v (TypeOf dstValue)) None srcValue,
              srcValue with
        | Some true, Some src =>
            match TypeOf dstValue with
            | None => Done Panic
            | Some t =>
                match FieldSet h dst dstField (Convert src t) with
                | SetPanic => Done Panic
                | SetErr e => Done (Return changed (Some e) h)
                | SetOk h' => Continue changed None h'
                end
            end
        | Some false, _ =>
            Done (Return changed (Some ("can't convert " ++ name ++ " to dst type")) h)
        | _, _ => Done Panic
        end
  end.

(** [Apply(target, patch)] run in heap [h]. *)
Definition Apply (h : heap) (target : value) (patch : list (string * value)) : outcome :=
  Apply_with ApplyEntry target patch h.

(** The part of the loop body from [reflect.DeepEqual] to its end, as
    [ApplyEntry] runs it, for the entry [name, val] resolved to
    [dstField]. *)
Definition assign (val : value) (dst : Struct) (name : string) (dstField : Field)
    (changed : bool) (err : option string) (h : heap) : step :=
  let dstKind := FieldKind dstField in
  let dstValue := Value dstField in
  let srcValue := Indirect h val in
  let changed := if negb (DeepEqual h val dstValue) then true else changed in
  if kind_eqb dstKind KSlice then
    (* handling of setting arrays/slices *)
    match TypeOf dstValue, from_option Len None srcValue with
    | Some (TSlice dstElemType), Some n =>
        let castedArray := MakeSlice dstElemType n in
        match val with
        | VSlice TIface valueAsArray =>
            match range_elems name dstElemType (default [] valueAsArray)
                    O castedArray with
            | None => Done Panic
            | Some (inl e) => Done (Return changed (Some e) h)
            | Some (inr castedArray) =>
                match err with
                | Some e => Done (Return changed (Some e) h)
                | None =>
                    match FieldSet h dst dstField
                            (VSlice dstElemType (Some castedArray)) with
                    | SetPanic => Done Panic
                    | SetErr e => Done (Return changed (Some e) h)
                    | SetOk h' => Continue changed None h'
                    end
                end
            end
        | _ => Done (Return changed (Some (name ++ " is not an array")) h)
        end
    | _, _ => Done Panic
    end
  else
    (* other values *)
    match from_option (fun v => CanConvert v (TypeOf dstValue)) None srcValue,
          srcValue with
    | Some true, Some src =>
        match TypeOf dstValue with
        | None => Done Panic
        | Some t =>
            match FieldSet h dst dstField (Convert src t) with
            | SetPanic => Done Panic
            | SetErr e => Done (Return changed (Some e) h)
            | SetOk h' => Continue changed None h'
            end
        end
    | Some false, _ =>
        Done (Return changed (Some ("can't convert " ++ name ++ " to dst type")) h)
    | _, _ => Done Panic
    end.

End Part000.

(** ** Definitions used to state the properties *)

Definition comma : ascii := ","%char.

(** [p] is the portion of [s] before its first comma (all of [s] when
    it has none). *)
Inductive before_comma : string -> string -> Prop :=
| bc_end : before_comma EmptyString EmptyString
| bc_comma r : before_comma (String comma r) EmptyString
| bc_char c s p :
    c <> comma -> before_comma s p -> before_comma (String c s) (String c p).

(** The external name under which the specification resolves a field:
    the declared tag with what follows a comma stripped, the field's own
    identifier when no tag is declared. *)
Definition external_name (f : Field) (n : string) : Prop :=
  (Tag f = "" /\ n = Name f) \/ (Tag f <> "" /\ before_comma (Tag f) n).

(** A field that a patch key [n] may resolve to. *)
Definition eligible (n : string) (f : Field) : Prop :=
  external_name f n /\ IsExported f = true.

(** The entries of a patch processed one after the other as long as
    the loop goes on: the state before the next entry, or [None] when
    the call is over earlier. *)
Fixpoint steps (entry : string -> value -> bool -> option string -> heap -> step)
    (m : list (string * value)) (changed : bool) (err : option string) (h : heap)
  : option (bool * option string * heap) :=
  match m with
  | [] => Some (changed, err, h)
  | (key, val) :: rest =>
      match entry key val changed err h with
      | Continue changed' err' h' => steps entry rest changed' err' h'
      | Done _ => None
      end
  end.

(** [value.(map[string]interface{})]: the mapping a patch value is,
    when it is one; the nil map is a mapping without entries. *)
Definition as_mapping (v : value) : option (list (string * value)) :=
  match v with
  | VMap m => Some m
  | VNilMap => Some []
  | _ => None
  end.

(** A patch value that is not a mapping. *)
Definition not_mapping (v : value) : bool :=
  match v with
  | VMap _ | VNilMap => false
  | _ => true
  end.

(** An integer that its type can hold. *)
Definition in_range (b : basic) (z : Z) : bool :=
  (- 2 ^ (bits b - 1) <=? z) && (z <? 2 ^ (bits b - 1)).

(** [v] is a value of the basic (or named basic) type [t]. *)
Definition holds_basic (t : type) (v : value) : bool :=
  match v with
  | VBool u _ => type_eqb u t && kind_eqb (Kind t) KBool
  | VInt u z =>
      type_eqb u t && is_int_kind (Kind t) && in_range (basic_of t) z
  | VFloat u _ => type_eqb u t && kind_eqb (Kind t) KFloat64
  | VString u _ => type_eqb u t && kind_eqb (Kind t) KString
  | _ => false
  end.

(** A record all of whose fields are declared with a basic type and
    hold a value of that type. *)
Fixpoint flat_record (ds : list (finfo * type)) (vs : list value) : bool :=
  match ds, vs with
  | [], [] => true
  | (_, t) :: ds', v :: vs' => holds_basic t v && flat_record ds' vs'
  | _, _ => false
  end.

(** No pointer to cell [p] occurs in [v]. *)
Fixpoint avoids (p : nat) (v : value) {struct v} : bool :=
  match v with
  | VPtr _ (Some a) => negb (Nat.eqb a p)
  | VStruct _ fs => forallb (avoids p) fs
  | VSlice _ (Some xs) => forallb (avoids p) xs
  | VMap m =>
      (fix go (m : list (string * value)) : bool :=
         match m with
         | [] => true
         | (_, x) :: m' => avoids p x && go m'
         end) m
  | _ => true
  end.

(** The size of a patch value, and of a mapping. *)
Fixpoint vsize (v : value) {struct v} : nat :=
  match v with
  | VStruct _ fs => S (list_sum (List.map vsize fs))
  | VSlice _ (Some xs) => S (list_sum (List.map vsize xs))
  | VMap m =>
      S ((fix go (m : list (string * value)) : nat :=
            match m with
            | [] => O
            | (_, x) :: m' => (vsize x + go m')%nat
            end) m)
  | _ => 1%nat
  end.

Definition msize (m : list (string * value)) : nat :=
  list_sum (List.map (fun kv => vsize (snd kv)) m).

(** The position of the field a key resolves to, from the declarations
    of the record alone. *)
Fixpoint resolve_index (i : nat) (ds : list (finfo * type)) (name : string) : option nat :=
  match ds with
  | [] => None
  | (d, _) :: ds' =>
      let tag := if String.eqb (ftag d) "" then fname d else cut_comma (ftag d) in
      if String.eqb tag name && fexported d then Some i
      else resolve_index (S i) ds' name
  end.

(** What a call that never reaches cell [p] guarantees about the heap
    [h'] it leaves from [h]: cell [p] is as it was, the heap has not
    shrunk and still holds no pointer to [p]. *)
Definition keeps (p : nat) (h h' : heap) : Prop :=
  h' !! p = h !! p
  /\ Forall (fun v => avoids p v = true) h'
  /\ (length h <= length h')%nat.

Definition step_keeps (p : nat) (h : heap) (s : step) : Prop :=
  match s with
  | Continue _ _ h' | Done (Return _ _ h') => keeps p h h'
  | Done Panic => True
  end.

Definition outcome_keeps (p : nat) (h : heap) (o : outcome) : Prop :=
  match o with
  | Return _ _ h' => keeps p h h'
  | Panic => True
  end.

(** The record [dst] is not cell [p] and, when it is a copy, holds no
    pointer to [p]. *)
Definition dst_avoids (p : nat) (dst : Struct) : Prop :=
  match dst with
  | SAddr b => b <> p
  | SCopy v => avoids p v = true
  end.

(** ** Records and patches of [apply_test.go] *)

Module Fixtures.

Definition string_t : type := TBasic BString.
Definition int_t : type := TBasic BInt.
Definition float64_t : type := TBasic BFloat64.

(** An exported field with its [json] tag. *)
Definition field (name tag : string) : finfo := FInfo name tag true.

(** What [json.Unmarshal] puts into a [map[string]interface{}]. *)
Definition str (s : string) : value := VString string_t s.
Definition num (z : Z) : value := VFloat float64_t z.
Definition array (xs : list value) : value := VSlice TIface (Some xs).

(** [&a] for the record in cell 0. *)
Definition ref (t : type) : value := VPtr t (Some O).

(** [TestApplyDetectsWrongType]. *)
Definition Employee : type :=
  TStruct "Target"
    [(field "Name" "name", string_t); (field "Salary" "salary", int_t)].
Definition anakin : heap :=
  [VStruct Employee [str "Anakin Skywalker"; VInt int_t 123]].

(** [TestApplyNilSubStructs]. *)
Definition TargetPerson : type :=
  TStruct "TargetPerson"
    [(field "FirstName" "first_name", string_t);
     (field "LastName" "last_name", string_t);
     (field "Position" "position", string_t)].
Definition Contacted : type :=
  TStruct "Target"
    [(field "Contact" "contact", TPtr TargetPerson);
     (field "Salary" "salary", int_t)].
Definition no_contact : heap :=
  [VStruct Contacted [VPtr TargetPerson None; VInt int_t 123]].

(** [TestUpdateArrays]. *)
Definition Cast : type :=
  TStruct "Target" [(field "Characters" "characters", TSlice string_t)].
Definition cast : heap :=
  [VStruct Cast [VSlice string_t (Some [str "Anakin Skywalker"])]].

(** [TestApplyIgnoresUnexportedFields]. *)
Definition Trooper : type :=
  TStruct "Target"
    [(field "Exported" "exported,omitempty", string_t);
     (FInfo "unexported" "" false, string_t)].
Definition trooper : heap :=
  [VStruct Trooper [str "stormtrooper"; str "private"]].

(** Records holding a slice of records, of pointers to records and of
    values of any type. *)
Definition Item : type := TStruct "Item" [(field "Name" "name", string_t)].
Definition Inventory : type :=
  TStruct "Inventory" [(field "Items" "items", TSlice Item)].
Definition Stock : type :=
  TStruct "Stock" [(field "Items" "items", TSlice (TPtr Item))].
Definition Bag : type :=
  TStruct "Bag" [(field "Things" "things", TSlice TIface)].
Definition inventory : heap := [VStruct Inventory [VSlice Item None]].
Definition stock : heap := [VStruct Stock [VSlice (TPtr Item) None]].
Definition bag : heap := [VStruct Bag [VSlice TIface None]].

(** [anakin] followed by a cell holding the [int] 100500, for a patch
    that carries a pointer to it. *)
Definition anakin_raise : heap := (anakin ++ [VInt int_t 100500])%list.

(** [TestApplyZeroValueFields]. *)
Definition bool_t : type := TBasic BBool.
Definition int64_t : type := TBasic BInt64.
Definition Pilot : type :=
  TStruct "Target"
    [(field "Name" "name", string_t); (field "Salary" "salary", int64_t);
     (field "OnDuty" "on_duty", bool_t)].
Definition han : heap :=
  [VStruct Pilot [str "Han Solo"; VInt int64_t 15; VBool bool_t true]].

(** [TestApplySubStructs]: the contact lives in cell 1. *)
Definition contacted : heap :=
  [VStruct Contacted [VPtr TargetPerson (Some 1%nat); VInt int_t 123];
   VStruct TargetPerson [str "Anakin"; str "Skywalker"; str ""]].

(** [TestEnums]. *)
Definition Position : type := TNamed "Position" BInt16.
Definition Person : type :=
  TStruct "Person"
    [(field "FirstName" "first_name", string_t);
     (field "LastName" "last_name", string_t);
     (field "Position" "position", Position)].
Definition vader : heap :=
  [VStruct Person [str "Darth"; str "Vader"; VInt Position 0]].

(** [TestSkipConversionErrors], [TestUpdateArrays]: the variable [a]
    holds a pointer to the record, and [&a] is passed. *)
Definition cast_var : heap := (cast ++ [VPtr Cast (Some O)])%list.
Definition ref_var : value := VPtr (TPtr Cast) (Some 1%nat).

(** [TestUpdateIntArrays]. *)
Definition Lasers : type :=
  TStruct "Target" [(field "LaserColors" "laser_colors", TSlice int_t)].
Definition lasers : heap :=
  [VStruct Lasers [VSlice int_t (Some [VInt int_t 2])]].

(** A record that holds another record by value. *)
Definition Crew : type :=
  TStruct "Crew" [(field "Captain" "captain", Employee)].
Definition crew : heap :=
  [VStruct Crew [VStruct Employee [str "Han Solo"; VInt int_t 15]]].

(** A record with a field of type [interface{}] that holds a string. *)
Definition Cargo : type :=
  TStruct "Cargo" [(field "Label" "label", TIface)].
Definition cargo : heap := [VStruct Cargo [str "spice"]].

End Fixtures.

(** Induction on types, through the fields of struct types. *)
Section type_induction.
Variable P : type -> Prop.
Hypothesis P_basic : forall b, P (TBasic b).
Hypothesis P_named : forall n b, P (TNamed n b).
Hypothesis P_struct : forall n fs, Forall (fun d => P (snd d)) fs -> P (TStruct n fs).
Hypothesis P_ptr : forall t, P t -> P (TPtr t).
Hypothesis P_slice : forall t, P t -> P (TSlice t).
Hypothesis P_map : P TMap.
Hypothesis P_iface : P TIface.

Fixpoint type_nested_ind (t : type) : P t :=
  match t with
  | TBasic b => P_basic b
  | TNamed n b => P_named n b
  | TStruct n fs =>
      P_struct n fs
        ((fix go (fs : list (finfo * type)) : Forall (fun d => P (snd d)) fs :=
            match fs with
            | [] => List.Forall_nil _
            | d :: fs' => List.Forall_cons _ d fs' (type_nested_ind (snd d)) (go fs')
            end) fs)
  | TPtr u => P_ptr u (type_nested_ind u)
  | TSlice u => P_slice u (type_nested_ind u)
  | TMap => P_map
  | TIface => P_iface
  end.
End type_induction.

(** Case analysis on the innermost scrutinee of the goal. *)
Ltac destruct_innermost :=
  match goal with
  | |- context [match ?x with _ => _ end] =>
      lazymatch x with
      | context [match _ with _ => _ end] => fail
      | _ => destruct x eqn:?; simpl
      end
  end.

(** The common hypotheses: [p] is a cell of [h], no cell of [h] holds a
    pointer to it. *)
Definition unreachable (p : nat) (h : heap) : Prop :=
  (p < length h)%nat /\ Forall (fun v => avoids p v = true) h.

(** What one entry does to the heap: everything it runs keeps cell
    [p], except for the one assignment to the field the key resolves to
    when the loop goes on. *)
Definition step_writes (p : nat) (dst : Struct) (key : string) (h : heap)
    (s : step) : Prop :=
  match s with
  | Done Panic => True
  | Done (Return _ _ h') => keeps p h h'
  | Continue _ _ h' =>
      keeps p h h' \/
      exists f h2 v,
        findField h dst key = Some f /\ keeps p h h2
        /\ avoids p v = true /\ FieldSet h2 dst f v = SetOk h'
  end.

(** The record [dst], when it is a copy, holds no pointer to [p]. *)
Definition dst_closed (p : nat) (dst : Struct) : Prop :=
  match dst with
  | SAddr _ => True
  | SCopy v => avoids p v = true
  end.


(** A relation between heaps, lifted to the results of calls and of
    entries. *)
Definition outcome_rel (R : heap -> heap -> Prop) (h : heap) (o : outcome) : Prop :=
  match o with
  | Return _ _ h' => R h h'
  | Panic => True
  end.

Definition step_rel (R : heap -> heap -> Prop) (h : heap) (s : step) : Prop :=
  match s with
  | Continue _ _ h' | Done (Return _ _ h') => R h h'
  | Done Panic => True
  end.

(** What any call leaves of a heap: no cell is dropped, a cell that
    holds a record holds a record of the same type with as many fields,
    and a cell that holds anything else holds it unchanged. *)
Definition cells_kept (h h' : heap) : Prop :=
  (length h <= length h')%nat
  /\ forall a v, h !! a = Some v ->
       match v with
       | VStruct t vs =>
           exists vs', h' !! a = Some (VStruct t vs') /\ length vs' = length vs
       | _ => h' !! a = Some v
       end.

(** The constructor of a value agrees with the kind of its type. *)
Definition well_kinded (v : value) : bool :=
  match v with
  | VBool t _ => kind_eqb (Kind t) KBool
  | VInt t _ => is_int_kind (Kind t)
  | VFloat t _ => kind_eqb (Kind t) KFloat64
  | VString t _ => kind_eqb (Kind t) KString
  | VStruct t _ => kind_eqb (Kind t) KStruct
  | _ => true
  end.

(** A step with its change flag put aside. *)
Definition forget_changed (s : step) : step :=
  match s with
  | Continue _ e h => Continue false e h
  | Done (Return _ e h) => Done (Return false e h)
  | Done Panic => Done Panic
  end.

(** A patch value that is not a pointer. *)
Definition not_pointer (v : value) : bool :=
  match v with
  | VPtr _ _ => false
  | _ => true
  end.

(** The errors of [Apply]: the two messages it formats itself, for the
    key [k] of the entry, and the two of [Field.Set] that it can
    meet. *)
Inductive apply_error : string -> Prop :=
| cannot_convert (k : string) :
    apply_error ("can't convert " ++ k ++ " to dst type")
| not_an_array (k : string) : apply_error (k ++ " is not an array")
| not_settable : apply_error "field is not settable"
| wrong_kind (got want : kind) :
    apply_error ("wrong kind. got: " ++ kind_string got
                 ++ " want: " ++ kind_string want).

(** The last [n] characters of [s]. *)
Definition last_chars (n : nat) (s : string) : string :=
  String.substring (String.length s - n) n s.

Definition outcome_error (o : outcome) : Prop :=
  match o with
  | Return _ (Some e) _ => apply_error e
  | _ => True
  end.

Definition step_error (s : step) : Prop :=
  match s with
  | Continue _ e _ => e = None
  | Done o => outcome_error o
  end.

(** The test of line 31 on the field: a pointer that is nil. *)
Definition allocates (h : heap) (f : Field) : bool :=
  kind_eqb (FieldKind f) KPointer && IsZero h f.

(** The test of lines 62-63 on the field: a record, or a pointer to
    one. *)
Definition recurses (h : heap) (f : Field) : bool :=
  kind_eqb (FieldKind f) KStruct
  || (kind_eqb (FieldKind f) KPointer
      && kind_eqb (IndirectKind h (Value f)) KStruct).

(** The entry reaches the comparison of lines 73-75: its value is not a
    mapping, or its field is neither a nil pointer nor a record nor a
    pointer to a record. *)
Definition compared (h : heap) (f : Field) (val : value) : bool :=
  match as_mapping val with
  | Some _ => negb (allocates h f || recurses h f)
  | None => true
  end.

(** The recursive call [Apply] makes for a mapping against the field
    [f]: the target it is called on and the heap it starts in.  For a
    nil pointer that is a fresh record of zero values (lines 32-43),
    for a record or a pointer to one the value of the field (line
    64). *)
Definition nested_call (h : heap) (target : value) (f : Field)
  : option (heap * value) :=
  if allocates h f then
    match target_type target with
    | None => None
    | Some targetType =>
        match FieldByName targetType (Name f) with
        | None => None
        | Some sFieldType =>
            let sFieldType := elem_if_pointer sFieldType in
            let (a, h1) := alloc h sFieldType in
            Some (h1, VPtr sFieldType (Some a))
        end
    end
  else if recurses h f then Some (h, Value f)
  else None.

(** Somewhere in the merge of [patch] into [target], started in heap
    [h], an entry reaches the comparison with a raw value that
    [reflect.DeepEqual] does not find equal to the value its field
    holds when the entry's turn comes: an entry of [patch] itself, after
    the entries before it have been processed, or an entry of the
    nested merge that an entry of [patch] starts. *)
Inductive unequal : heap -> value -> list (string * value) -> Prop :=
| unequal_here h target dst pre key val rest c e h1 f :
    New h target = Some dst ->
    steps (fun k v => PkgPatch.ApplyEntry v target dst k) pre false None h
    = Some (c, e, h1) ->
    findField h1 dst key = Some f ->
    compared h1 f val = true ->
    DeepEqual h1 val (Value f) = false ->
    unequal h target (pre ++ (key, val) :: rest)%list
| unequal_nested h target dst pre key val rest c e h1 f m h2 tgt :
    New h target = Some dst ->
    steps (fun k v => PkgPatch.ApplyEntry v target dst k) pre false None h
    = Some (c, e, h1) ->
    findField h1 dst key = Some f ->
    as_mapping val = Some m ->
    nested_call h1 target f = Some (h2, tgt) ->
    unequal h2 tgt m ->
    unequal h target (pre ++ (key, val) :: rest)%list.

(** The flag of an outcome is sound, and complete when the outcome
    carries no error. *)
Definition flag_sound (h : heap) (target : value) (patch : list (string * value))
    (o : outcome) : Prop :=
  match o with
  | Panic => True
  | Return changed err _ =>
      (changed = true -> unequal h target patch)
      /\ (err = None -> unequal h target patch -> changed = true)
  end.

(** The entry [key, val], processed in heap [h], is or starts an
    unequal comparison. *)
Definition entry_unequal (h : heap) (target : value) (dst : Struct)
    (key : string) (val : value) : Prop :=
  exists f, findField h dst key = Some f
    /\ ((compared h f val = true /\ DeepEqual h val (Value f) = false)
        \/ exists m h2 tgt,
             as_mapping val = Some m /\ nested_call h target f = Some (h2, tgt)
             /\ unequal h2 tgt m).

(** * Properties *)

(** ** Field resolution *)

Lemma cut_comma_before (s : string) : before_comma s (cut_comma s).
Proof.
  induction s as [|c s IH]; simpl; [constructor|].
  destruct (Ascii.eqb_spec c ","%char) as [->|Hc].
  - apply bc_comma.
  - now apply bc_char.
Qed.

Lemma before_comma_cut (s p : string) : before_comma s p -> p = cut_comma s.
Proof.
  induction 1 as [|r|c s p Hc _ IH]; simpl; trivial.
  destruct (Ascii.eqb_spec c ","%char) as [->|_]; [now destruct Hc|].
  now rewrite IH.
Qed.

Lemma external_name_code (f : Field) (n : string) :
  external_name f n <->
  (if String.eqb (Tag f) "" then Name f else cut_comma (Tag f)) = n.
Proof.
  unfold external_name.
  destruct (String.eqb_spec (Tag f) "") as [E|E]; split.
  - intros [[_ ->]|[H _]]; [reflexivity | now destruct H].
  - intros <-; left; auto.
  - intros [[H _]|[_ H]]; [now destruct E | symmetry; now apply before_comma_cut].
  - intros <-; right; split; [assumption | apply cut_comma_before].
Qed.

Lemma eligible_code (f : Field) (n : string) :
  eligible n f <->
  String.eqb (if String.eqb (Tag f) "" then Name f else cut_comma (Tag f)) n
  && IsExported f = true.
Proof.
  unfold eligible. rewrite external_name_code, andb_true_iff.
  now rewrite String.eqb_eq.
Qed.

Lemma getFields_finf (i : nat) (ds : list (finfo * type)) (vs : list value) :
  length vs = length ds -> List.map finf (getFields i ds vs) = List.map fst ds.
Proof.
  revert i vs; induction ds as [|[d t] ds IH]; intros i [|v vs] Hlen;
    simpl in *; try discriminate; trivial.
  f_equal. apply IH. congruence.
Qed.

Lemma findField_in_first (fields : list Field) (name : string) :
  match findField_in fields name with
  | Some f =>
      exists pre post, fields = (pre ++ f :: post)%list
        /\ eligible name f /\ Forall (fun g => ~ eligible name g) pre
  | None => Forall (fun g => ~ eligible name g) fields
  end.
Proof.
  induction fields as [|g fields IH]; simpl; [constructor|].
  destruct (String.eqb _ name && IsExported g) eqn:E.
  - exists [], fields.
    split; [reflexivity | split; [now apply eligible_code | constructor]].
  - assert (Hg : ~ eligible name g).
    { rewrite eligible_code. rewrite E. discriminate. }
    destruct (findField_in fields name) as [f|].
    + destruct IH as (pre & post & -> & Hf & Hpre).
      exists (g :: pre), post.
      split; [reflexivity | split; [exact Hf | now constructor]].
    + now constructor.
Qed.

(** C9.  [findField] walks the fields of the record in declaration
    order and returns the first one that is exported and whose external
    name (the tag up to its first comma, or the identifier when there is
    no tag) is the key; a field that matches but is not exported is
    passed over, and without an exported match the result is "not
    found". *)
Theorem C9_findField_first_exported_match
    (h : heap) (dst : Struct) (n : string) (ds : list (finfo * type))
    (vs : list value) (name : string) :
  struct_value h dst = Some (VStruct (TStruct n ds) vs) ->
  length vs = length ds ->
  List.map finf (Fields h dst) = List.map fst ds /\
  match findField h dst name with
  | Some f =>
      exists pre post, Fields h dst = (pre ++ f :: post)%list
        /\ eligible name f /\ Forall (fun g => ~ eligible name g) pre
  | None => Forall (fun g => ~ eligible name g) (Fields h dst)
  end.
Proof.
  intros Hs Hlen. split.
  - unfold Fields. rewrite Hs. now apply getFields_finf.
  - apply findField_in_first.
Qed.

(** ** [structs.New] *)

Lemma strctVal_struct (h : heap) (n : nat) (loc : Struct) (t : type) (fs : list value) :
  strctVal h n loc (VStruct t fs) = Some loc.
Proof. destruct n; reflexivity. Qed.

(** A pointer to a record is the record of the cell it points to. *)
Lemma New_pointer (h : heap) (a : nat) (u t : type) (fs : list value) :
  h !! a = Some (VStruct t fs) ->
  kind_eqb (Kind u) KInterface = false ->
  New h (VPtr u (Some a)) = Some (SAddr a).
Proof.
  intros H Hu. unfold New. simpl. rewrite Hu, H. apply strctVal_struct.
Qed.

(** ** The loop over the patch *)

Lemma range_patch_steps entry (pre m : list (string * value)) c e h c1 e1 h1 :
  steps entry pre c e h = Some (c1, e1, h1) ->
  range_patch entry (pre ++ m)%list c e h = range_patch entry m c1 e1 h1.
Proof.
  revert c e h; induction pre as [|[k v] pre IH]; intros c e h; simpl.
  - now intros [= -> -> ->].
  - destruct (entry k v c e h); [discriminate | apply IH].
Qed.

Lemma ApplyEntry_not_found val target dst key changed err h :
  findField h dst key = None ->
  PkgPatch.ApplyEntry val target dst key changed err h = Continue changed err h.
Proof.
  intros Hf. destruct val; simpl; now rewrite Hf.
Qed.

Lemma range_patch_not_found target dst (patch : list (string * value)) changed err h :
  Forall (fun kv => findField h dst (fst kv) = None) patch ->
  range_patch (fun key val => PkgPatch.ApplyEntry val target dst key)
    patch changed err h = Return changed err h.
Proof.
  induction 1 as [|[k v] patch Hk _ IH]; simpl; [reflexivity|].
  now rewrite (ApplyEntry_not_found _ _ _ _ _ _ _ Hk).
Qed.

(** C10.  An entry whose key resolves to a field and whose value is nil
    does not end in an error result: whatever the kind of the field, the
    call panics ([Value.Len] for a slice field, [Value.CanConvert]
    otherwise). *)
Theorem C10_nil_value_panics
    (h : heap) (target : value) (dst : Struct) (key : string) (f : Field)
    (rest : list (string * value)) (changed : bool) (err : option string) :
  findField h dst key = Some f ->
  range_patch (fun key val => PkgPatch.ApplyEntry val target dst key)
    ((key, VNil) :: rest) changed err h = Panic.
Proof.
  intros Hf. simpl. rewrite Hf.
  destruct (kind_eqb (FieldKind f) KSlice).
  - destruct (TypeOf (Value f)) as [[]|]; reflexivity.
  - reflexivity.
Qed.

(** C7.  When the loop reaches an entry whose value is not a mapping
    and cannot be converted to the type of the field it resolves to (a
    field that is not a slice), [Apply] returns the error naming the
    key; the heap it returns is the heap as the earlier entries left it,
    so the failing field keeps its value and earlier assignments stay,
    and the entries after the failing one play no part. *)
Theorem C7_conversion_failure_aborts
    (target : value) (dst : Struct) (pre rest : list (string * value))
    (key : string) (val : value) (vt : type) (f : Field)
    (c0 c1 : bool) (e0 e1 : option string) (h h1 : heap) :
  steps (fun key val => PkgPatch.ApplyEntry val target dst key)
    pre c0 e0 h = Some (c1, e1, h1) ->
  findField h1 dst key = Some f ->
  not_mapping val = true ->
  TypeOf val = Some vt ->
  TypeOf (Value f) = Some (ftype f) ->
  kind_eqb (FieldKind f) KSlice = false ->
  ConvertibleTo vt (ftype f) = false ->
  range_patch (fun key val => PkgPatch.ApplyEntry val target dst key)
    (pre ++ (key, val) :: rest)%list c0 e0 h
  = Return (if DeepEqual h1 val (Value f) then c1 else true)
      (Some ("can't convert " ++ key ++ " to dst type")) h1.
Proof.
  intros Hpre Hf Hmap Hvt Hft Hs Hconv.
  rewrite (range_patch_steps _ _ _ _ _ _ _ _ _ Hpre). simpl.
  destruct val; try discriminate Hmap; try discriminate Hvt;
    simpl; rewrite Hf; simpl; rewrite Hs;
    unfold CanConvert; simpl in Hvt |- *; rewrite Hft;
    injection Hvt as <-; rewrite Hconv;
    now destruct (DeepEqual h1 _ (Value f)).
Qed.

(** The patch of [TestApplyDetectsWrongType], the name first: the name
    stays changed, the salary keeps its value, and the entry after the
    failing one is not looked at. *)
Lemma C7_witness :
  range_patch
    (fun key val =>
       PkgPatch.ApplyEntry val (Fixtures.ref Fixtures.Employee) (SAddr 0) key)
    ([("name", Fixtures.str "Darth Vader")]
       ++ ("salary", Fixtures.str "euros") :: [("name", Fixtures.str "Luke")])%list
    false None Fixtures.anakin
  = Return true (Some "can't convert salary to dst type")
      [VStruct Fixtures.Employee
         [Fixtures.str "Darth Vader"; VInt Fixtures.int_t 123]].
Proof.
  apply (C7_conversion_failure_aborts (Fixtures.ref Fixtures.Employee) (SAddr 0)
           [("name", Fixtures.str "Darth Vader")]
           [("name", Fixtures.str "Luke")]
           "salary" (Fixtures.str "euros") Fixtures.string_t
           (MkField (Fixtures.field "Salary" "salary") Fixtures.int_t 1
              (VInt Fixtures.int_t 123))
           false true None None Fixtures.anakin
           [VStruct Fixtures.Employee
              [Fixtures.str "Darth Vader"; VInt Fixtures.int_t 123]]);
    reflexivity.
Defined.

Lemma C10_witness :
  range_patch
    (fun key val =>
       PkgPatch.ApplyEntry val (Fixtures.ref Fixtures.Employee) (SAddr 0) key)
    [("salary", VNil)] false None Fixtures.anakin = Panic.
Proof.
  apply (C10_nil_value_panics Fixtures.anakin (Fixtures.ref Fixtures.Employee)
           (SAddr 0) "salary"
           (MkField (Fixtures.field "Salary" "salary") Fixtures.int_t 1
              (VInt Fixtures.int_t 123))).
  reflexivity.
Defined.

(** The record of [TestApplyIgnoresUnexportedFields]: the key
    ["unexported"] names a field that is not exported and resolves to
    nothing. *)
Lemma C9_witness :
  List.map finf (Fields Fixtures.trooper (SAddr 0))
  = [Fixtures.field "Exported" "exported,omitempty"; FInfo "unexported" "" false]
  /\ match findField Fixtures.trooper (SAddr 0) "unexported" with
     | Some f =>
         exists pre post,
           Fields Fixtures.trooper (SAddr 0) = (pre ++ f :: post)%list
           /\ eligible "unexported" f
           /\ Forall (fun g => ~ eligible "unexported" g) pre
     | None =>
         Forall (fun g => ~ eligible "unexported" g)
           (Fields Fixtures.trooper (SAddr 0))
     end.
Proof.
  apply (C9_findField_first_exported_match Fixtures.trooper (SAddr 0) "Target"
           [(Fixtures.field "Exported" "exported,omitempty", Fixtures.string_t);
            (FInfo "unexported" "" false, Fixtures.string_t)]
           [Fixtures.str "stormtrooper"; Fixtures.str "private"] "unexported");
    reflexivity.
Defined.

(** ** Patch values of the wrong shape *)

Lemma no_length_on_slice_panics
    (h : heap) (target : value) (dst : Struct) (key : string) (val : value)
    (f : Field) (rest : list (string * value)) (changed : bool)
    (err : option string) :
  findField h dst key = Some f ->
  FieldKind f = KSlice ->
  Len val = None ->
  range_patch (fun key val => PkgPatch.ApplyEntry val target dst key)
    ((key, val) :: rest) changed err h = Panic.
Proof.
  intros Hf Hk Hlen.
  destruct val as [| | | | | | |? [?|]| |]; try discriminate Hlen;
    simpl; rewrite Hf; simpl; rewrite Hk; simpl;
    destruct (TypeOf (Value f)) as [[]|]; reflexivity.
Qed.

(** C3.  [Apply] asks the patch value for its length before it checks
    that the value is a sequence.  A string or a mapping has a length
    and gets the error naming the key, with the heap untouched; a number
    or a bool has none, and the call panics instead of returning. *)
Theorem C3_number_against_slice_panics :
  PkgPatch.Apply Fixtures.cast (Fixtures.ref Fixtures.Cast)
    [("characters", Fixtures.num 5)] = Panic
  /\ PkgPatch.Apply Fixtures.cast (Fixtures.ref Fixtures.Cast)
       [("characters", VBool (TBasic BBool) true)] = Panic
  /\ PkgPatch.Apply Fixtures.cast (Fixtures.ref Fixtures.Cast)
       [("characters", Fixtures.str "Darth Vader")]
     = Return true (Some "characters is not an array") Fixtures.cast
  /\ PkgPatch.Apply Fixtures.cast (Fixtures.ref Fixtures.Cast)
       [("characters", VMap [("name", Fixtures.str "Darth Vader")])]
     = Return true (Some "characters is not an array") Fixtures.cast.
Proof.
  repeat split; vm_compute; reflexivity.
Qed.

(** C4.  [Apply] of [pkg/patch/apply.go] hands the patch value to
    [CanConvert] as it is: a pointer to an [int] is refused for an [int]
    field, where the earlier revision, which dereferences it first,
    assigns the pointee. *)
Theorem C4_pointer_patch_value_refused :
  PkgPatch.Apply Fixtures.anakin_raise (Fixtures.ref Fixtures.Employee)
    [("salary", VPtr Fixtures.int_t (Some 1%nat))]
  = Return true (Some "can't convert salary to dst type") Fixtures.anakin_raise
  /\ PkgPatch.Apply Fixtures.anakin_raise (Fixtures.ref Fixtures.Employee)
       [("salary", VInt Fixtures.int_t 100500)]
     = Return true None
         [VStruct Fixtures.Employee
            [Fixtures.str "Anakin Skywalker"; VInt Fixtures.int_t 100500];
          VInt Fixtures.int_t 100500]
  /\ Part000.Apply Fixtures.anakin_raise (Fixtures.ref Fixtures.Employee)
       [("salary", VPtr Fixtures.int_t (Some 1%nat))]
     = Return true None
         [VStruct Fixtures.Employee
            [Fixtures.str "Anakin Skywalker"; VInt Fixtures.int_t 100500];
          VInt Fixtures.int_t 100500].
Proof.
  repeat split; vm_compute; reflexivity.
Qed.

(** C6.  A mapping element is applied to a fresh record and a pointer to
    that record is stored in the new slice.  For a slice of pointers to
    records this is the element; for a slice of records the pointer is
    not assignable to the element and [reflect.Value.Set] panics.  An
    error of the recursive call ends the whole call, the field left as
    it was. *)
Theorem C6_mapping_elements_of_record_slices :
  PkgPatch.Apply Fixtures.stock (Fixtures.ref Fixtures.Stock)
    [("items", Fixtures.array [VMap [("name", Fixtures.str "blaster")]])]
  = Return true None
      [VStruct Fixtures.Stock
         [VSlice (TPtr Fixtures.Item) (Some [VPtr Fixtures.Item (Some 1%nat)])];
       VStruct Fixtures.Item [Fixtures.str "blaster"]]
  /\ PkgPatch.Apply Fixtures.inventory (Fixtures.ref Fixtures.Inventory)
       [("items", Fixtures.array [VMap [("name", Fixtures.str "blaster")]])]
     = Panic
  /\ PkgPatch.Apply Fixtures.stock (Fixtures.ref Fixtures.Stock)
       [("items", Fixtures.array [VMap [("name", Fixtures.num 7)]])]
     = Return true (Some "can't convert name to dst type")
         (Fixtures.stock ++ [zero Fixtures.Item])%list.
Proof.
  repeat split; vm_compute; reflexivity.
Qed.

(** ** Type identity and conversion *)



Lemma basic_eqb_eq (a b : basic) : basic_eqb a b = true <-> a = b.
Proof. destruct a, b; simpl; split; congruence. Qed.

Lemma finfo_eqb_eq (a b : finfo) : finfo_eqb a b = true <-> a = b.
Proof.
  destruct a as [n t e], b as [n' t' e']; unfold finfo_eqb; simpl.
  rewrite !andb_true_iff, !String.eqb_eq, Bool.eqb_true_iff.
  split; [intros [[-> ->] ->] | intros [= -> -> ->]]; auto.
Qed.

Lemma type_eqb_eq (a b : type) : type_eqb a b = true <-> a = b.
Proof.
  revert b. induction a as [x|n x|n fs IH|t IH|t IH| |] using type_nested_ind;
    intros [y|m y|m gs|u|u| |]; simpl; try (split; congruence).
  - rewrite basic_eqb_eq. split; congruence.
  - rewrite andb_true_iff, String.eqb_eq, basic_eqb_eq. split; [intros [-> ->]|intros [= -> ->]]; auto.
  - rewrite andb_true_iff, String.eqb_eq.
    assert (Hfs : forall gs,
      (fix go (fs gs : list (finfo * type)) {struct fs} : bool :=
         match fs, gs with
         | [], [] => true
         | (i, t) :: fs', (j, u) :: gs' =>
             finfo_eqb i j && type_eqb t u && go fs' gs'
         | _, _ => false
         end) fs gs = true <-> fs = gs).
    { clear gs. induction IH as [|[i t] fs Ht _ IHfs]; intros [|[j u] gs];
        try (split; congruence).
      simpl in Ht. rewrite !andb_true_iff, finfo_eqb_eq, (Ht u), IHfs.
      split; [intros [[-> ->] ->] | intros [= -> -> ->]]; auto. }
    rewrite Hfs. split; [intros [-> ->] | intros [= -> ->]]; auto.
  - rewrite IH. split; congruence.
  - rewrite IH. split; congruence.
Qed.

Lemma type_eqb_refl (t : type) : type_eqb t t = true.
Proof. now apply type_eqb_eq. Qed.

Lemma assignable_own_type (t : type) (v : value) :
  TypeOf v = Some t -> assignable t v = true.
Proof.
  intros H. unfold assignable. rewrite H, type_eqb_refl. apply orb_true_r.
Qed.

(** What [Convert] returns for a value that [CanConvert] can be stored
    where a value of the destination type is expected. *)
Lemma Convert_assignable (v : value) (t : type) :
  CanConvert v (Some t) = Some true -> assignable t (Convert v t) = true.
Proof.
  unfold CanConvert. destruct (TypeOf v) as [vt|] eqn:Hvt; [|discriminate].
  intros [= Hc]. unfold assignable.
  destruct (kind_eqb (Kind t) KInterface) eqn:Hk; [reflexivity|]. simpl.
  assert (Ht : TypeOf (Convert v t) = Some t).
  { unfold Convert.
    destruct v; simpl in Hvt; try discriminate; injection Hvt as <-;
      destruct t as [[]|? []| | | | |]; try reflexivity; try discriminate Hk;
      try discriminate Hc;
      try (destruct t as [[]|? []| | | | |]; discriminate Hc). }
  now rewrite Ht, type_eqb_refl.
Qed.

(** ** Fields of a record in the heap *)

Lemma findField_in_In (fields : list Field) (name : string) (f : Field) :
  findField_in fields name = Some f -> In f fields /\ IsExported f = true.
Proof.
  induction fields as [|g fields IH]; simpl; [discriminate|].
  destruct (String.eqb _ name && IsExported g) eqn:E.
  - intros [= <-]. apply andb_true_iff in E. split; [now left | apply E].
  - intros H. destruct (IH H). split; [now right | assumption].
Qed.

Lemma getFields_In (i : nat) (ds : list (finfo * type)) (vs : list value) (f : Field) :
  In f (getFields i ds vs) ->
  exists j, findex f = (i + j)%nat
    /\ vs !! j = Some (fvalue f) /\ ds !! j = Some (finf f, ftype f).
Proof.
  revert i vs; induction ds as [|[d t] ds IH]; intros i [|v vs]; simpl;
    try tauto.
  intros [<-|H].
  - exists O. simpl. split; [lia | split; reflexivity].
  - destruct (IH _ _ H) as (j & Hi & Hv & Hd).
    exists (S j). split; [lia | split; assumption].
Qed.

(** The field a key resolves to, as it sits in the record of cell [a]. *)
Lemma findField_cell (h : heap) (a : nat) (n : string) (ds : list (finfo * type))
    (vs : list value) (key : string) (f : Field) :
  h !! a = Some (VStruct (TStruct n ds) vs) ->
  findField h (SAddr a) key = Some f ->
  vs !! findex f = Some (Value f)
  /\ ds !! findex f = Some (finf f, ftype f)
  /\ IsExported f = true.
Proof.
  intros Hc Hf. unfold findField, Fields in Hf. simpl in Hf. rewrite Hc in Hf.
  destruct (findField_in_In _ _ _ Hf) as [Hin He].
  destruct (getFields_In _ _ _ _ Hin) as (j & Hi & Hv & Hd).
  simpl in Hi. subst j. auto.
Qed.

Lemma FieldSet_cell (h : heap) (a : nat) (t : type) (vs : list value)
    (f : Field) (val : value) :
  h !! a = Some (VStruct t vs) ->
  IsExported f = true ->
  kind_eqb (FieldKind f) (ValueKind val) = true ->
  assignable (ftype f) val = true ->
  FieldSet h (SAddr a) f val
  = SetOk (<[a := VStruct t (<[findex f := val]> vs)]> h).
Proof.
  intros Hc He Hk Ha. unfold FieldSet. now rewrite He, Hk, Ha, Hc.
Qed.

Lemma findField_in_index (k : nat) (ds : list (finfo * type)) (vs : list value)
    (name : string) (f : Field) :
  findField_in (getFields k ds vs) name = Some f -> (k <= findex f)%nat.
Proof.
  intros H. destruct (findField_in_In _ _ _ H) as [Hin _].
  destruct (getFields_In _ _ _ _ Hin) as (j & -> & _). lia.
Qed.

(** Resolution looks at declarations only: after field [i] has been
    given the value [v], a key resolves to the same field, which holds
    [v] when it is field [i]. *)
Lemma findField_in_insert (k i : nat) (ds : list (finfo * type)) (vs : list value)
    (v : value) (name : string) (f : Field) :
  findField_in (getFields k ds vs) name = Some f ->
  findField_in (getFields k ds (<[i := v]> vs)) name
  = Some (if Nat.eqb (findex f) (k + i)
          then MkField (finf f) (ftype f) (findex f) v else f).
Proof.
  revert k i vs; induction ds as [|[d t] ds IH]; intros k i [|x vs]; simpl;
    try discriminate.
  destruct i as [|i]; simpl.
  - unfold Tag, Name, IsExported; simpl.
    destruct (String.eqb _ name && fexported d).
    + intros [= <-]. simpl. now rewrite Nat.add_0_r, Nat.eqb_refl.
    + intros H. rewrite H. pose proof (findField_in_index _ _ _ _ _ H) as Hle.
      destruct (Nat.eqb_spec (findex f) (k + 0)); [lia | reflexivity].
  - unfold Tag, Name, IsExported; simpl.
    destruct (String.eqb _ name && fexported d).
    + intros [= <-]. simpl.
      destruct (Nat.eqb_spec k (k + S i)); [lia | reflexivity].
    + intros H. rewrite (IH _ i _ H).
      now replace (S k + i)%nat with (k + S i)%nat by lia.
Qed.

Lemma findField_after_set (h : heap) (a i : nat) (n : string)
    (ds : list (finfo * type)) (vs : list value) (v : value) (key : string)
    (f : Field) :
  h !! a = Some (VStruct (TStruct n ds) vs) ->
  findField h (SAddr a) key = Some f ->
  findField (<[a := VStruct (TStruct n ds) (<[i := v]> vs)]> h) (SAddr a) key
  = Some (if Nat.eqb (findex f) i
          then MkField (finf f) (ftype f) (findex f) v else f).
Proof.
  intros Hc Hf. unfold findField, Fields in *. simpl in *.
  rewrite Hc in Hf.
  rewrite list_lookup_insert_eq by (eapply lookup_lt_Some; eassumption).
  apply (findField_in_insert 0 i _ _ v _ _ Hf).
Qed.

(** ** Sequences *)

(** Elements that are not mappings and convert to the element type fill
    the new slice position by position, whatever it held. *)
Lemma range_elems_scalars apply (name : string) (et : type) (xs : list value)
    (done todo : list value) (err : option string) (h : heap) :
  Forall (fun x => not_mapping x = true /\ CanConvert x (Some et) = Some true) xs ->
  length todo = length xs ->
  PkgPatch.range_elems apply name et xs (length done) et (done ++ todo)%list err h
  = EOk (done ++ List.map (fun x => Convert x et) xs)%list err h.
Proof.
  intros Hxs. revert done todo.
  induction Hxs as [|x xs [Hm Hc] _ IH]; intros done [|t todo] Hlen;
    try discriminate Hlen.
  - reflexivity.
  - assert (Hstep :
      PkgPatch.range_elems apply name et (x :: xs) (length done) et
        (done ++ t :: todo)%list err h
      = PkgPatch.range_elems apply name et xs (S (length done)) et
          (<[length done := Convert x et]> (done ++ t :: todo)%list) err h).
    { pose proof (Convert_assignable _ _ Hc) as Ha.
      destruct x; try discriminate Hm; try discriminate Hc;
        unfold CanConvert in Hc; simpl in Hc |- *; injection Hc as Hc;
        now rewrite Hc, Ha. }
    rewrite Hstep.
    replace (<[length done := Convert x et]> (done ++ t :: todo)%list)
      with ((done ++ [Convert x et]) ++ todo)%list.
    + replace (S (length done)) with (length (done ++ [Convert x et])%list)
        by (rewrite length_app; simpl; lia).
      rewrite IH by (simpl in Hlen; lia).
      now rewrite <- app_assoc.
    + rewrite insert_app_r_alt by lia.
      rewrite Nat.sub_diag. simpl. now rewrite <- app_assoc.
Qed.

(** A slice field patched with a sequence whose elements are not
    mappings and convert to the element type is assigned a new slice
    with one converted element per patch element, whatever the field
    held before; the loop goes on with the next entry. *)
Theorem sequence_of_scalars_replaced
    (h : heap) (a : nat) (tn : string) (ds : list (finfo * type))
    (vs : list value) (target : value) (key : string) (f : Field) (et : type)
    (xs : list value) (rest : list (string * value)) (changed : bool) :
  h !! a = Some (VStruct (TStruct tn ds) vs) ->
  findField h (SAddr a) key = Some f ->
  ftype f = TSlice et ->
  TypeOf (Value f) = Some (TSlice et) ->
  Forall (fun x => not_mapping x = true /\ CanConvert x (Some et) = Some true) xs ->
  let new := List.map (fun x => Convert x et) xs in
  let h' := <[a := VStruct (TStruct tn ds)
                      (<[findex f := VSlice et (Some new)]> vs)]> h in
  range_patch (fun key val => PkgPatch.ApplyEntry val target (SAddr a) key)
    ((key, VSlice TIface (Some xs)) :: rest) changed None h
  = range_patch (fun key val => PkgPatch.ApplyEntry val target (SAddr a) key)
      rest
      (if DeepEqual h (VSlice TIface (Some xs)) (Value f) then changed else true)
      None h'
  /\ length new = length xs
  /\ exists f', findField h' (SAddr a) key = Some f'
       /\ Value f' = VSlice et (Some new).
Proof.
  intros Hc Hf Hft Hty Hxs new h'.
  destruct (findField_cell _ _ _ _ _ _ _ Hc Hf) as (Hv & Hd & He).
  split; [|split].
  - simpl. rewrite Hf. unfold FieldKind. rewrite Hft. simpl. rewrite Hty.
    pose proof (range_elems_scalars (Apply_with PkgPatch.ApplyEntry) key et xs
                  [] (MakeSlice et (length xs)) None h Hxs) as Hr.
    simpl in Hr. rewrite Hr by apply length_replicate.
    rewrite (FieldSet_cell _ _ _ _ _ _ Hc He).
    + fold new. fold h'. now destruct (DeepEqual h _ (Value f)).
    + unfold FieldKind. now rewrite Hft.
    + rewrite Hft. now apply assignable_own_type.
  - apply length_map.
  - unfold h'.
    rewrite (findField_after_set _ _ _ _ _ _ _ _ _ Hc Hf), Nat.eqb_refl.
    eexists; split; reflexivity.
Qed.

Lemma sequence_of_scalars_replaced_witness :
  let new := [Fixtures.str "Darth Vader"; Fixtures.str "Luke Skywalker"] in
  let h' := [VStruct Fixtures.Cast [VSlice Fixtures.string_t (Some new)]] in
  range_patch
    (fun key val =>
       PkgPatch.ApplyEntry val (Fixtures.ref Fixtures.Cast) (SAddr 0) key)
    [("characters",
      VSlice TIface
        (Some [Fixtures.str "Darth Vader"; Fixtures.str "Luke Skywalker"]))]
    false None Fixtures.cast
  = Return true None h'
  /\ length new = 2%nat
  /\ exists f', findField h' (SAddr 0) "characters" = Some f'
       /\ Value f' = VSlice Fixtures.string_t (Some new).
Proof.
  apply (sequence_of_scalars_replaced Fixtures.cast 0 "Target"
           [(Fixtures.field "Characters" "characters", TSlice Fixtures.string_t)]
           [VSlice Fixtures.string_t (Some [Fixtures.str "Anakin Skywalker"])]
           (Fixtures.ref Fixtures.Cast) "characters"
           (MkField (Fixtures.field "Characters" "characters")
              (TSlice Fixtures.string_t) 0
              (VSlice Fixtures.string_t (Some [Fixtures.str "Anakin Skywalker"])))
           Fixtures.string_t
           [Fixtures.str "Darth Vader"; Fixtures.str "Luke Skywalker"] [] false);
    try reflexivity.
  repeat constructor.
Defined.

(** ** The change flag *)

(** Once [changed] is set it stays set. *)
Lemma ApplyEntry_changed_stays val target dst key err h :
  match PkgPatch.ApplyEntry val target dst key true err h with
  | Continue c _ _ | Done (Return c _ _) => c = true
  | Done Panic => True
  end.
Proof.
  destruct val; simpl; repeat destruct_innermost; trivial.
Qed.

Lemma ApplyEntry_eq val target dst key changed err h :
  PkgPatch.ApplyEntry val target dst key changed err h =
  match findField h dst key with
  | None => Continue changed err h
  | Some dstField =>
      match val with
      | VMap m =>
          if kind_eqb (FieldKind dstField) KPointer && IsZero h dstField then
            PkgPatch.assign_new m target dst dstField changed h
          else if kind_eqb (FieldKind dstField) KStruct
                  || (kind_eqb (FieldKind dstField) KPointer
                      && kind_eqb (IndirectKind h (Value dstField)) KStruct) then
            match PkgPatch.Apply h (Value dstField) m with
            | Panic => Done Panic
            | Return _ (Some iErr) h2 => Done (Return changed (Some iErr) h2)
            | Return iChanged None h2 => Continue (changed || iChanged) err h2
            end
          else PkgPatch.assign val dst key dstField changed err h
      | VNilMap =>
          if kind_eqb (FieldKind dstField) KPointer && IsZero h dstField then
            PkgPatch.assign_new [] target dst dstField changed h
          else if kind_eqb (FieldKind dstField) KStruct
                  || (kind_eqb (FieldKind dstField) KPointer
                      && kind_eqb (IndirectKind h (Value dstField)) KStruct) then
            match PkgPatch.Apply h (Value dstField) [] with
            | Panic => Done Panic
            | Return _ (Some iErr) h2 => Done (Return changed (Some iErr) h2)
            | Return iChanged None h2 => Continue (changed || iChanged) err h2
            end
          else PkgPatch.assign val dst key dstField changed err h
      | _ =>
          PkgPatch.assign val dst key dstField changed
            (if kind_eqb (FieldKind dstField) KStruct
             then Some (key ++ " is not a struct") else err) h
      end
  end.
Proof. destruct val; reflexivity. Qed.

(** The same, with the type assertion on the patch value in one
    place. *)
Lemma ApplyEntry_mapping val target dst key changed err h :
  PkgPatch.ApplyEntry val target dst key changed err h =
  match findField h dst key with
  | None => Continue changed err h
  | Some dstField =>
      match as_mapping val with
      | Some m =>
          if kind_eqb (FieldKind dstField) KPointer && IsZero h dstField then
            PkgPatch.assign_new m target dst dstField changed h
          else if kind_eqb (FieldKind dstField) KStruct
                  || (kind_eqb (FieldKind dstField) KPointer
                      && kind_eqb (IndirectKind h (Value dstField)) KStruct) then
            match PkgPatch.Apply h (Value dstField) m with
            | Panic => Done Panic
            | Return _ (Some iErr) h2 => Done (Return changed (Some iErr) h2)
            | Return iChanged None h2 => Continue (changed || iChanged) err h2
            end
          else PkgPatch.assign val dst key dstField changed err h
      | None =>
          PkgPatch.assign val dst key dstField changed
            (if kind_eqb (FieldKind dstField) KStruct
             then Some (key ++ " is not a struct") else err) h
      end
  end.
Proof. destruct val; reflexivity. Qed.

(** One turn of the element loop. *)
Lemma range_elems_cons apply (name : string) (slot : type) (x : value)
    (xs : list value) (i : nat) (det : type) (arr : list value)
    (err : option string) (h : heap) :
  PkgPatch.range_elems apply name slot (x :: xs) i det arr err h =
  match as_mapping x with
  | Some m =>
      match apply (VPtr (elem_if_pointer det) (Some (length h))) m
              (h ++ [zero (elem_if_pointer det)])%list with
      | Panic => EPanic
      | Return _ (Some e) h2 => EErr e h2
      | Return _ None h2 =>
          if assignable slot (VPtr (elem_if_pointer det) (Some (length h)))
          then PkgPatch.range_elems apply name slot xs (S i) (elem_if_pointer det)
                 (<[i := VPtr (elem_if_pointer det) (Some (length h))]> arr)
                 None h2
          else EPanic
      end
  | None =>
      match CanConvert x (Some det) with
      | None => EPanic
      | Some false => EErr ("can't convert " ++ name ++ " to dst type") h
      | Some true =>
          if assignable slot (Convert x det)
          then PkgPatch.range_elems apply name slot xs (S i) det
                 (<[i := Convert x det]> arr) err h
          else EPanic
      end
  end.
Proof. destruct x; reflexivity. Qed.

Lemma not_mapping_as_mapping (v : value) :
  not_mapping v = true <-> as_mapping v = None.
Proof. destruct v; simpl; split; congruence. Qed.

Lemma range_patch_changed_stays target dst (patch : list (string * value)) err h :
  match range_patch (fun key val => PkgPatch.ApplyEntry val target dst key)
          patch true err h with
  | Return c _ _ => c = true
  | Panic => True
  end.
Proof.
  revert err h; induction patch as [|[k v] patch IH]; intros err h; simpl;
    [reflexivity|].
  pose proof (ApplyEntry_changed_stays v target dst k err h) as Hs.
  destruct (PkgPatch.ApplyEntry v target dst k true err h) as [[]|c e h'].
  - trivial.
  - exact Hs.
  - subst c. apply IH.
Qed.

(** ** Records of basic fields *)


Lemma flat_record_lookup (ds : list (finfo * type)) (vs : list value) (i : nat)
    (d : finfo) (t : type) (v : value) :
  flat_record ds vs = true ->
  ds !! i = Some (d, t) -> vs !! i = Some v -> holds_basic t v = true.
Proof.
  revert vs i; induction ds as [|[d' t'] ds IH]; intros [|v' vs] i; simpl;
    try discriminate.
  rewrite andb_true_iff. intros [Hb Hr].
  destruct i as [|i]; simpl.
  - now intros [= _ <-] [= <-].
  - now apply IH.
Qed.

Lemma holds_basic_TypeOf (t : type) (v : value) :
  holds_basic t v = true -> TypeOf v = Some t.
Proof.
  destruct v; simpl; try discriminate; rewrite ?andb_true_iff;
    intros H; f_equal; apply type_eqb_eq; tauto.
Qed.

Lemma holds_basic_kind (t : type) (v : value) :
  holds_basic t v = true ->
  exists b, Kind t = basic_kind b.
Proof.
  intros H. pose proof (holds_basic_TypeOf _ _ H) as Ht.
  destruct v; simpl in H; try discriminate; injection Ht as ->;
    rewrite ?andb_true_iff in H;
    destruct t as [k|n k| | | | |]; simpl in *;
      try (exists k; reflexivity); try (destruct H as [? H']; discriminate H');
      try (destruct H as [[? H'] ?]; discriminate H').
Qed.








(** C1, the claim as stated, fails: the salary 123 patched with the
    JSON number 123 keeps its value, the heap after the call is the heap
    before it, and [changed] is [true]. *)
Lemma C1_counterexample :
  PkgPatch.Apply Fixtures.anakin (Fixtures.ref Fixtures.Employee)
    [("salary", Fixtures.num 123)]
  = Return true None Fixtures.anakin.
Proof. vm_compute; reflexivity. Qed.

(** ** Cells a call does not reach *)

Lemma avoids_zero (p : nat) (t : type) : avoids p (zero t) = true.
Proof.
  induction t as [[]|n []|n fs IH|t IH|t IH| |] using type_nested_ind;
    try reflexivity.
  simpl. induction IH as [|[d t] fs Ht _ IHfs]; simpl; [reflexivity|].
  simpl in Ht. now rewrite Ht, IHfs.
Qed.

Lemma avoids_Convert (p : nat) (v : value) (t : type) :
  avoids p v = true -> avoids p (Convert v t) = true.
Proof.
  unfold Convert. destruct (Kind t); trivial;
    destruct v; trivial; destruct t; trivial.
Qed.

Lemma avoids_map_In (p : nat) (m : list (string * value)) (k : string) (v : value) :
  avoids p (VMap m) = true -> In (k, v) m -> avoids p v = true.
Proof.
  simpl. induction m as [|[k' x] m IH]; simpl; [tauto|].
  rewrite andb_true_iff. intros [Hx Hm] [[= -> ->]|Hin]; auto.
Qed.

Lemma avoids_insert (p i : nat) (vs : list value) (v : value) :
  forallb (avoids p) vs = true -> avoids p v = true ->
  forallb (avoids p) (<[i := v]> vs) = true.
Proof.
  revert i; induction vs as [|x vs IH]; intros i; simpl; [trivial|].
  rewrite andb_true_iff. intros [Hx Hvs] Hv.
  destruct i; simpl; rewrite andb_true_iff; auto.
Qed.

Lemma avoids_lookup (p i : nat) (vs : list value) (v : value) :
  forallb (avoids p) vs = true -> vs !! i = Some v -> avoids p v = true.
Proof.
  revert i; induction vs as [|x vs IH]; intros i; simpl; [discriminate|].
  rewrite andb_true_iff. intros [Hx Hvs].
  destruct i; simpl; [now intros [= <-] | now apply IH].
Qed.

Lemma heap_avoids_lookup (p a : nat) (h : heap) (v : value) :
  Forall (fun v => avoids p v = true) h -> h !! a = Some v -> avoids p v = true.
Proof.
  intros Hh Ha. rewrite Forall_forall in Hh. apply Hh.
  eapply list_elem_of_lookup_2; eassumption.
Qed.

Lemma keeps_refl (p : nat) (h : heap) :
  Forall (fun v => avoids p v = true) h -> keeps p h h.
Proof. intros H. split; [|split]; auto. Qed.

Lemma keeps_trans (p : nat) (h1 h2 h3 : heap) :
  keeps p h1 h2 -> keeps p h2 h3 -> keeps p h1 h3.
Proof.
  intros (E1 & _ & L1) (E2 & A2 & L2).
  unfold keeps. split; [congruence | split; [assumption | lia]].
Qed.

Lemma keeps_alloc (p : nat) (h : heap) (t : type) :
  (p < length h)%nat -> Forall (fun v => avoids p v = true) h ->
  keeps p h (h ++ [zero t])%list.
Proof.
  intros Hp Hh. split; [|split].
  - now rewrite lookup_app_l.
  - apply Forall_app. split; [assumption|].
    constructor; [apply avoids_zero | constructor].
  - rewrite length_app. simpl. lia.
Qed.

(** [structs.New] on a target that holds no pointer to [p] does not
    arrive at cell [p], and the record it arrives at holds none. *)
Lemma strctVal_avoids (p : nat) (h : heap) (n : nat) (loc dst : Struct) (v : value) :
  Forall (fun v => avoids p v = true) h ->
  avoids p v = true ->
  loc <> SAddr p ->
  (forall sv, struct_value h loc = Some sv -> avoids p sv = true) ->
  strctVal h n loc v = Some dst ->
  dst <> SAddr p
  /\ forall sv, struct_value h dst = Some sv -> avoids p sv = true.
Proof.
  intros Hh. revert loc v; induction n as [|n IH]; intros loc v Hv Hloc Hsv;
    destruct v as [| | | | |t [a|]| | | |]; simpl; try discriminate;
    try (destruct (kind_eqb (Kind t) KInterface); [discriminate|]);
    try discriminate.
  - intros [= <-]. auto.
  - destruct (h !! a) as [v'|] eqn:Ha; [|discriminate].
    apply IH.
    + eapply heap_avoids_lookup; eassumption.
    + simpl in Hv. intros [= ->]. now rewrite Nat.eqb_refl in Hv.
    + simpl. intros sv Hs. eapply heap_avoids_lookup; eassumption.
  - intros [= <-]. auto.
Qed.

Lemma New_avoids (p : nat) (h : heap) (target : value) (dst : Struct) :
  Forall (fun v => avoids p v = true) h ->
  avoids p target = true ->
  New h target = Some dst ->
  dst <> SAddr p
  /\ forall sv, struct_value h dst = Some sv -> avoids p sv = true.
Proof.
  intros Hh Ht.
  apply (strctVal_avoids p h _ (SCopy target) dst target Hh Ht);
    [discriminate | simpl; now intros sv [= <-]].
Qed.

Lemma findField_avoids (p : nat) (h : heap) (dst : Struct) (key : string) (f : Field) :
  (forall sv, struct_value h dst = Some sv -> avoids p sv = true) ->
  findField h dst key = Some f ->
  avoids p (Value f) = true.
Proof.
  intros Hsv Hf. unfold findField, Fields in Hf.
  destruct (struct_value h dst) as [[| | | | | |[]| | |]|] eqn:Hs;
    try discriminate Hf.
  destruct (findField_in_In _ _ _ Hf) as [Hin _].
  destruct (getFields_In _ _ _ _ Hin) as (j & _ & Hv & _).
  specialize (Hsv _ eq_refl). simpl in Hsv.
  eapply avoids_lookup; eassumption.
Qed.

Lemma FieldSet_keeps (p : nat) (h h' : heap) (dst : Struct) (f : Field) (val : value) :
  Forall (fun v => avoids p v = true) h ->
  dst <> SAddr p ->
  avoids p val = true ->
  FieldSet h dst f val = SetOk h' ->
  keeps p h h'.
Proof.
  intros Hh Hd Hv. unfold FieldSet.
  destruct (negb (IsExported f)); [discriminate|].
  destruct dst as [a|]; [|discriminate].
  destruct (negb _); [discriminate|].
  destruct (assignable _ _); [|discriminate].
  destruct (h !! a) as [[| | | | | |t vs| | |]|] eqn:Ha; try discriminate.
  intros [= <-]. split; [|split].
  - apply list_lookup_insert_ne. congruence.
  - apply Forall_insert; [assumption|]. simpl.
    apply avoids_insert; [|assumption].
    apply (heap_avoids_lookup _ _ _ _ Hh Ha).
  - now rewrite length_insert.
Qed.

Lemma vsize_VMap (m : list (string * value)) : vsize (VMap m) = S (msize m).
Proof.
  simpl. f_equal. unfold msize.
  induction m as [|[k v] m IH]; simpl; [reflexivity | now rewrite IH].
Qed.

Lemma msize_In (m : list (string * value)) (k : string) (v : value) :
  In (k, v) m -> (vsize v <= msize m)%nat.
Proof.
  unfold msize. induction m as [|[k' x] m IH]; simpl; [tauto|].
  intros [[= -> ->]|Hin]; [lia | specialize (IH Hin); lia].
Qed.

Lemma list_sum_In (xs : list value) (x : value) :
  In x xs -> (vsize x <= list_sum (List.map vsize xs))%nat.
Proof.
  induction xs as [|y xs IH]; simpl; [tauto|].
  intros [->|Hin]; [lia | specialize (IH Hin); lia].
Qed.

Lemma as_mapping_size (v : value) (m : list (string * value)) :
  as_mapping v = Some m -> (msize m < vsize v)%nat.
Proof.
  destruct v; try discriminate; intros [= <-].
  - rewrite vsize_VMap. lia.
  - simpl. unfold msize. simpl. lia.
Qed.

Lemma as_mapping_avoids (p : nat) (v : value) (m : list (string * value)) :
  as_mapping v = Some m -> avoids p v = true -> avoids p (VMap m) = true.
Proof. destruct v; try discriminate; now intros [= <-]. Qed.

Lemma avoids_replicate (p n : nat) (t : type) :
  forallb (avoids p) (MakeSlice t n) = true.
Proof.
  unfold MakeSlice. induction n as [|n IH]; simpl; [reflexivity|].
  now rewrite avoids_zero, IH.
Qed.

Lemma avoids_fresh (p : nat) (h : heap) (t : type) :
  (p < length h)%nat -> avoids p (VPtr t (Some (length h))) = true.
Proof.
  intros Hp. simpl. destruct (Nat.eqb_spec (length h) p); [lia | reflexivity].
Qed.

Lemma New_dst_avoids (p : nat) (h : heap) (target : value) (dst : Struct) :
  Forall (fun v => avoids p v = true) h ->
  avoids p target = true ->
  New h target = Some dst ->
  dst_avoids p dst.
Proof.
  intros Hh Ht Hn. destruct (New_avoids _ _ _ _ Hh Ht Hn) as [Hd Hsv].
  destruct dst as [b|v]; simpl.
  - congruence.
  - now apply Hsv.
Qed.

(** The element loop, given that the recursive calls it makes keep
    cell [p]. *)
Lemma range_elems_keeps (p : nat) apply (name : string) (slot : type)
    (xs : list value) :
  (forall x m tgt h, In x xs -> as_mapping x = Some m ->
     (p < length h)%nat -> Forall (fun v => avoids p v = true) h ->
     avoids p tgt = true -> outcome_keeps p h (apply tgt m h)) ->
  forallb (avoids p) xs = true ->
  forall i det arr err h,
    (p < length h)%nat -> Forall (fun v => avoids p v = true) h ->
    forallb (avoids p) arr = true ->
    match PkgPatch.range_elems apply name slot xs i det arr err h with
    | EPanic => True
    | EErr _ h' => keeps p h h'
    | EOk arr' _ h' => keeps p h h' /\ forallb (avoids p) arr' = true
    end.
Proof.
  induction xs as [|x xs IH]; intros Happly Hxs i det arr err h Hp Hh Harr.
  - simpl. split; [now apply keeps_refl | assumption].
  - simpl in Hxs. apply andb_true_iff in Hxs. destruct Hxs as [Hx Hxs].
    assert (IH' := fun i det arr err h =>
      IH (fun x m tgt h H => Happly x m tgt h (or_intror H)) Hxs i det arr err h).
    rewrite range_elems_cons.
    destruct (as_mapping x) as [m|] eqn:Hm; cycle 1.
    { destruct (CanConvert x (Some det)) as [[]|]; trivial.
      - destruct (assignable slot _); trivial.
        apply IH'; trivial. apply avoids_insert; trivial.
        now apply avoids_Convert.
      - now apply keeps_refl. }
    pose proof (keeps_alloc p h (elem_if_pointer det) Hp Hh) as Ka.
    assert (Ho := Happly x m (VPtr (elem_if_pointer det) (Some (length h)))
                    (h ++ [zero (elem_if_pointer det)])%list
                    (or_introl eq_refl) Hm).
    destruct Ka as (Ea & Aa & La).
    specialize (Ho ltac:(lia) Aa (avoids_fresh p h _ Hp)).
    destruct (apply _ m _) as [|c [e|] h2]; trivial.
    + eapply keeps_trans; [split; [|split]; eassumption | exact Ho].
    + destruct (assignable slot _); trivial.
      destruct Ho as (E2 & A2 & L2).
      assert (K2 : keeps p h h2).
      { split; [congruence | split; [assumption | lia]]. }
      specialize (IH' (S i) (elem_if_pointer det)
                    (<[i := VPtr (elem_if_pointer det) (Some (length h))]> arr)
                    None h2 ltac:(lia) A2).
      specialize (IH' ltac:(apply avoids_insert;
                            [assumption | now apply avoids_fresh])).
      destruct (PkgPatch.range_elems _ _ _ xs _ _ _ _ h2) as [|e' h3|arr' e' h3];
        simpl in *; trivial.
      * eapply keeps_trans; eassumption.
      * destruct IH' as [K3 A3]. split; [|assumption].
        eapply keeps_trans; eassumption.
Qed.

Lemma unreachable_keeps (p : nat) (h h' : heap) :
  unreachable p h -> keeps p h h' -> unreachable p h'.
Proof.
  intros [Hp Hh] (_ & A & L). split; [lia | assumption].
Qed.

Lemma dst_closed_struct (p : nat) (h : heap) (dst : Struct) :
  Forall (fun v => avoids p v = true) h -> dst_closed p dst ->
  forall sv, struct_value h dst = Some sv -> avoids p sv = true.
Proof.
  intros Hh Hd sv. destruct dst as [b|v]; simpl in *.
  - intros Hs. eapply heap_avoids_lookup; eassumption.
  - now intros [= <-].
Qed.

Lemma assign_writes (p : nat) (val : value) (dst : Struct) (name : string)
    (f : Field) (changed : bool) (err : option string) (h : heap) :
  (forall m tgt h, (msize m < vsize val)%nat -> unreachable p h ->
     avoids p tgt = true -> avoids p (VMap m) = true ->
     outcome_keeps p h (PkgPatch.Apply h tgt m)) ->
  unreachable p h ->
  avoids p val = true ->
  findField h dst name = Some f ->
  step_writes p dst name h (PkgPatch.assign val dst name f changed err h).
Proof.
  intros IH [Hp Hh] Hval Hf.
  unfold PkgPatch.assign.
  destruct (kind_eqb (FieldKind f) KSlice).
  - destruct (TypeOf (Value f)) as [[| | | |et| |]|]; simpl; trivial.
    destruct (Len val); simpl; trivial.
    destruct val as [| | | | | | |[| | | | | |] arr| |]; simpl;
      try (now apply keeps_refl).
    assert (Hr : match
        match arr with
        | Some xs =>
            PkgPatch.range_elems (Apply_with PkgPatch.ApplyEntry) name et xs 0
              et (MakeSlice et n) err h
        | None => EOk (MakeSlice et n) err h
        end
      with
      | EPanic => True
      | EErr _ h' => keeps p h h'
      | EOk arr' _ h' => keeps p h h' /\ forallb (avoids p) arr' = true
      end).
    { destruct arr as [xs|].
      - apply range_elems_keeps; trivial; [|apply avoids_replicate].
        intros x m tgt h0 Hin Hm Hp0 Hh0 Ht.
        apply (IH m tgt h0); [| split; assumption | assumption |].
        + pose proof (list_sum_In _ _ Hin) as Hs.
          pose proof (as_mapping_size _ _ Hm). simpl. lia.
        + simpl in Hval. rewrite forallb_forall in Hval.
          apply (as_mapping_avoids _ _ _ Hm). now apply Hval.
      - split; [now apply keeps_refl | apply avoids_replicate]. }
    destruct (match arr with Some _ => _ | None => _ end) as [|e h'|arr' [e|] h'];
      simpl; trivial; try apply Hr.
    destruct Hr as [K A].
    destruct (FieldSet h' dst f _) eqn:Hs; simpl; trivial.
    right. exists f, h', (VSlice et (Some arr')). auto.
  - destruct (CanConvert val (TypeOf (Value f))) as [[]|]; simpl; trivial;
      [|now apply keeps_refl].
    destruct (TypeOf (Value f)) as [t|]; simpl; trivial.
    destruct (FieldSet h dst f _) eqn:Hs; simpl; trivial;
      [now apply keeps_refl|].
    right. exists f, h, (Convert val t).
    split; [assumption | split; [now apply keeps_refl | split; [|assumption]]].
    now apply avoids_Convert.
Qed.

Lemma ApplyEntry_writes (p : nat) (val target : value) (dst : Struct)
    (key : string) (changed : bool) (err : option string) (h : heap) :
  (forall m tgt h, (msize m < vsize val)%nat -> unreachable p h ->
     avoids p tgt = true -> avoids p (VMap m) = true ->
     outcome_keeps p h (PkgPatch.Apply h tgt m)) ->
  unreachable p h ->
  avoids p val = true ->
  dst_closed p dst ->
  step_writes p dst key h (PkgPatch.ApplyEntry val target dst key changed err h).
Proof.
  intros IH Hu Hval Hdst. pose proof Hu as [Hp Hh].
  pose proof (dst_closed_struct _ _ _ Hh Hdst) as Hsv.
  rewrite ApplyEntry_mapping.
  destruct (findField h dst key) as [f|] eqn:Hf;
    [|left; now apply keeps_refl].
  pose proof (findField_avoids _ _ _ _ _ Hsv Hf) as Hfv.
  destruct (as_mapping val) as [m|] eqn:Hm; [|now apply assign_writes].
  pose proof (as_mapping_size _ _ Hm) as Hsize.
  pose proof (as_mapping_avoids _ _ _ Hm Hval) as Hmv.
  destruct (kind_eqb (FieldKind f) KPointer && IsZero h f).
  - unfold PkgPatch.assign_new.
    destruct (target_type target) as [tt|]; simpl; trivial.
    destruct (FieldByName tt (Name f)) as [st|]; simpl; trivial.
    pose proof (keeps_alloc p h (elem_if_pointer st) Hp Hh) as Ka.
    pose proof (unreachable_keeps _ _ _ Hu Ka) as Hu1.
    pose proof (IH m (VPtr (elem_if_pointer st) (Some (length h))) _
                  ltac:(lia) Hu1 (avoids_fresh p h _ Hp) Hmv) as Ho.
    destruct (PkgPatch.Apply _ _ m) as [|c [e|] h2]; simpl in *; trivial.
    + eapply keeps_trans; eassumption.
    + destruct (FieldSet h2 dst f _) eqn:Hs; simpl; trivial.
      * eapply keeps_trans; eassumption.
      * right. exists f, h2, (VPtr (elem_if_pointer st) (Some (length h))).
        split; [exact Hf | split; [eapply keeps_trans; eassumption|]].
        split; [now apply avoids_fresh | assumption].
  - destruct (kind_eqb (FieldKind f) KStruct || _).
    + pose proof (IH m (Value f) h ltac:(lia) Hu Hfv Hmv) as Ho.
      destruct (PkgPatch.Apply h (Value f) m) as [|c [e|] h2]; simpl in *;
        trivial. now left.
    + now apply assign_writes.
Qed.

Lemma ApplyEntry_keeps (p : nat) (val target : value) (dst : Struct)
    (key : string) (changed : bool) (err : option string) (h : heap) :
  (forall m tgt h, (msize m < vsize val)%nat -> unreachable p h ->
     avoids p tgt = true -> avoids p (VMap m) = true ->
     outcome_keeps p h (PkgPatch.Apply h tgt m)) ->
  unreachable p h ->
  avoids p val = true ->
  dst_avoids p dst ->
  step_keeps p h (PkgPatch.ApplyEntry val target dst key changed err h).
Proof.
  intros IH Hu Hval Hdst.
  assert (Hc : dst_closed p dst) by (destruct dst; simpl in *; trivial).
  pose proof (ApplyEntry_writes p val target dst key changed err h IH Hu Hval Hc)
    as Hw.
  destruct (PkgPatch.ApplyEntry val target dst key changed err h)
    as [[|c e h']|c e h']; simpl in *; trivial.
  destruct Hw as [K|(f & h2 & v & _ & K & Hv & Hs)]; [exact K|].
  eapply keeps_trans; [exact K|].
  eapply FieldSet_keeps; [apply K | | exact Hv | exact Hs].
  destruct dst as [b|]; [simpl in Hdst; congruence | discriminate].
Qed.

Lemma range_patch_keeps (p : nat) (target : value) (dst : Struct)
    (m : list (string * value)) :
  (forall k v c e h, In (k, v) m -> unreachable p h ->
     step_keeps p h (PkgPatch.ApplyEntry v target dst k c e h)) ->
  forall c e h, unreachable p h ->
    outcome_keeps p h
      (range_patch (fun key val => PkgPatch.ApplyEntry val target dst key) m c e h).
Proof.
  induction m as [|[k v] m IH]; intros Hentry c e h Hu; simpl.
  - apply keeps_refl, Hu.
  - pose proof (Hentry k v c e h (or_introl eq_refl) Hu) as Hs.
    destruct (PkgPatch.ApplyEntry v target dst k c e h) as [[|c' e' h']|c' e' h'];
      simpl in *; trivial.
    pose proof (IH (fun k v c e h H => Hentry k v c e h (or_intror H)) c' e' h'
                  (unreachable_keeps _ _ _ Hu Hs)) as Hr.
    destruct (range_patch _ m c' e' h'); simpl in *; trivial.
    eapply keeps_trans; eassumption.
Qed.

(** A call whose target and patch hold no pointer to cell [p], in a
    heap that holds none, leaves cell [p] as it is. *)
Lemma Apply_keeps (p : nat) (m : list (string * value)) (target : value) (h : heap) :
  unreachable p h ->
  avoids p target = true ->
  avoids p (VMap m) = true ->
  outcome_keeps p h (PkgPatch.Apply h target m).
Proof.
  remember (msize m) as n eqn:Hn. revert m Hn target h.
  induction n as [n IH] using lt_wf_ind. intros m -> target h Hu Ht Hm.
  unfold PkgPatch.Apply, Apply_with.
  destruct (New h target) as [dst|] eqn:Hnew; simpl; trivial.
  apply range_patch_keeps; trivial.
  intros k v c e h0 Hin Hu0.
  apply ApplyEntry_keeps; trivial.
  - intros m' tgt h1 Hlt Hu1 Htgt Hm'.
    apply (IH (msize m')); trivial.
    pose proof (msize_In _ _ _ Hin). lia.
  - eapply avoids_map_In; eassumption.
  - eapply New_dst_avoids; [apply Hu | exact Ht | exact Hnew].
Qed.

(** ** Which fields of the target record a call assigns *)

Lemma resolve_index_findField (i : nat) (ds : list (finfo * type))
    (vs : list value) (key : string) (f : Field) :
  findField_in (getFields i ds vs) key = Some f ->
  resolve_index i ds key = Some (findex f).
Proof.
  revert i vs; induction ds as [|[d t] ds IH]; intros i [|v vs]; simpl;
    try discriminate.
  unfold Tag, Name, IsExported. simpl.
  destruct (String.eqb _ key && fexported d).
  - now intros [= <-].
  - apply IH.
Qed.

Lemma FieldSet_inv (h h' : heap) (a : nat) (t : type) (vs : list value)
    (f : Field) (v : value) :
  FieldSet h (SAddr a) f v = SetOk h' ->
  h !! a = Some (VStruct t vs) ->
  h' = <[a := VStruct t (<[findex f := v]> vs)]> h.
Proof.
  unfold FieldSet. intros Hs Ha. rewrite Ha in Hs.
  destruct (negb (IsExported f)); [discriminate|].
  destruct (negb _); [discriminate|].
  destruct (assignable _ _); [|discriminate].
  now injection Hs as <-.
Qed.

(** The loop over a patch whose target is the record of cell [p],
    which nothing else points to: a field that no key of the patch
    resolves to holds after the loop what it held before. *)
Lemma range_patch_fields (p : nat) (n : string) (ds : list (finfo * type))
    (target : value) (m : list (string * value)) :
  avoids p (VMap m) = true ->
  forall c e h vs,
    unreachable p h ->
    h !! p = Some (VStruct (TStruct n ds) vs) ->
    match range_patch (fun key val => PkgPatch.ApplyEntry val target (SAddr p) key)
            m c e h with
    | Panic => True
    | Return _ _ h' =>
        exists vs', h' !! p = Some (VStruct (TStruct n ds) vs')
          /\ forall j, (forall k v, In (k, v) m -> resolve_index 0 ds k <> Some j) ->
               vs' !! j = vs !! j
    end.
Proof.
  induction m as [|[k v] m IH]; intros Hm c e h vs Hu Hc; simpl.
  - exists vs. auto.
  - assert (Hv : avoids p v = true)
      by (eapply avoids_map_In; [exact Hm | now left]).
    assert (Hm' : avoids p (VMap m) = true).
    { simpl in Hm |- *. apply andb_true_iff in Hm. exact (proj2 Hm). }
    pose proof (ApplyEntry_writes p v target (SAddr p) k c e h
                  (fun m tgt h _ Hu Ht Hm => Apply_keeps p m tgt h Hu Ht Hm)
                  Hu Hv I) as Hw.
    destruct (PkgPatch.ApplyEntry v target (SAddr p) k c e h)
      as [[|c' e' h']|c' e' h']; simpl in Hw; trivial.
    + exists vs. split; [|auto]. destruct Hw as (-> & _). exact Hc.
    + destruct Hw as [K|(f & h2 & x & Hf & K & Hx & Hs)].
      * pose proof (IH Hm' c' e' h' vs (unreachable_keeps _ _ _ Hu K)) as Hr.
        destruct K as (Ep & _). rewrite Ep in Hr. specialize (Hr Hc).
        destruct (range_patch _ m c' e' h'); trivial.
        destruct Hr as (vs' & Hc' & Hj). exists vs'. split; [exact Hc'|].
        intros j Hun. apply Hj. intros k' v' Hin. apply (Hun k' v'). now right.
      * pose proof (unreachable_keeps _ _ _ Hu K) as [Hp2 Hh2].
        assert (Hc2 : h2 !! p = Some (VStruct (TStruct n ds) vs)).
        { destruct K as (-> & _). exact Hc. }
        pose proof (FieldSet_inv _ _ _ _ _ _ _ Hs Hc2) as ->.
        assert (Hu' : unreachable p
                  (<[p := VStruct (TStruct n ds) (<[findex f := x]> vs)]> h2)).
        { split; [now rewrite length_insert|].
          apply Forall_insert; [assumption|]. simpl.
          apply avoids_insert; [|assumption].
          apply (heap_avoids_lookup _ _ _ _ Hh2 Hc2). }
        pose proof (IH Hm' c' e' _ (<[findex f := x]> vs) Hu') as Hr.
        rewrite list_lookup_insert_eq in Hr by assumption.
        specialize (Hr eq_refl).
        destruct (range_patch _ m c' e' _); trivial.
        destruct Hr as (vs' & Hc' & Hj). exists vs'. split; [exact Hc'|].
        intros j Hun.
        rewrite Hj by (intros k' v' Hin; apply (Hun k' v'); now right).
        apply list_lookup_insert_ne.
        unfold findField, Fields in Hf. simpl in Hf. rewrite Hc in Hf.
        apply resolve_index_findField in Hf.
        intros <-. now apply (Hun k v (or_introl eq_refl)).
Qed.

(** ** What every call preserves *)

(** A relation between heaps that allocation and [Field.Set] respect is
    respected by [Apply]. *)
Section heap_order.
Variable R : heap -> heap -> Prop.
Hypothesis R_refl : forall h, R h h.
Hypothesis R_trans : forall h1 h2 h3, R h1 h2 -> R h2 h3 -> R h1 h3.
Hypothesis R_alloc : forall h t, R h (h ++ [zero t])%list.
Hypothesis R_set :
  forall h dst f v h', FieldSet h dst f v = SetOk h' -> R h h'.

Let outcome_R := outcome_rel R.
Let step_R := step_rel R.

Lemma range_elems_R apply (name : string) (slot : type) (xs : list value) :
  (forall x m tgt h, In x xs -> as_mapping x = Some m ->
     outcome_R h (apply tgt m h)) ->
  forall i det arr err h,
    match PkgPatch.range_elems apply name slot xs i det arr err h with
    | EPanic => True
    | EErr _ h' | EOk _ _ h' => R h h'
    end.
Proof.
  induction xs as [|x xs IH]; intros Happly i det arr err h; [simpl; auto|].
  assert (IH' := IH (fun x m tgt h H => Happly x m tgt h (or_intror H))).
  rewrite range_elems_cons.
  destruct (as_mapping x) as [m|] eqn:Hm; cycle 1.
  { destruct (CanConvert x (Some det)) as [[]|]; auto.
    destruct (assignable slot _); auto. apply IH'. }
  pose proof (Happly x m (VPtr (elem_if_pointer det) (Some (length h)))
                (h ++ [zero (elem_if_pointer det)])%list (or_introl eq_refl) Hm)
    as Ho.
  destruct (apply _ m _) as [|c [e|] h2]; simpl in Ho; trivial.
  - eapply R_trans; [apply R_alloc | exact Ho].
  - destruct (assignable slot _); trivial.
    specialize (IH' (S i) (elem_if_pointer det)
                  (<[i := VPtr (elem_if_pointer det) (Some (length h))]> arr)
                  None h2).
    destruct (PkgPatch.range_elems _ _ _ xs _ _ _ _ h2); trivial;
      (eapply R_trans; [eapply R_trans; [apply R_alloc | exact Ho] | exact IH']).
Qed.

Lemma assign_R (val : value) (dst : Struct) (name : string) (f : Field)
    (changed : bool) (err : option string) (h : heap) :
  (forall m tgt h, (msize m < vsize val)%nat ->
     outcome_R h (PkgPatch.Apply h tgt m)) ->
  step_R h (PkgPatch.assign val dst name f changed err h).
Proof.
  intros IH. unfold PkgPatch.assign.
  destruct (kind_eqb (FieldKind f) KSlice).
  - destruct (TypeOf (Value f)) as [[| | | |et| |]|]; simpl; trivial.
    destruct (Len val); simpl; trivial.
    destruct val as [| | | | | | |[| | | | | |] arr| |]; simpl; auto.
    assert (Hr : match
        match arr with
        | Some xs =>
            PkgPatch.range_elems (Apply_with PkgPatch.ApplyEntry) name et xs 0
              et (MakeSlice et n) err h
        | None => EOk (MakeSlice et n) err h
        end
      with
      | EPanic => True
      | EErr _ h' | EOk _ _ h' => R h h'
      end).
    { destruct arr as [xs|]; [|auto].
      apply range_elems_R. intros x m tgt h0 Hin Hm. apply (IH m tgt h0).
      pose proof (list_sum_In _ _ Hin) as Hs.
      pose proof (as_mapping_size _ _ Hm). simpl. lia. }
    destruct (match arr with Some _ => _ | None => _ end)
      as [|e h'|arr' [e|] h']; simpl; trivial.
    destruct (FieldSet h' dst f _) eqn:Hs; simpl; trivial.
    eapply R_trans; [exact Hr | eapply R_set; exact Hs].
  - destruct (CanConvert val (TypeOf (Value f))) as [[]|]; simpl; auto.
    destruct (TypeOf (Value f)) as [t|]; simpl; trivial.
    destruct (FieldSet h dst f _) eqn:Hs; simpl; auto.
    eapply R_set; exact Hs.
Qed.

Lemma ApplyEntry_R (val target : value) (dst : Struct) (key : string)
    (changed : bool) (err : option string) (h : heap) :
  (forall m tgt h, (msize m < vsize val)%nat ->
     outcome_R h (PkgPatch.Apply h tgt m)) ->
  step_R h (PkgPatch.ApplyEntry val target dst key changed err h).
Proof.
  intros IH. rewrite ApplyEntry_mapping.
  destruct (findField h dst key) as [f|]; [|apply R_refl].
  destruct (as_mapping val) as [m|] eqn:Hm; [|now apply assign_R].
  pose proof (as_mapping_size _ _ Hm) as Hsize.
  destruct (kind_eqb (FieldKind f) KPointer && IsZero h f).
  - unfold PkgPatch.assign_new.
    destruct (target_type target) as [tt|]; simpl; trivial.
    destruct (FieldByName tt (Name f)) as [st|]; simpl; trivial.
    pose proof (IH m (VPtr (elem_if_pointer st) (Some (length h)))
                  (h ++ [zero (elem_if_pointer st)])%list ltac:(lia)) as Ho.
    destruct (PkgPatch.Apply _ _ m) as [|c [e|] h2]; simpl in Ho |- *; trivial.
    + eapply R_trans; [apply R_alloc | exact Ho].
    + destruct (FieldSet h2 dst f _) eqn:Hs; simpl; trivial.
      * eapply R_trans; [apply R_alloc | exact Ho].
      * eapply R_trans; [eapply R_trans; [apply R_alloc | exact Ho]|].
        eapply R_set; exact Hs.
  - destruct (kind_eqb (FieldKind f) KStruct || _).
    + pose proof (IH m (Value f) h ltac:(lia)) as Ho.
      destruct (PkgPatch.Apply h (Value f) m) as [|c [e|] h2];
        simpl in Ho |- *; trivial.
    + now apply assign_R.
Qed.

Lemma range_patch_R (target : value) (dst : Struct) (m : list (string * value)) :
  (forall k v c e h, In (k, v) m ->
     step_R h (PkgPatch.ApplyEntry v target dst k c e h)) ->
  forall c e h,
    outcome_R h
      (range_patch (fun key val => PkgPatch.ApplyEntry val target dst key) m c e h).
Proof.
  induction m as [|[k v] m IH]; intros Hentry c e h; simpl; [apply R_refl|].
  pose proof (Hentry k v c e h (or_introl eq_refl)) as Hs.
  destruct (PkgPatch.ApplyEntry v target dst k c e h) as [[|c' e' h']|c' e' h'];
    simpl in *; trivial.
  pose proof (IH (fun k v c e h H => Hentry k v c e h (or_intror H)) c' e' h')
    as Hr.
  destruct (range_patch _ m c' e' h'); simpl in *; trivial.
  eapply R_trans; eassumption.
Qed.

Lemma Apply_R (m : list (string * value)) (target : value) (h : heap) :
  outcome_R h (PkgPatch.Apply h target m).
Proof.
  remember (msize m) as n eqn:Hn. revert m Hn target h.
  induction n as [n IH] using lt_wf_ind. intros m -> target h.
  unfold PkgPatch.Apply, Apply_with.
  destruct (New h target) as [dst|]; simpl; trivial.
  apply range_patch_R. intros k v c e h0 Hin.
  apply ApplyEntry_R. intros m' tgt h1 Hlt.
  apply (IH (msize m')); trivial.
  pose proof (msize_In _ _ _ Hin). lia.
Qed.
End heap_order.


(** ** Nil pointers to records *)





(** ** Sparse update *)

(** C8.  A patch none of whose keys resolves to an exported field of
    the target record (the empty patch in particular) makes [Apply]
    return [changed = false] and no error, and the heap after the call
    is the heap before it.  More generally, for a target record that no
    cell and no patch value points to, a field that no key of the patch
    resolves to holds after the call the value it held before. *)
Theorem C8_sparse_update
    (h : heap) (target : value) (dst : Struct) (patch : list (string * value)) :
  New h target = Some dst ->
  (Forall (fun kv => findField h dst (fst kv) = None) patch ->
   PkgPatch.Apply h target patch = Return false None h)
  /\ (forall a n ds vs,
        dst = SAddr a ->
        h !! a = Some (VStruct (TStruct n ds) vs) ->
        Forall (fun v => avoids a v = true) h ->
        avoids a (VMap patch) = true ->
        match PkgPatch.Apply h target patch with
        | Panic => True
        | Return _ _ h' =>
            exists vs', h' !! a = Some (VStruct (TStruct n ds) vs')
              /\ forall j,
                   (forall k v, In (k, v) patch -> resolve_index 0 ds k <> Some j) ->
                   vs' !! j = vs !! j
        end).
Proof.
  intros Hnew. unfold PkgPatch.Apply, Apply_with. rewrite Hnew. split.
  - apply range_patch_not_found.
  - intros a n ds vs -> Hc Hh Hp.
    apply range_patch_fields; trivial.
    split; [eapply lookup_lt_Some; eassumption | assumption].
Qed.

(** [TestApplyIgnoresUnknownFields], and a patch of the salary alone,
    which leaves the name as it is. *)
Lemma C8_witness :
  PkgPatch.Apply Fixtures.anakin (Fixtures.ref Fixtures.Employee)
    [("middle_name", Fixtures.str "Sheev"); ("perk", Fixtures.str "pilot")]
  = Return false None Fixtures.anakin
  /\ match PkgPatch.Apply Fixtures.anakin (Fixtures.ref Fixtures.Employee)
             [("salary", Fixtures.num 100500)] with
     | Panic => True
     | Return _ _ h' =>
         exists vs', h' !! O = Some (VStruct Fixtures.Employee vs')
           /\ forall j,
                (forall k v, In (k, v) [("salary", Fixtures.num 100500)] ->
                   resolve_index 0
                     [(Fixtures.field "Name" "name", Fixtures.string_t);
                      (Fixtures.field "Salary" "salary", Fixtures.int_t)] k
                   <> Some j) ->
                vs' !! j
                = [Fixtures.str "Anakin Skywalker"; VInt Fixtures.int_t 123] !! j
     end.
Proof.
  split.
  - apply (C8_sparse_update Fixtures.anakin (Fixtures.ref Fixtures.Employee)
             (SAddr 0)); [reflexivity | repeat constructor].
  - apply (proj2 (C8_sparse_update Fixtures.anakin
                    (Fixtures.ref Fixtures.Employee) (SAddr 0)
                    [("salary", Fixtures.num 100500)] eq_refl) 0%nat "Target");
      try reflexivity.
    repeat constructor.
Defined.

(** ** The tests of [apply_test.go] *)

Example TestApplyIgnoresEmptyPatch :
  PkgPatch.Apply Fixtures.anakin (Fixtures.ref Fixtures.Employee) []
  = Return false None Fixtures.anakin.
Proof. reflexivity. Qed.

Example TestApplyIgnoresUnexportedFields :
  PkgPatch.Apply Fixtures.trooper (Fixtures.ref Fixtures.Trooper)
    [("exported", Fixtures.str "wookie"); ("unexported", Fixtures.str "leutenant")]
  = Return true None
      [VStruct Fixtures.Trooper [Fixtures.str "wookie"; Fixtures.str "private"]]
  /\ PkgPatch.Apply Fixtures.trooper (Fixtures.ref Fixtures.Trooper)
       [("unexported", Fixtures.str "leutenant"); ("exported", Fixtures.str "wookie")]
     = Return true None
         [VStruct Fixtures.Trooper [Fixtures.str "wookie"; Fixtures.str "private"]].
Proof. split; vm_compute; reflexivity. Qed.

Example TestApplyZeroValueFields :
  PkgPatch.Apply Fixtures.han (Fixtures.ref Fixtures.Pilot)
    [("name", Fixtures.str "Chubacca"); ("salary", Fixtures.num 0);
     ("on_duty", VBool Fixtures.bool_t false)]
  = Return true None
      [VStruct Fixtures.Pilot
         [Fixtures.str "Chubacca"; VInt Fixtures.int64_t 0;
          VBool Fixtures.bool_t false]].
Proof. vm_compute; reflexivity. Qed.

Example TestApplyDetectsWrongType :
  PkgPatch.Apply Fixtures.anakin (Fixtures.ref Fixtures.Employee)
    [("salary", Fixtures.str "euros"); ("name", Fixtures.str "Darth Vader")]
  = Return true (Some "can't convert salary to dst type") Fixtures.anakin.
Proof. vm_compute; reflexivity. Qed.

Example TestApplySubStructs :
  PkgPatch.Apply Fixtures.contacted (Fixtures.ref Fixtures.Contacted)
    [("contact",
      VMap [("first_name", Fixtures.str "Darth");
            ("last_name", Fixtures.str "Vader")]);
     ("salary", Fixtures.num 100500)]
  = Return true None
      [VStruct Fixtures.Contacted
         [VPtr Fixtures.TargetPerson (Some 1%nat); VInt Fixtures.int_t 100500];
       VStruct Fixtures.TargetPerson
         [Fixtures.str "Darth"; Fixtures.str "Vader"; Fixtures.str ""]].
Proof. vm_compute; reflexivity. Qed.

Example TestApplyNilSubStructs :
  PkgPatch.Apply Fixtures.no_contact (Fixtures.ref Fixtures.Contacted)
    [("contact",
      VMap [("first_name", Fixtures.str "Darth");
            ("last_name", Fixtures.str "Vader")])]
  = Return true None
      [VStruct Fixtures.Contacted
         [VPtr Fixtures.TargetPerson (Some 1%nat); VInt Fixtures.int_t 123];
       VStruct Fixtures.TargetPerson
         [Fixtures.str "Darth"; Fixtures.str "Vader"; Fixtures.str ""]].
Proof. vm_compute; reflexivity. Qed.

Example TestEnums :
  PkgPatch.Apply Fixtures.vader (Fixtures.ref Fixtures.Person)
    [("position", Fixtures.num 2)]
  = Return true None
      [VStruct Fixtures.Person
         [Fixtures.str "Darth"; Fixtures.str "Vader"; VInt Fixtures.Position 2]].
Proof. vm_compute; reflexivity. Qed.

Example TestSkipConversionErrors :
  PkgPatch.Apply Fixtures.cast_var Fixtures.ref_var
    [("characters", Fixtures.array [Fixtures.num 1; Fixtures.num 2; Fixtures.num 3])]
  = Return true (Some "can't convert characters to dst type") Fixtures.cast_var.
Proof. vm_compute; reflexivity. Qed.

Example TestUpdateArrays :
  PkgPatch.Apply Fixtures.cast_var Fixtures.ref_var
    [("characters",
      Fixtures.array [Fixtures.str "Darth Vader"; Fixtures.str "Luke Skywalker"])]
  = Return true None
      [VStruct Fixtures.Cast
         [VSlice Fixtures.string_t
            (Some [Fixtures.str "Darth Vader"; Fixtures.str "Luke Skywalker"])];
       VPtr Fixtures.Cast (Some O)].
Proof. vm_compute; reflexivity. Qed.

Example TestUpdateIntArrays :
  PkgPatch.Apply Fixtures.lasers (Fixtures.ref Fixtures.Lasers)
    [("laser_colors", Fixtures.array [Fixtures.num 0; Fixtures.num 1])]
  = Return true None
      [VStruct Fixtures.Lasers
         [VSlice Fixtures.int_t
            (Some [VInt Fixtures.int_t 0; VInt Fixtures.int_t 1])]].
Proof. vm_compute; reflexivity. Qed.

(** * Further properties of [Apply] *)

(** ** Scalar assignment *)

Lemma Convert_TypeOf (v : value) (t : type) :
  CanConvert v (Some t) = Some true ->
  kind_eqb (Kind t) KInterface = false ->
  TypeOf (Convert v t) = Some t.
Proof.
  unfold CanConvert. destruct (TypeOf v) as [vt|] eqn:Hvt; [|discriminate].
  intros [= Hc] Hk. unfold Convert.
  destruct v; simpl in Hvt; try discriminate; injection Hvt as <-;
    destruct t as [[]|? []| | | | |]; try reflexivity; try discriminate Hk;
    try discriminate Hc;
    try (destruct t as [[]|? []| | | | |]; discriminate Hc).
Qed.

(** Values that [reflect.DeepEqual] finds equal have the same dynamic
    type. *)
Lemma DeepEqual_TypeOf (h : heap) (x y : value) :
  DeepEqual h x y = true -> TypeOf x = TypeOf y.
Proof.
  unfold DeepEqual.
  destruct x as [| | | | |? [?|]| |? [?|]| |], y as [| | | | |? [?|]| |? [?|]| |];
    simpl; try discriminate; try reflexivity;
    intros H;
    first [apply andb_true_iff in H; destruct H as [H _] | idtac];
    apply type_eqb_eq in H; now subst.
Qed.

(** A value that is not a mapping and converts to the type of the field
    its key resolves to (a field that is neither a slice nor an
    interface) is converted and stored in that field, and nothing else
    in the heap changes; the loop goes on without an error. *)
Theorem scalar_converted_and_assigned
    (h : heap) (a : nat) (t : type) (vs : list value) (target : value)
    (key : string) (val : value) (f : Field) (rest : list (string * value))
    (changed : bool) (err : option string) :
  h !! a = Some (VStruct t vs) ->
  findField h (SAddr a) key = Some f ->
  not_mapping val = true ->
  kind_eqb (FieldKind f) KSlice = false ->
  kind_eqb (FieldKind f) KInterface = false ->
  TypeOf (Value f) = Some (ftype f) ->
  CanConvert val (Some (ftype f)) = Some true ->
  range_patch (fun key val => PkgPatch.ApplyEntry val target (SAddr a) key)
    ((key, val) :: rest) changed err h
  = range_patch (fun key val => PkgPatch.ApplyEntry val target (SAddr a) key)
      rest (if DeepEqual h val (Value f) then changed else true) None
      (<[a := VStruct t (<[findex f := Convert val (ftype f)]> vs)]> h).
Proof.
  intros Hc Hf Hm Hs Hi Hty Hcan.
  assert (He : IsExported f = true).
  { unfold findField in Hf. now destruct (findField_in_In _ _ _ Hf). }
  pose proof (Convert_TypeOf _ _ Hcan Hi) as Hct.
  assert (Hassign : forall err',
    PkgPatch.assign val (SAddr a) key f changed err' h
    = Continue (if DeepEqual h val (Value f) then changed else true) None
        (<[a := VStruct t (<[findex f := Convert val (ftype f)]> vs)]> h)).
  { intros err'. unfold PkgPatch.assign. rewrite Hs, Hty, Hcan.
    rewrite (FieldSet_cell _ _ _ _ _ _ Hc He).
    - now destruct (DeepEqual h val (Value f)).
    - unfold FieldKind, ValueKind. rewrite Hct. now destruct (Kind (ftype f)).
    - now apply assignable_own_type. }
  simpl. rewrite ApplyEntry_eq, Hf.
  destruct val; try discriminate Hm; now rewrite Hassign.
Qed.

(** [TestEnums]: the JSON number 2 becomes the [Position] 2. *)
Lemma scalar_converted_and_assigned_witness :
  range_patch
    (fun key val =>
       PkgPatch.ApplyEntry val (Fixtures.ref Fixtures.Person) (SAddr 0) key)
    [("position", Fixtures.num 2)] false None Fixtures.vader
  = Return true None
      [VStruct Fixtures.Person
         [Fixtures.str "Darth"; Fixtures.str "Vader"; VInt Fixtures.Position 2]].
Proof.
  apply (scalar_converted_and_assigned Fixtures.vader 0 Fixtures.Person
           [Fixtures.str "Darth"; Fixtures.str "Vader"; VInt Fixtures.Position 0]
           (Fixtures.ref Fixtures.Person) "position" (Fixtures.num 2)
           (MkField (Fixtures.field "Position" "position") Fixtures.Position 2
              (VInt Fixtures.Position 0)) [] false None);
    reflexivity.
Defined.

(** ** The change flag and dynamic types *)

(** A value that is not a mapping and whose dynamic type is not the
    type of the value the field holds makes every result of the entry
    carry [changed = true], whether the assignment succeeds or not. *)
Theorem other_dynamic_type_counts_as_change
    (h : heap) (target : value) (dst : Struct) (key : string) (val : value)
    (f : Field) (changed : bool) (err : option string) :
  findField h dst key = Some f ->
  not_mapping val = true ->
  TypeOf val <> TypeOf (Value f) ->
  match PkgPatch.ApplyEntry val target dst key changed err h with
  | Continue c _ _ | Done (Return c _ _) => c = true
  | Done Panic => True
  end.
Proof.
  intros Hf Hm Hty.
  assert (Hde : DeepEqual h val (Value f) = false).
  { destruct (DeepEqual h val (Value f)) eqn:E; [|reflexivity].
    now apply DeepEqual_TypeOf in E. }
  assert (Hassign : forall err',
    match PkgPatch.assign val dst key f changed err' h with
    | Continue c _ _ | Done (Return c _ _) => c = true
    | Done Panic => True
    end).
  { intros err'. unfold PkgPatch.assign. rewrite Hde. simpl.
    repeat destruct_innermost; auto. }
  rewrite ApplyEntry_eq, Hf.
  destruct val; try discriminate Hm; apply Hassign.
Qed.

(** A slice of strings patched with the same strings: the patch is a
    [[]interface{}], the field a [[]string], and [changed] is [true]. *)
Lemma other_dynamic_type_counts_as_change_witness :
  match
    PkgPatch.ApplyEntry (Fixtures.array [Fixtures.str "Anakin Skywalker"])
      (Fixtures.ref Fixtures.Cast) (SAddr 0) "characters" false None
      Fixtures.cast
  with
  | Continue c _ _ | Done (Return c _ _) => c = true
  | Done Panic => True
  end.
Proof.
  apply (other_dynamic_type_counts_as_change Fixtures.cast
           (Fixtures.ref Fixtures.Cast) (SAddr 0) "characters"
           (Fixtures.array [Fixtures.str "Anakin Skywalker"])
           (MkField (Fixtures.field "Characters" "characters")
              (TSlice Fixtures.string_t) 0
              (VSlice Fixtures.string_t (Some [Fixtures.str "Anakin Skywalker"]))));
    [reflexivity | reflexivity | discriminate].
Defined.

Lemma range_patch_cons entry (k : string) (v : value)
    (rest : list (string * value)) c e h :
  range_patch entry ((k, v) :: rest) c e h
  = match entry k v c e h with
    | Done o => o
    | Continue c' e' h' => range_patch entry rest c' e' h'
    end.
Proof. reflexivity. Qed.

(** ** Mappings against fields that are not records *)

(** A mapping against a field of a basic type is refused: the call
    returns the conversion error naming the key, the heap is untouched,
    and [changed] is [true] although nothing has changed. *)
Theorem mapping_against_basic_field
    (h : heap) (target : value) (dst : Struct) (key : string)
    (m : list (string * value)) (f : Field) (b : basic)
    (rest : list (string * value)) (changed : bool) (err : option string) :
  findField h dst key = Some f ->
  Kind (ftype f) = basic_kind b ->
  TypeOf (Value f) = Some (ftype f) ->
  range_patch (fun key val => PkgPatch.ApplyEntry val target dst key)
    ((key, VMap m) :: rest) changed err h
  = Return true (Some ("can't convert " ++ key ++ " to dst type")) h.
Proof.
  intros Hf Hk Hty. rewrite range_patch_cons, ApplyEntry_eq, Hf.
  unfold FieldKind. rewrite Hk.
  replace (kind_eqb (basic_kind b) KPointer) with false by now destruct b.
  replace (kind_eqb (basic_kind b) KStruct) with false by now destruct b.
  simpl. unfold PkgPatch.assign, FieldKind. rewrite Hk.
  replace (kind_eqb (basic_kind b) KSlice) with false by now destruct b.
  assert (Hde : DeepEqual h (VMap m) (Value f) = false).
  { destruct (DeepEqual h (VMap m) (Value f)) eqn:E; [|reflexivity].
    apply DeepEqual_TypeOf in E. rewrite Hty in E. simpl in E.
    injection E as E. rewrite <- E in Hk. now destruct b. }
  assert (Hc : ConvertibleTo TMap (ftype f) = false).
  { destruct (ftype f) as [[]|? []| | | | |]; try reflexivity;
      destruct b; discriminate Hk. }
  assert (Hcc : CanConvert (VMap m) (Some (ftype f)) = Some false).
  { unfold CanConvert. cbn [TypeOf]. now rewrite Hc. }
  now rewrite Hde, Hty, Hcc.
Qed.

Lemma mapping_against_basic_field_witness :
  range_patch
    (fun key val =>
       PkgPatch.ApplyEntry val (Fixtures.ref Fixtures.Employee) (SAddr 0) key)
    [("salary", VMap [("amount", Fixtures.num 1)]);
     ("name", Fixtures.str "Darth Vader")] false None Fixtures.anakin
  = Return true (Some "can't convert salary to dst type") Fixtures.anakin.
Proof.
  apply (mapping_against_basic_field Fixtures.anakin
           (Fixtures.ref Fixtures.Employee) (SAddr 0) "salary"
           [("amount", Fixtures.num 1)]
           (MkField (Fixtures.field "Salary" "salary") Fixtures.int_t 1
              (VInt Fixtures.int_t 123)) BInt);
    reflexivity.
Defined.

(** ** Errors and the loop *)

(** An entry ends the call only with an error, and lets the loop go on
    only without one. *)
Lemma ApplyEntry_error_shape val target dst key changed h :
  match PkgPatch.ApplyEntry val target dst key changed None h with
  | Continue _ e _ => e = None
  | Done (Return _ e _) => e <> None
  | Done Panic => True
  end.
Proof.
  destruct val; simpl; repeat destruct_innermost; trivial; discriminate.
Qed.

(** [Apply] returns a nil error exactly when the loop has processed
    every entry of the patch: no entry is skipped by an early return
    that leaves the error nil. *)
Theorem nil_error_iff_all_entries_processed
    (h : heap) (target : value) (dst : Struct) (patch : list (string * value))
    (c : bool) (h' : heap) :
  New h target = Some dst ->
  PkgPatch.Apply h target patch = Return c None h'
  <-> steps (fun key val => PkgPatch.ApplyEntry val target dst key)
        patch false None h = Some (c, None, h').
Proof.
  intros Hnew. unfold PkgPatch.Apply, Apply_with. rewrite Hnew. clear Hnew.
  generalize false as c0. revert h.
  induction patch as [|[k v] patch IH]; intros h c0; simpl.
  - split; [intros [= -> ->] | intros [= -> ->]]; reflexivity.
  - pose proof (ApplyEntry_error_shape v target dst k c0 h) as Hs.
    destruct (PkgPatch.ApplyEntry v target dst k c0 None h)
      as [[|c1 e1 h1]|c1 e1 h1].
    + split; discriminate.
    + split; [intros [= _ -> _]; now destruct Hs | discriminate].
    + subst e1. apply IH.
Qed.

Lemma nil_error_iff_all_entries_processed_witness :
  PkgPatch.Apply Fixtures.anakin (Fixtures.ref Fixtures.Employee)
    [("name", Fixtures.str "Darth Vader"); ("salary", Fixtures.num 100500)]
  = Return true None
      [VStruct Fixtures.Employee
         [Fixtures.str "Darth Vader"; VInt Fixtures.int_t 100500]]
  <-> steps
        (fun key val =>
           PkgPatch.ApplyEntry val (Fixtures.ref Fixtures.Employee) (SAddr 0) key)
        [("name", Fixtures.str "Darth Vader"); ("salary", Fixtures.num 100500)]
        false None Fixtures.anakin
      = Some (true, None,
              [VStruct Fixtures.Employee
                 [Fixtures.str "Darth Vader"; VInt Fixtures.int_t 100500]]).
Proof.
  apply (nil_error_iff_all_entries_processed Fixtures.anakin
           (Fixtures.ref Fixtures.Employee) (SAddr 0)).
  reflexivity.
Defined.

(** A change reported by an earlier entry is still reported when a
    later entry fails: the flag that comes with the error is [true]. *)
Theorem change_reported_with_later_error
    (target : value) (dst : Struct) (pre rest : list (string * value))
    (c0 : bool) (e0 e1 : option string) (h h1 : heap) :
  steps (fun key val => PkgPatch.ApplyEntry val target dst key)
    pre c0 e0 h = Some (true, e1, h1) ->
  match range_patch (fun key val => PkgPatch.ApplyEntry val target dst key)
          (pre ++ rest)%list c0 e0 h with
  | Return c _ _ => c = true
  | Panic => True
  end.
Proof.
  intros Hpre. rewrite (range_patch_steps _ _ _ _ _ _ _ _ _ Hpre).
  apply range_patch_changed_stays.
Qed.

Lemma change_reported_with_later_error_witness :
  match
    range_patch
      (fun key val =>
         PkgPatch.ApplyEntry val (Fixtures.ref Fixtures.Employee) (SAddr 0) key)
      ([("name", Fixtures.str "Darth Vader")]
         ++ [("salary", Fixtures.str "euros")])%list
      false None Fixtures.anakin
  with
  | Return c _ _ => c = true
  | Panic => True
  end.
Proof.
  apply (change_reported_with_later_error (Fixtures.ref Fixtures.Employee)
           (SAddr 0) [("name", Fixtures.str "Darth Vader")]
           [("salary", Fixtures.str "euros")] false None None Fixtures.anakin
           [VStruct Fixtures.Employee
              [Fixtures.str "Darth Vader"; VInt Fixtures.int_t 123]]).
  reflexivity.
Defined.

(** ** What no call does *)

Lemma cells_kept_refl (h : heap) : cells_kept h h.
Proof.
  split; [lia|]. intros a v Ha. destruct v; eauto.
Qed.

Lemma cells_kept_trans (h1 h2 h3 : heap) :
  cells_kept h1 h2 -> cells_kept h2 h3 -> cells_kept h1 h3.
Proof.
  intros [L1 K1] [L2 K2]. split; [lia|]. intros a v Ha.
  specialize (K1 a v Ha).
  destruct v; try (now apply (K2 a _ K1)).
  destruct K1 as (vs2 & H2 & Len2).
  destruct (K2 a _ H2) as (vs3 & H3 & Len3).
  exists vs3. split; [assumption | congruence].
Qed.

Lemma cells_kept_alloc (h : heap) (t : type) : cells_kept h (h ++ [zero t])%list.
Proof.
  split; [rewrite length_app; lia|]. intros a v Ha.
  assert (Hl : (h ++ [zero t])%list !! a = Some v).
  { rewrite lookup_app_l; [assumption | eapply lookup_lt_Some; eassumption]. }
  destruct v; eauto.
Qed.

Lemma cells_kept_set (h : heap) (dst : Struct) (f : Field) (v : value) (h' : heap) :
  FieldSet h dst f v = SetOk h' -> cells_kept h h'.
Proof.
  unfold FieldSet. intros Hs.
  destruct (negb (IsExported f)); [discriminate|].
  destruct dst as [b|]; [|discriminate].
  destruct (negb _); [discriminate|].
  destruct (assignable _ _); [|discriminate].
  destruct (h !! b) as [[| | | | | |t' ws| | |]|] eqn:Hb; try discriminate.
  injection Hs as <-. split; [now rewrite length_insert|].
  intros a x Ha. destruct (Nat.eq_dec b a) as [->|Hne].
  - rewrite Ha in Hb. injection Hb as ->.
    exists (<[findex f := v]> ws). split; [|apply length_insert].
    apply list_lookup_insert_eq. eapply lookup_lt_Some; eassumption.
  - assert (Hl : <[b := VStruct t' (<[findex f := v]> ws)]> h !! a = Some x)
      by (rewrite list_lookup_insert_ne; assumption).
    destruct x; eauto.
Qed.

(** [Apply] never drops a cell, never turns a record into a record of
    another type or with another number of fields, and never writes a
    cell that does not hold a record. *)
Theorem Apply_keeps_cells (h : heap) (target : value) (patch : list (string * value)) :
  match PkgPatch.Apply h target patch with
  | Return _ _ h' => cells_kept h h'
  | Panic => True
  end.
Proof.
  apply (Apply_R cells_kept cells_kept_refl cells_kept_trans cells_kept_alloc
           cells_kept_set).
Qed.

(** ** Records of basic fields stay well typed *)

Lemma wrap_range (b : basic) (z : Z) : in_range b (wrap (bits b) z) = true.
Proof.
  unfold in_range, wrap. rewrite andb_true_iff, Z.leb_le, Z.ltb_lt.
  assert (Hw : 2 ^ bits b = 2 * 2 ^ (bits b - 1)) by (destruct b; reflexivity).
  assert (Hp : 0 < 2 ^ (bits b - 1)) by (destruct b; reflexivity).
  pose proof (Z.mod_pos_bound (z + 2 ^ (bits b - 1)) (2 ^ bits b)) as Hm.
  lia.
Qed.

Lemma Convert_holds_basic (v : value) (t : type) (b : basic) :
  well_kinded v = true ->
  Kind t = basic_kind b ->
  CanConvert v (Some t) = Some true ->
  holds_basic t (Convert v t) = true.
Proof.
  intros Hw Hk Hc. unfold CanConvert in Hc.
  destruct (TypeOf v) as [vt|] eqn:Hvt; [|discriminate]. injection Hc as Hc.
  assert (Hint : forall z, is_int_kind (Kind t) = true ->
            holds_basic t (VInt t (wrap (bits (basic_of t)) z)) = true).
  { intros z Hi. simpl. now rewrite type_eqb_refl, Hi, wrap_range. }
  assert (Hrefl := type_eqb_refl t).
  destruct v; simpl in Hvt; try discriminate; injection Hvt as <-;
    simpl in Hw; unfold Convert;
    destruct t as [[]|? []| | | | |]; destruct b; try discriminate Hk;
    simpl Kind; cbv iota;
    try (apply Hint; reflexivity);
    try reflexivity;
    try (unfold holds_basic; rewrite Hrefl; reflexivity);
    try discriminate Hc;
    try match type of Hc with
        | ConvertibleTo ?x _ = true =>
            destruct x as [[]|? []| | | | |]; discriminate
        end.
Qed.

Lemma flat_record_insert (ds : list (finfo * type)) (vs : list value) (i : nat)
    (d : finfo) (t : type) (v : value) :
  flat_record ds vs = true -> ds !! i = Some (d, t) -> holds_basic t v = true ->
  flat_record ds (<[i := v]> vs) = true.
Proof.
  revert vs i; induction ds as [|[d' t'] ds IH]; intros [|x vs] i; simpl;
    try discriminate.
  rewrite andb_true_iff. intros [Hx Hr].
  destruct i as [|i]; simpl.
  - intros [= _ <-] Hv. now rewrite Hv, Hr.
  - intros Hd Hv. now rewrite Hx, (IH _ _ Hr Hd Hv).
Qed.

(** One entry on a record of basic fields: the heap stays as it is, or
    the field the key resolves to receives the converted value, which
    is a value of the field's type. *)
Lemma ApplyEntry_flat_step (h : heap) (a : nat) (n : string)
    (ds : list (finfo * type)) (vs : list value) val target key c e :
  h !! a = Some (VStruct (TStruct n ds) vs) ->
  flat_record ds vs = true ->
  well_kinded val = true ->
  match PkgPatch.ApplyEntry val target (SAddr a) key c e h with
  | Done Panic => True
  | Done (Return _ _ h') => h' = h
  | Continue _ _ h' =>
      h' = h \/
      exists f, findField h (SAddr a) key = Some f
        /\ holds_basic (ftype f) (Convert val (ftype f)) = true
        /\ h' = <[a := VStruct (TStruct n ds)
                         (<[findex f := Convert val (ftype f)]> vs)]> h
  end.
Proof.
  intros Hc Hflat Hw. rewrite ApplyEntry_eq.
  destruct (findField h (SAddr a) key) as [f|] eqn:Hf; [|now left].
  destruct (findField_cell _ _ _ _ _ _ _ Hc Hf) as (Hv & Hd & He).
  pose proof (flat_record_lookup _ _ _ _ _ _ Hflat Hd Hv) as Hb.
  destruct (holds_basic_kind _ _ Hb) as [b Hk].
  pose proof (holds_basic_TypeOf _ _ Hb) as Hty.
  assert (Hassign : forall c' e',
    match PkgPatch.assign val (SAddr a) key f c' e' h with
    | Done Panic => True
    | Done (Return _ _ h') => h' = h
    | Continue _ _ h' =>
        h' = h \/
        exists f0, Some f = Some f0
          /\ holds_basic (ftype f0) (Convert val (ftype f0)) = true
          /\ h' = <[a := VStruct (TStruct n ds)
                           (<[findex f0 := Convert val (ftype f0)]> vs)]> h
    end).
  { intros c' e'. unfold PkgPatch.assign, FieldKind. rewrite Hk.
    replace (kind_eqb (basic_kind b) KSlice) with false by now destruct b.
    rewrite Hty.
    destruct (CanConvert val (Some (ftype f))) as [[]|] eqn:Hcan; trivial.
    pose proof (Convert_holds_basic _ _ _ Hw Hk Hcan) as Hcb.
    rewrite (FieldSet_cell _ _ _ _ _ _ Hc He).
    - right. exists f. auto.
    - unfold FieldKind, ValueKind. rewrite (holds_basic_TypeOf _ _ Hcb).
      now destruct (Kind (ftype f)).
    - now apply assignable_own_type, holds_basic_TypeOf. }
  assert (Hp : kind_eqb (FieldKind f) KPointer = false
               /\ kind_eqb (FieldKind f) KStruct = false).
  { unfold FieldKind. rewrite Hk. now destruct b. }
  destruct Hp as [Hp Hs]. rewrite Hp, Hs. simpl.
  destruct val; apply Hassign.
Qed.

Lemma range_patch_flat (a : nat) (n : string) (ds : list (finfo * type))
    (target : value) (patch : list (string * value)) :
  Forall (fun kv => well_kinded (snd kv) = true) patch ->
  forall vs h c e,
    h !! a = Some (VStruct (TStruct n ds) vs) ->
    flat_record ds vs = true ->
    match range_patch (fun key val => PkgPatch.ApplyEntry val target (SAddr a) key)
            patch c e h with
    | Panic => True
    | Return _ _ h' =>
        exists vs', h' = <[a := VStruct (TStruct n ds) vs']> h
          /\ flat_record ds vs' = true
          /\ forall j,
               (forall k v, In (k, v) patch -> resolve_index 0 ds k <> Some j) ->
               vs' !! j = vs !! j
    end.
Proof.
  induction 1 as [|[k v] patch Hw _ IH]; intros vs h c e Hc Hflat.
  - simpl. exists vs. split; [symmetry; now apply list_insert_id | auto].
  - rewrite range_patch_cons.
    pose proof (ApplyEntry_flat_step h a n ds vs v target k c e Hc Hflat Hw)
      as Hstep.
    destruct (PkgPatch.ApplyEntry v target (SAddr a) k c e h)
      as [[|c' e' h2]|c' e' h2]; trivial.
    + subst h2. exists vs. split; [symmetry; now apply list_insert_id | auto].
    + destruct Hstep as [->|(f & Hf & Hcb & ->)].
      * specialize (IH vs h c' e' Hc Hflat).
        destruct (range_patch _ patch c' e' h); trivial.
        destruct IH as (vs' & -> & Hflat' & Hframe).
        exists vs'. split; [reflexivity | split; [assumption|]].
        intros j Hun. apply Hframe. intros k0 v0 Hin. apply (Hun k0 v0).
        now right.
      * destruct (findField_cell _ _ _ _ _ _ _ Hc Hf) as (Hv & Hd & He).
        assert (Hlt : (a < length h)%nat) by (eapply lookup_lt_Some; eassumption).
        specialize (IH (<[findex f := Convert v (ftype f)]> vs) _ c' e'
                      (list_lookup_insert_eq _ _ _ Hlt)
                      (flat_record_insert _ _ _ _ _ _ Hflat Hd Hcb)).
        destruct (range_patch _ patch c' e' _); trivial.
        destruct IH as (vs' & -> & Hflat' & Hframe).
        exists vs'. split; [apply list_insert_insert_eq | split; [assumption|]].
        intros j Hun.
        rewrite Hframe by (intros k0 v0 Hin; apply (Hun k0 v0); now right).
        apply list_lookup_insert_ne.
        unfold findField, Fields in Hf. simpl in Hf. rewrite Hc in Hf.
        apply resolve_index_findField in Hf.
        intros <-. now apply (Hun k v (or_introl eq_refl)).
Qed.

(** On a record of basic fields [Apply] writes nothing but that record;
    after the call every field still holds a value of its declared type,
    and a field that no key of the patch resolves to holds the value it
    held before, also when the call ends with an error. *)
Theorem flat_record_stays_flat
    (h : heap) (a : nat) (n : string) (ds : list (finfo * type))
    (vs : list value) (patch : list (string * value)) :
  h !! a = Some (VStruct (TStruct n ds) vs) ->
  flat_record ds vs = true ->
  Forall (fun kv => well_kinded (snd kv) = true) patch ->
  match PkgPatch.Apply h (VPtr (TStruct n ds) (Some a)) patch with
  | Panic => True
  | Return _ _ h' =>
      exists vs', h' = <[a := VStruct (TStruct n ds) vs']> h
        /\ flat_record ds vs' = true
        /\ forall j,
             (forall k v, In (k, v) patch -> resolve_index 0 ds k <> Some j) ->
             vs' !! j = vs !! j
  end.
Proof.
  intros Hc Hflat Hpatch. unfold PkgPatch.Apply, Apply_with.
  rewrite (New_pointer _ _ _ _ _ Hc) by reflexivity.
  now apply range_patch_flat.
Qed.

(** [TestApplyDetectsWrongType], the name first: the call ends with an
    error, the record is still one of a string and an int. *)
Lemma flat_record_stays_flat_witness :
  match PkgPatch.Apply Fixtures.anakin (VPtr Fixtures.Employee (Some O))
          [("name", Fixtures.str "Darth Vader"); ("salary", Fixtures.str "euros")]
  with
  | Panic => True
  | Return _ _ h' =>
      exists vs', h' = <[O := VStruct Fixtures.Employee vs']> Fixtures.anakin
        /\ flat_record
             [(Fixtures.field "Name" "name", Fixtures.string_t);
              (Fixtures.field "Salary" "salary", Fixtures.int_t)] vs' = true
        /\ forall j,
             (forall k v,
                In (k, v)
                  [("name", Fixtures.str "Darth Vader");
                   ("salary", Fixtures.str "euros")] ->
                resolve_index 0
                  [(Fixtures.field "Name" "name", Fixtures.string_t);
                   (Fixtures.field "Salary" "salary", Fixtures.int_t)] k
                <> Some j) ->
             vs' !! j
             = [Fixtures.str "Anakin Skywalker"; VInt Fixtures.int_t 123] !! j
  end.
Proof.
  apply (flat_record_stays_flat Fixtures.anakin 0 "Target"
           [(Fixtures.field "Name" "name", Fixtures.string_t);
            (Fixtures.field "Salary" "salary", Fixtures.int_t)]
           [Fixtures.str "Anakin Skywalker"; VInt Fixtures.int_t 123]);
    try reflexivity.
  repeat constructor.
Defined.

(** ** Pointers to existing records *)



(** ** Records passed by value *)

Lemma findField_struct (h : heap) (dst : Struct) (n : string)
    (ds : list (finfo * type)) (vs : list value) (key : string) (f : Field) :
  struct_value h dst = Some (VStruct (TStruct n ds) vs) ->
  findField h dst key = Some f ->
  vs !! findex f = Some (Value f)
  /\ ds !! findex f = Some (finf f, ftype f)
  /\ IsExported f = true.
Proof.
  intros Hc Hf. unfold findField, Fields in Hf. rewrite Hc in Hf.
  destruct (findField_in_In _ _ _ Hf) as [Hin He].
  destruct (getFields_In _ _ _ _ Hin) as (j & Hi & Hv & Hd).
  simpl in Hi. subst j. auto.
Qed.

(** A target that is a record, not a pointer to one, cannot be
    assigned to: an entry whose value converts to the type of the field
    it resolves to ends the call with ["field is not settable"], and the
    heap is as it was. *)
Theorem by_value_target_is_not_settable
    (h : heap) (target v : value) (key : string) (val : value) (f : Field)
    (rest : list (string * value)) (changed : bool) (err : option string) :
  findField h (SCopy v) key = Some f ->
  not_mapping val = true ->
  kind_eqb (FieldKind f) KSlice = false ->
  CanConvert val (TypeOf (Value f)) = Some true ->
  range_patch (fun key val => PkgPatch.ApplyEntry val target (SCopy v) key)
    ((key, val) :: rest) changed err h
  = Return (if DeepEqual h val (Value f) then changed else true)
      (Some "field is not settable") h.
Proof.
  intros Hf Hm Hs Hcan.
  assert (He : IsExported f = true).
  { unfold findField in Hf. now destruct (findField_in_In _ _ _ Hf). }
  assert (Hassign : forall err',
    PkgPatch.assign val (SCopy v) key f changed err' h
    = Done (Return (if DeepEqual h val (Value f) then changed else true)
              (Some "field is not settable") h)).
  { intros err'. unfold PkgPatch.assign. rewrite Hs, Hcan.
    destruct (TypeOf (Value f)) as [t|] eqn:Ht.
    - unfold FieldSet. rewrite He. simpl.
      now destruct (DeepEqual h val (Value f)).
    - unfold CanConvert in Hcan. destruct (TypeOf val); discriminate. }
  rewrite range_patch_cons, ApplyEntry_eq, Hf.
  destruct val; try discriminate Hm; now rewrite Hassign.
Qed.

(** The record of [TestUpdateIntArrays]' sibling test passed as a value:
    [Apply(a, p)] instead of [Apply(&a, p)]. *)
Lemma by_value_target_is_not_settable_witness :
  range_patch
    (fun key val =>
       PkgPatch.ApplyEntry val
         (VStruct Fixtures.Employee
            [Fixtures.str "Anakin Skywalker"; VInt Fixtures.int_t 123])
         (SCopy (VStruct Fixtures.Employee
                   [Fixtures.str "Anakin Skywalker"; VInt Fixtures.int_t 123]))
         key)
    [("salary", Fixtures.num 100500)] false None []
  = Return true (Some "field is not settable") [].
Proof.
  apply (by_value_target_is_not_settable []
           (VStruct Fixtures.Employee
              [Fixtures.str "Anakin Skywalker"; VInt Fixtures.int_t 123])
           (VStruct Fixtures.Employee
              [Fixtures.str "Anakin Skywalker"; VInt Fixtures.int_t 123])
           "salary" (Fixtures.num 100500)
           (MkField (Fixtures.field "Salary" "salary") Fixtures.int_t 1
              (VInt Fixtures.int_t 123)) [] false None);
    reflexivity.
Defined.

Lemma range_patch_copy_flat (n : string) (ds : list (finfo * type))
    (vs : list value) (target : value) (patch : list (string * value)) c e h :
  flat_record ds vs = true ->
  match range_patch
          (fun key val =>
             PkgPatch.ApplyEntry val target (SCopy (VStruct (TStruct n ds) vs)) key)
          patch c e h with
  | Return _ _ h' => h' = h
  | Panic => True
  end.
Proof.
  intros Hflat. revert c e.
  induction patch as [|[k v] patch IH]; intros c e; [reflexivity|].
  rewrite range_patch_cons, ApplyEntry_eq.
  destruct (findField h (SCopy (VStruct (TStruct n ds) vs)) k) as [f|] eqn:Hf;
    [|apply IH].
  destruct (findField_struct h (SCopy (VStruct (TStruct n ds) vs)) n ds vs k f
              eq_refl Hf) as (Hv & Hd & He).
  pose proof (flat_record_lookup _ _ _ _ _ _ Hflat Hd Hv) as Hb.
  destruct (holds_basic_kind _ _ Hb) as [b Hk].
  assert (Hassign : forall c' e',
    match PkgPatch.assign v (SCopy (VStruct (TStruct n ds) vs)) k f c' e' h with
    | Done (Return _ _ h') => h' = h
    | Done Panic => True
    | Continue _ _ _ => False
    end).
  { intros c' e'. unfold PkgPatch.assign, FieldKind. rewrite Hk.
    replace (kind_eqb (basic_kind b) KSlice) with false by now destruct b.
    destruct (CanConvert v (TypeOf (Value f))) as [[]|]; trivial.
    destruct (TypeOf (Value f)); trivial.
    unfold FieldSet. now rewrite He. }
  assert (Hp : kind_eqb (FieldKind f) KPointer = false
               /\ kind_eqb (FieldKind f) KStruct = false).
  { unfold FieldKind. rewrite Hk. now destruct b. }
  destruct Hp as [Hp Hs]. rewrite Hp, Hs. simpl.
  assert (Hgoal : forall e0,
    match
      match PkgPatch.assign v (SCopy (VStruct (TStruct n ds) vs)) k f c e0 h with
      | Done o => o
      | Continue c' e' h' =>
          range_patch
            (fun key val =>
               PkgPatch.ApplyEntry val target
                 (SCopy (VStruct (TStruct n ds) vs)) key) patch c' e' h'
      end
    with
    | Return _ _ h' => h' = h
    | Panic => True
    end).
  { intros e0. specialize (Hassign c e0).
    destruct (PkgPatch.assign v _ k f c e0 h) as [[|]|]; tauto. }
  destruct v; apply Hgoal.
Qed.

(** A mapping against a field that holds a record by value (a record
    of basic fields) never changes anything: the nested call works on a
    copy, and whatever the entry returns, the heap is the heap before
    it. *)
Theorem nested_value_record_is_never_patched
    (h : heap) (target : value) (dst : Struct) (key : string)
    (m : list (string * value)) (f : Field) (n : string)
    (ds : list (finfo * type)) (vs : list value) (changed : bool)
    (err : option string) :
  findField h dst key = Some f ->
  ftype f = TStruct n ds ->
  Value f = VStruct (TStruct n ds) vs ->
  flat_record ds vs = true ->
  match PkgPatch.ApplyEntry (VMap m) target dst key changed err h with
  | Done Panic => True
  | Done (Return _ _ h') | Continue _ _ h' => h' = h
  end.
Proof.
  intros Hf Hft Hfv Hflat. rewrite ApplyEntry_eq, Hf.
  unfold FieldKind. rewrite Hft. cbn [Kind kind_eqb andb orb].
  rewrite Hfv. unfold PkgPatch.Apply, Apply_with, New.
  rewrite strctVal_struct.
  pose proof (range_patch_copy_flat n ds vs (VStruct (TStruct n ds) vs) m
                false None h Hflat) as Hr.
  destruct (range_patch _ m false None h) as [|c [e|] h2]; trivial.
Qed.

Lemma nested_value_record_is_never_patched_witness :
  match
    PkgPatch.ApplyEntry (VMap [("name", Fixtures.str "Leia")])
      (Fixtures.ref Fixtures.Crew) (SAddr 0) "captain" false None Fixtures.crew
  with
  | Done Panic => True
  | Done (Return _ _ h') | Continue _ _ h' => h' = Fixtures.crew
  end.
Proof.
  apply (nested_value_record_is_never_patched Fixtures.crew
           (Fixtures.ref Fixtures.Crew) (SAddr 0) "captain"
           [("name", Fixtures.str "Leia")]
           (MkField (Fixtures.field "Captain" "captain") Fixtures.Employee 0
              (VStruct Fixtures.Employee
                 [Fixtures.str "Han Solo"; VInt Fixtures.int_t 15]))
           "Target"
           [(Fixtures.field "Name" "name", Fixtures.string_t);
            (Fixtures.field "Salary" "salary", Fixtures.int_t)]
           [Fixtures.str "Han Solo"; VInt Fixtures.int_t 15] false None);
    reflexivity.
Defined.

(** ** Resolution and the record type *)

Lemma resolve_index_found (i : nat) (ds : list (finfo * type)) (vs : list value)
    (key : string) :
  length vs = length ds ->
  option_map findex (findField_in (getFields i ds vs) key)
  = resolve_index i ds key.
Proof.
  revert i vs; induction ds as [|[d t] ds IH]; intros i [|v vs] Hlen;
    simpl in *; try discriminate; [reflexivity|].
  unfold Tag, Name, IsExported. simpl.
  destruct (String.eqb _ key && fexported d); [reflexivity|].
  apply IH. congruence.
Qed.

(** Which field a key resolves to is decided by the declarations of the
    record type alone: the values the record holds, and so any earlier
    call, play no part. *)
Theorem resolution_depends_on_type_only
    (h : heap) (a : nat) (n : string) (ds : list (finfo * type))
    (vs : list value) (key : string) :
  h !! a = Some (VStruct (TStruct n ds) vs) ->
  length vs = length ds ->
  option_map findex (findField h (SAddr a) key) = resolve_index 0 ds key.
Proof.
  intros Hc Hlen. unfold findField, Fields. simpl. rewrite Hc.
  now apply resolve_index_found.
Qed.

Lemma resolution_depends_on_type_only_witness :
  option_map findex (findField Fixtures.trooper (SAddr 0) "exported")
  = resolve_index 0
      [(Fixtures.field "Exported" "exported,omitempty", Fixtures.string_t);
       (FInfo "unexported" "" false, Fixtures.string_t)] "exported".
Proof.
  apply (resolution_depends_on_type_only Fixtures.trooper 0 "Target"
           [(Fixtures.field "Exported" "exported,omitempty", Fixtures.string_t);
            (FInfo "unexported" "" false, Fixtures.string_t)]
           [Fixtures.str "stormtrooper"; Fixtures.str "private"]);
    reflexivity.
Defined.

(** ** Sequences: the edges *)

(** A nil [[]interface{}] against a slice field stores an empty slice
    that is not nil, whatever the field held. *)
Theorem nil_sequence_stores_empty_slice
    (h : heap) (a : nat) (t : type) (vs : list value) (target : value)
    (key : string) (f : Field) (et : type) (rest : list (string * value))
    (changed : bool) :
  h !! a = Some (VStruct t vs) ->
  findField h (SAddr a) key = Some f ->
  ftype f = TSlice et ->
  TypeOf (Value f) = Some (TSlice et) ->
  range_patch (fun key val => PkgPatch.ApplyEntry val target (SAddr a) key)
    ((key, VSlice TIface None) :: rest) changed None h
  = range_patch (fun key val => PkgPatch.ApplyEntry val target (SAddr a) key)
      rest (if DeepEqual h (VSlice TIface None) (Value f) then changed else true)
      None (<[a := VStruct t (<[findex f := VSlice et (Some [])]> vs)]> h).
Proof.
  intros Hc Hf Hft Hty.
  assert (He : IsExported f = true).
  { unfold findField in Hf. now destruct (findField_in_In _ _ _ Hf). }
  rewrite range_patch_cons, ApplyEntry_eq, Hf.
  unfold PkgPatch.assign, FieldKind. rewrite Hft. simpl. rewrite Hty.
  rewrite (FieldSet_cell _ _ _ _ _ _ Hc He).
  - now destruct (DeepEqual h _ (Value f)).
  - unfold FieldKind. now rewrite Hft.
  - rewrite Hft. now apply assignable_own_type.
Qed.

Lemma nil_sequence_stores_empty_slice_witness :
  range_patch
    (fun key val =>
       PkgPatch.ApplyEntry val (Fixtures.ref Fixtures.Cast) (SAddr 0) key)
    [("characters", VSlice TIface None)] false None Fixtures.cast
  = Return true None
      [VStruct Fixtures.Cast [VSlice Fixtures.string_t (Some [])]].
Proof.
  apply (nil_sequence_stores_empty_slice Fixtures.cast 0 Fixtures.Cast
           [VSlice Fixtures.string_t (Some [Fixtures.str "Anakin Skywalker"])]
           (Fixtures.ref Fixtures.Cast) "characters"
           (MkField (Fixtures.field "Characters" "characters")
              (TSlice Fixtures.string_t) 0
              (VSlice Fixtures.string_t (Some [Fixtures.str "Anakin Skywalker"])))
           Fixtures.string_t [] false);
    reflexivity.
Defined.

Lemma range_elems_stops apply (name : string) (et : type)
    (pre : list value) (x : value) (post : list value)
    (err : option string) (h : heap) :
  Forall (fun x => not_mapping x = true /\ CanConvert x (Some et) = Some true) pre ->
  not_mapping x = true ->
  CanConvert x (Some et) = Some false ->
  forall i arr,
    PkgPatch.range_elems apply name et (pre ++ x :: post)%list i et arr err h
    = EErr ("can't convert " ++ name ++ " to dst type") h.
Proof.
  intros Hpre Hm Hx.
  induction Hpre as [|y pre [Hym Hyc] _ IH]; intros i arr.
  - destruct x; try discriminate Hm; try discriminate Hx;
      unfold CanConvert in Hx; simpl in Hx |- *; injection Hx as Hx;
      now rewrite Hx.
  - pose proof (Convert_assignable _ _ Hyc) as Ha.
    assert (Hstep :
      PkgPatch.range_elems apply name et ((y :: pre) ++ x :: post)%list
        i et arr err h
      = PkgPatch.range_elems apply name et (pre ++ x :: post)%list
          (S i) et (<[i := Convert y et]> arr) err h).
    { destruct y; try discriminate Hym; try discriminate Hyc;
        unfold CanConvert in Hyc; simpl in Hyc |- *; injection Hyc as Hyc;
        now rewrite Hyc, Ha. }
    rewrite Hstep. apply IH.
Qed.

(** A sequence with an element that is not a mapping and does not
    convert to the element type, after elements that do: the call ends
    with the conversion error naming the key, and the heap, the field
    included, is as it was; the elements converted so far are dropped. *)
Theorem element_conversion_failure_leaves_field
    (h : heap) (target : value) (dst : Struct) (key : string) (f : Field)
    (et : type) (pre : list value) (x : value) (post : list value)
    (rest : list (string * value)) (changed : bool) (err : option string) :
  findField h dst key = Some f ->
  ftype f = TSlice et ->
  TypeOf (Value f) = Some (TSlice et) ->
  Forall (fun x => not_mapping x = true /\ CanConvert x (Some et) = Some true) pre ->
  not_mapping x = true ->
  CanConvert x (Some et) = Some false ->
  range_patch (fun key val => PkgPatch.ApplyEntry val target dst key)
    ((key, VSlice TIface (Some (pre ++ x :: post)%list)) :: rest) changed err h
  = Return
      (if DeepEqual h (VSlice TIface (Some (pre ++ x :: post)%list)) (Value f)
       then changed else true)
      (Some ("can't convert " ++ key ++ " to dst type")) h.
Proof.
  intros Hf Hft Hty Hpre Hm Hx.
  rewrite range_patch_cons, ApplyEntry_eq, Hf.
  unfold PkgPatch.assign, FieldKind. rewrite Hft. simpl. rewrite Hty.
  rewrite (range_elems_stops _ key et pre x post err h Hpre Hm Hx).
  now destruct (DeepEqual h _ (Value f)).
Qed.

(** [TestSkipConversionErrors], with a string before the numbers. *)
Lemma element_conversion_failure_leaves_field_witness :
  range_patch
    (fun key val =>
       PkgPatch.ApplyEntry val (Fixtures.ref Fixtures.Cast) (SAddr 0) key)
    [("characters",
      VSlice TIface
        (Some ([Fixtures.str "Darth Vader"] ++ Fixtures.num 2 :: [Fixtures.num 3])%list))]
    false None Fixtures.cast
  = Return true (Some "can't convert characters to dst type") Fixtures.cast.
Proof.
  apply (element_conversion_failure_leaves_field Fixtures.cast
           (Fixtures.ref Fixtures.Cast) (SAddr 0) "characters"
           (MkField (Fixtures.field "Characters" "characters")
              (TSlice Fixtures.string_t) 0
              (VSlice Fixtures.string_t (Some [Fixtures.str "Anakin Skywalker"])))
           Fixtures.string_t [Fixtures.str "Darth Vader"] (Fixtures.num 2)
           [Fixtures.num 3] [] false None);
    try reflexivity.
  repeat constructor.
Defined.

(** * The earlier revision of [Apply] *)

Lemma Part000_ApplyEntry_eq val target dst key changed err h :
  Part000.ApplyEntry val target dst key changed err h =
  match findField h dst key with
  | None => Continue changed err h
  | Some dstField =>
      if kind_eqb (FieldKind dstField) KStruct
         || (kind_eqb (FieldKind dstField) KPointer
             && kind_eqb (IndirectKind h (Value dstField)) KStruct) then
        match val with
        | VMap m =>
            match Part000.Apply h (Value dstField) m with
            | Panic => Done Panic
            | Return _ (Some iErr) h2 => Done (Return changed (Some iErr) h2)
            | Return iChanged None h2 => Continue (changed || iChanged) err h2
            end
        | VNilMap =>
            match Part000.Apply h (Value dstField) [] with
            | Panic => Done Panic
            | Return _ (Some iErr) h2 => Done (Return changed (Some iErr) h2)
            | Return iChanged None h2 => Continue (changed || iChanged) err h2
            end
        | _ => Done (Return changed (Some (key ++ " is not a struct")) h)
        end
      else Part000.assign val dst key dstField changed err h
  end.
Proof. destruct val; reflexivity. Qed.

(** In the earlier revision a patch value that is a pointer has the
    effect and the error of the value it points to: for a field that is
    neither a record, a pointer to a record nor a slice, the entry of
    the pointer and the entry of its pointee leave the same heap and
    the same error, and differ at most in the change flag. *)
Theorem Part000_pointer_acts_as_pointee
    (h : heap) (target : value) (dst : Struct) (key : string) (f : Field)
    (t : type) (p : nat) (x : value) (changed : bool) (err : option string) :
  findField h dst key = Some f ->
  kind_eqb (FieldKind f) KStruct
  || (kind_eqb (FieldKind f) KPointer
      && kind_eqb (IndirectKind h (Value f)) KStruct) = false ->
  kind_eqb (FieldKind f) KSlice = false ->
  h !! p = Some x ->
  Part000.Indirect h x = Some x ->
  forget_changed
    (Part000.ApplyEntry (VPtr t (Some p)) target dst key changed err h)
  = forget_changed (Part000.ApplyEntry x target dst key changed err h).
Proof.
  intros Hf Hrec Hs Hp Hx. rewrite !Part000_ApplyEntry_eq, Hf, Hrec.
  unfold Part000.assign. rewrite Hs, Hx. cbn [Part000.Indirect]. rewrite Hp.
  cbn [from_option].
  destruct (CanConvert x (TypeOf (Value f))) as [[]|]; try reflexivity.
  destruct (TypeOf (Value f)); try reflexivity.
  destruct (FieldSet h dst f _); reflexivity.
Qed.

(** The salary patched with a pointer to 100500 and with 100500. *)
Lemma Part000_pointer_acts_as_pointee_witness :
  forget_changed
    (Part000.ApplyEntry (VPtr Fixtures.int_t (Some 1%nat))
       (Fixtures.ref Fixtures.Employee) (SAddr 0) "salary" false None
       Fixtures.anakin_raise)
  = forget_changed
      (Part000.ApplyEntry (VInt Fixtures.int_t 100500)
         (Fixtures.ref Fixtures.Employee) (SAddr 0) "salary" false None
         Fixtures.anakin_raise).
Proof.
  apply (Part000_pointer_acts_as_pointee Fixtures.anakin_raise
           (Fixtures.ref Fixtures.Employee) (SAddr 0) "salary"
           (MkField (Fixtures.field "Salary" "salary") Fixtures.int_t 1
              (VInt Fixtures.int_t 123))
           Fixtures.int_t 1%nat (VInt Fixtures.int_t 100500) false None);
    reflexivity.
Defined.

(** The earlier revision does not allocate: a mapping against a nil
    pointer-to-record field is taken for a scalar and refused with the
    conversion error naming the key; the heap is untouched and
    [changed] is [true]. *)
Theorem Part000_nil_pointer_is_refused
    (h : heap) (target : value) (dst : Struct) (key : string)
    (m : list (string * value)) (f : Field) (pt : type)
    (rest : list (string * value)) (changed : bool) (err : option string) :
  findField h dst key = Some f ->
  ftype f = TPtr pt ->
  Value f = VPtr pt None ->
  range_patch (fun key val => Part000.ApplyEntry val target dst key)
    ((key, VMap m) :: rest) changed err h
  = Return true (Some ("can't convert " ++ key ++ " to dst type")) h.
Proof.
  intros Hf Hft Hfv. rewrite range_patch_cons, Part000_ApplyEntry_eq, Hf.
  unfold FieldKind. rewrite Hft, Hfv. cbn [Kind kind_eqb IndirectKind andb orb].
  unfold Part000.assign, FieldKind. rewrite Hft, Hfv.
  cbn [Kind kind_eqb Part000.Indirect from_option Value fvalue].
  assert (Hde : DeepEqual h (VMap m) (VPtr pt None) = false).
  { destruct (DeepEqual h (VMap m) (VPtr pt None)) eqn:E; [|reflexivity].
    apply DeepEqual_TypeOf in E. discriminate E. }
  rewrite Hde.
  assert (Hcc : CanConvert (VMap m) (TypeOf (VPtr pt None)) = Some false).
  { unfold CanConvert. cbn [TypeOf]. reflexivity. }
  now rewrite Hcc.
Qed.

(** [TestApplyNilSubStructs] against the earlier revision. *)
Lemma Part000_nil_pointer_is_refused_witness :
  range_patch
    (fun key val =>
       Part000.ApplyEntry val (Fixtures.ref Fixtures.Contacted) (SAddr 0) key)
    [("contact",
      VMap [("first_name", Fixtures.str "Darth");
            ("last_name", Fixtures.str "Vader")])]
    false None Fixtures.no_contact
  = Return true (Some "can't convert contact to dst type") Fixtures.no_contact.
Proof.
  apply (Part000_nil_pointer_is_refused Fixtures.no_contact
           (Fixtures.ref Fixtures.Contacted) (SAddr 0) "contact"
           [("first_name", Fixtures.str "Darth");
            ("last_name", Fixtures.str "Vader")]
           (MkField (Fixtures.field "Contact" "contact")
              (TPtr Fixtures.TargetPerson) 0 (VPtr Fixtures.TargetPerson None))
           Fixtures.TargetPerson [] false None);
    reflexivity.
Defined.

(** In the earlier revision a value that is not a mapping against a
    record field, or a field that points to a record, ends the call with
    ["<key> is not a struct"] before anything is compared: [changed] is
    what it was and the heap is untouched. *)
Theorem Part000_not_a_struct
    (h : heap) (target : value) (dst : Struct) (key : string) (val : value)
    (f : Field) (rest : list (string * value)) (changed : bool)
    (err : option string) :
  findField h dst key = Some f ->
  kind_eqb (FieldKind f) KStruct
  || (kind_eqb (FieldKind f) KPointer
      && kind_eqb (IndirectKind h (Value f)) KStruct) = true ->
  not_mapping val = true ->
  range_patch (fun key val => Part000.ApplyEntry val target dst key)
    ((key, val) :: rest) changed err h
  = Return changed (Some (key ++ " is not a struct")) h.
Proof.
  intros Hf Hrec Hm. rewrite range_patch_cons, Part000_ApplyEntry_eq, Hf, Hrec.
  destruct val; try discriminate Hm; reflexivity.
Qed.

Lemma Part000_not_a_struct_witness :
  range_patch
    (fun key val =>
       Part000.ApplyEntry val (Fixtures.ref Fixtures.Contacted) (SAddr 0) key)
    [("contact", Fixtures.str "Darth Vader"); ("salary", Fixtures.num 1)]
    false None Fixtures.contacted
  = Return false (Some "contact is not a struct") Fixtures.contacted.
Proof.
  apply (Part000_not_a_struct Fixtures.contacted
           (Fixtures.ref Fixtures.Contacted) (SAddr 0) "contact"
           (Fixtures.str "Darth Vader")
           (MkField (Fixtures.field "Contact" "contact")
              (TPtr Fixtures.TargetPerson) 0
              (VPtr Fixtures.TargetPerson (Some 1%nat))));
    reflexivity.
Defined.

Lemma Part000_range_patch_not_found target dst (patch : list (string * value))
    changed err h :
  Forall (fun kv => findField h dst (fst kv) = None) patch ->
  range_patch (fun key val => Part000.ApplyEntry val target dst key)
    patch changed err h = Return changed err h.
Proof.
  induction 1 as [|[k v] patch Hk _ IH]; [reflexivity|].
  rewrite range_patch_cons, Part000_ApplyEntry_eq. simpl in Hk. now rewrite Hk.
Qed.

(** The earlier revision, too, skips keys that resolve to no exported
    field: a patch of such keys only (the empty patch included) returns
    [changed = false] and no error and leaves the heap as it is. *)
Theorem Part000_unknown_keys_are_skipped
    (h : heap) (target : value) (dst : Struct) (patch : list (string * value)) :
  New h target = Some dst ->
  Forall (fun kv => findField h dst (fst kv) = None) patch ->
  Part000.Apply h target patch = Return false None h.
Proof.
  intros Hnew Hkeys. unfold Part000.Apply, Apply_with. rewrite Hnew.
  now apply Part000_range_patch_not_found.
Qed.

Lemma Part000_unknown_keys_are_skipped_witness :
  Part000.Apply Fixtures.anakin (Fixtures.ref Fixtures.Employee)
    [("middle_name", Fixtures.str "Sheev"); ("perk", Fixtures.str "pilot")]
  = Return false None Fixtures.anakin.
Proof.
  apply (Part000_unknown_keys_are_skipped Fixtures.anakin
           (Fixtures.ref Fixtures.Employee) (SAddr 0));
    [reflexivity | repeat constructor].
Defined.

Lemma Part000_range_elems_all (name : string) (et : type) (xs : list value)
    (done todo : list value) :
  Forall (fun x => CanConvert x (Some et) = Some true) xs ->
  length todo = length xs ->
  Part000.range_elems name et xs (length done) (done ++ todo)%list
  = Some (inr (done ++ List.map (fun x => Convert x et) xs)%list).
Proof.
  intros Hxs. revert done todo.
  induction Hxs as [|x xs Hc _ IH]; intros done [|t todo] Hlen;
    try discriminate Hlen.
  - reflexivity.
  - simpl. rewrite Hc.
    replace (<[length done := Convert x et]> (done ++ t :: todo)%list)
      with ((done ++ [Convert x et]) ++ todo)%list.
    + replace (S (length done)) with (length (done ++ [Convert x et])%list)
        by (rewrite length_app; simpl; lia).
      rewrite IH by (simpl in Hlen; lia).
      now rewrite <- app_assoc.
    + rewrite insert_app_r_alt by lia.
      rewrite Nat.sub_diag. simpl. now rewrite <- app_assoc.
Qed.

(** In the earlier revision every element of a patch sequence is
    converted, a mapping like any other value: a slice field patched
    with a sequence whose elements all convert to the element type is
    assigned a new slice with one converted element per patch element,
    whatever it held before. *)
Theorem Part000_sequence_replaced
    (h : heap) (a : nat) (t : type) (vs : list value) (target : value)
    (key : string) (f : Field) (et : type) (xs : list value)
    (rest : list (string * value)) (changed : bool) :
  h !! a = Some (VStruct t vs) ->
  findField h (SAddr a) key = Some f ->
  ftype f = TSlice et ->
  TypeOf (Value f) = Some (TSlice et) ->
  Forall (fun x => CanConvert x (Some et) = Some true) xs ->
  range_patch (fun key val => Part000.ApplyEntry val target (SAddr a) key)
    ((key, VSlice TIface (Some xs)) :: rest) changed None h
  = range_patch (fun key val => Part000.ApplyEntry val target (SAddr a) key)
      rest
      (if DeepEqual h (VSlice TIface (Some xs)) (Value f) then changed else true)
      None
      (<[a := VStruct t
                (<[findex f := VSlice et (Some (List.map (fun x => Convert x et) xs))]>
                   vs)]> h).
Proof.
  intros Hc Hf Hft Hty Hxs.
  assert (He : IsExported f = true).
  { unfold findField in Hf. now destruct (findField_in_In _ _ _ Hf). }
  rewrite range_patch_cons, Part000_ApplyEntry_eq, Hf.
  unfold FieldKind. rewrite Hft. cbn [Kind kind_eqb andb orb].
  unfold Part000.assign, FieldKind. rewrite Hft.
  cbn [Kind kind_eqb Part000.Indirect from_option Len default]. rewrite Hty.
  pose proof (Part000_range_elems_all key et xs [] (MakeSlice et (length xs))
                Hxs (length_replicate _ _)) as Hr.
  simpl in Hr. change (id xs) with xs. rewrite Hr.
  rewrite (FieldSet_cell _ _ _ _ _ _ Hc He).
  - now destruct (DeepEqual h _ (Value f)).
  - unfold FieldKind. now rewrite Hft.
  - rewrite Hft. now apply assignable_own_type.
Qed.

(** A slice of values of any type patched with a sequence that holds a
    mapping: the earlier revision stores the mapping. *)
Lemma Part000_sequence_replaced_witness :
  range_patch
    (fun key val =>
       Part000.ApplyEntry val (Fixtures.ref Fixtures.Bag) (SAddr 0) key)
    [("things", VSlice TIface (Some [VMap []; Fixtures.num 7]))]
    false None Fixtures.bag
  = Return true None
      [VStruct Fixtures.Bag
         [VSlice TIface (Some [VMap []; Fixtures.num 7])]].
Proof.
  apply (Part000_sequence_replaced Fixtures.bag 0 Fixtures.Bag
           [VSlice TIface None] (Fixtures.ref Fixtures.Bag) "things"
           (MkField (Fixtures.field "Things" "things") (TSlice TIface) 0
              (VSlice TIface None))
           TIface [VMap []; Fixtures.num 7] [] false);
    try reflexivity.
  repeat constructor.
Defined.

(** ** The two revisions on records of basic fields *)

Lemma revisions_agree_on_entry (h : heap) (a : nat) (n : string)
    (ds : list (finfo * type)) (vs : list value) val target key c e :
  h !! a = Some (VStruct (TStruct n ds) vs) ->
  flat_record ds vs = true ->
  not_pointer val = true ->
  Part000.ApplyEntry val target (SAddr a) key c e h
  = PkgPatch.ApplyEntry val target (SAddr a) key c e h.
Proof.
  intros Hc Hflat Hnp. rewrite Part000_ApplyEntry_eq, ApplyEntry_eq.
  destruct (findField h (SAddr a) key) as [f|] eqn:Hf; [|reflexivity].
  destruct (findField_cell _ _ _ _ _ _ _ Hc Hf) as (Hv & Hd & He).
  pose proof (flat_record_lookup _ _ _ _ _ _ Hflat Hd Hv) as Hb.
  destruct (holds_basic_kind _ _ Hb) as [b Hk].
  assert (Hp : kind_eqb (FieldKind f) KPointer = false
               /\ kind_eqb (FieldKind f) KStruct = false
               /\ kind_eqb (FieldKind f) KSlice = false).
  { unfold FieldKind. rewrite Hk. now destruct b. }
  destruct Hp as (Hp & Hs & Hsl). rewrite Hp, Hs. cbn [andb orb].
  assert (Hassign : forall e',
    Part000.assign val (SAddr a) key f c e h
    = PkgPatch.assign val (SAddr a) key f c e' h).
  { intros e'. unfold Part000.assign, PkgPatch.assign. rewrite Hsl.
    destruct val; try discriminate Hnp; cbn [Part000.Indirect from_option];
      try reflexivity;
      now destruct (CanConvert _ (TypeOf (Value f))) as [[]|]. }
  destruct val; apply Hassign.
Qed.

(** On a record of basic fields the two revisions do the same: for a
    patch whose values are not pointers they return the same flag, the
    same error and the same heap. *)
Theorem revisions_agree_on_flat_records
    (h : heap) (a : nat) (n : string) (ds : list (finfo * type))
    (vs : list value) (patch : list (string * value)) :
  h !! a = Some (VStruct (TStruct n ds) vs) ->
  flat_record ds vs = true ->
  Forall (fun kv => well_kinded (snd kv) && not_pointer (snd kv) = true) patch ->
  Part000.Apply h (VPtr (TStruct n ds) (Some a)) patch
  = PkgPatch.Apply h (VPtr (TStruct n ds) (Some a)) patch.
Proof.
  intros Hc Hflat Hpatch. unfold Part000.Apply, PkgPatch.Apply, Apply_with.
  rewrite (New_pointer _ _ _ _ _ Hc) by reflexivity.
  generalize false as c. generalize (@None string) as e.
  revert vs h Hc Hflat.
  induction Hpatch as [|[k v] patch Hv _ IH]; intros vs h Hc Hflat e c;
    [reflexivity|].
  simpl in Hv. apply andb_true_iff in Hv. destruct Hv as [Hw Hnp].
  rewrite !range_patch_cons.
  rewrite (revisions_agree_on_entry h a n ds vs v _ k c e Hc Hflat Hnp).
  pose proof (ApplyEntry_flat_step h a n ds vs v
                (VPtr (TStruct n ds) (Some a)) k c e Hc Hflat Hw) as Hstep.
  destruct (PkgPatch.ApplyEntry v _ (SAddr a) k c e h) as [o|c' e' h2];
    [reflexivity|].
  destruct Hstep as [->|(f & Hf & Hcb & ->)].
  - now apply (IH vs).
  - destruct (findField_cell _ _ _ _ _ _ _ Hc Hf) as (_ & Hd & _).
    apply (IH (<[findex f := Convert v (ftype f)]> vs)).
    + apply list_lookup_insert_eq. eapply lookup_lt_Some; eassumption.
    + eapply flat_record_insert; eassumption.
Qed.

(** [TestApplyZeroValueFields] gives the same in both revisions. *)
Lemma revisions_agree_on_flat_records_witness :
  Part000.Apply Fixtures.han (VPtr Fixtures.Pilot (Some O))
    [("name", Fixtures.str "Chubacca"); ("salary", Fixtures.num 0);
     ("on_duty", VBool Fixtures.bool_t false)]
  = PkgPatch.Apply Fixtures.han (VPtr Fixtures.Pilot (Some O))
      [("name", Fixtures.str "Chubacca"); ("salary", Fixtures.num 0);
       ("on_duty", VBool Fixtures.bool_t false)].
Proof.
  apply (revisions_agree_on_flat_records Fixtures.han 0 "Target"
           [(Fixtures.field "Name" "name", Fixtures.string_t);
            (Fixtures.field "Salary" "salary", Fixtures.int64_t);
            (Fixtures.field "OnDuty" "on_duty", Fixtures.bool_t)]
           [Fixtures.str "Han Solo"; VInt Fixtures.int64_t 15;
            VBool Fixtures.bool_t true]);
    try reflexivity.
  repeat constructor.
Defined.

(** * Further edges of [Apply] *)

(** ** Nil pointers to records: the edges *)

(** [Apply] takes the type of the nil pointer field from
    [reflect.TypeOf(target)] with one [Elem()]: for a target that is a
    pointer to a pointer to the record that is still a pointer type, and
    [FieldByName] panics.  So a mapping against a nil pointer field
    panics when the caller passes the address of a variable that holds
    the pointer to the record. *)
Theorem nil_pointer_field_under_double_pointer_panics
    (h : heap) (target : value) (dst : Struct) (key : string)
    (m : list (string * value)) (f : Field) (t : type)
    (rest : list (string * value)) (changed : bool) (err : option string) :
  TypeOf target = Some (TPtr (TPtr t)) ->
  findField h dst key = Some f ->
  kind_eqb (FieldKind f) KPointer = true ->
  IsZero h f = true ->
  range_patch (fun key val => PkgPatch.ApplyEntry val target dst key)
    ((key, VMap m) :: rest) changed err h = Panic.
Proof.
  intros Ht Hf Hk Hz. rewrite range_patch_cons, ApplyEntry_eq, Hf, Hk, Hz.
  cbn [andb]. unfold PkgPatch.assign_new, target_type. rewrite Ht.
  reflexivity.
Qed.

(** [TestApplyNilSubStructs] called as in [TestUpdateArrays], with the
    address of a variable that holds the pointer. *)
Lemma nil_pointer_field_under_double_pointer_panics_witness :
  range_patch
    (fun key val =>
       PkgPatch.ApplyEntry val (VPtr (TPtr Fixtures.Contacted) (Some 1%nat))
         (SAddr 0) key)
    [("contact", VMap [("first_name", Fixtures.str "Darth")])] false None
    (Fixtures.no_contact ++ [VPtr Fixtures.Contacted (Some O)])%list
  = Panic.
Proof.
  apply (nil_pointer_field_under_double_pointer_panics
           (Fixtures.no_contact ++ [VPtr Fixtures.Contacted (Some O)])%list
           (VPtr (TPtr Fixtures.Contacted) (Some 1%nat)) (SAddr 0) "contact"
           [("first_name", Fixtures.str "Darth")]
           (MkField (Fixtures.field "Contact" "contact")
              (TPtr Fixtures.TargetPerson) 0 (VPtr Fixtures.TargetPerson None))
           Fixtures.Contacted);
    reflexivity.
Defined.



(** ** Fields of interface type *)

(** A field declared as [interface{}] is never assigned: [Field.Set]
    compares the kind of the field, [Interface], with the kind of the
    converted value, which is the kind of a concrete type.  Whatever the
    patch value, the entry ends the call with an error or a panic, and
    the heap is as it was. *)
Theorem interface_field_is_never_assigned
    (h : heap) (target : value) (a : nat) (key : string) (val : value)
    (f : Field) (t : type) (changed : bool) (err : option string) :
  findField h (SAddr a) key = Some f ->
  kind_eqb (FieldKind f) KInterface = true ->
  TypeOf (Value f) = Some t ->
  kind_eqb (Kind t) KInterface = false ->
  match PkgPatch.ApplyEntry val target (SAddr a) key changed err h with
  | Continue _ _ _ | Done (Return _ None _) => False
  | Done (Return _ (Some _) h') => h' = h
  | Done Panic => True
  end.
Proof.
  intros Hf Hk Hty Ht.
  assert (Hkinds : kind_eqb (FieldKind f) KPointer = false
                   /\ kind_eqb (FieldKind f) KStruct = false
                   /\ kind_eqb (FieldKind f) KSlice = false).
  { destruct (FieldKind f); try discriminate Hk. auto. }
  destruct Hkinds as (Hp & Hs & Hsl).
  assert (Hassign : forall c' e',
    match PkgPatch.assign val (SAddr a) key f c' e' h with
    | Continue _ _ _ | Done (Return _ None _) => False
    | Done (Return _ (Some _) h') => h' = h
    | Done Panic => True
    end).
  { intros c' e'. unfold PkgPatch.assign. rewrite Hsl, Hty.
    destruct (CanConvert val (Some t)) as [[]|] eqn:Hcan; trivial.
    pose proof (Convert_TypeOf _ _ Hcan Ht) as Hct.
    unfold FieldSet. destruct (negb (IsExported f)); trivial.
    assert (Hne : kind_eqb (FieldKind f) (ValueKind (Convert val t)) = false).
    { unfold ValueKind. rewrite Hct.
      destruct (FieldKind f); try discriminate Hk.
      destruct (Kind t); try discriminate Ht; reflexivity. }
    now rewrite Hne. }
  rewrite ApplyEntry_eq, Hf, Hp, Hs. cbn [andb orb].
  destruct val; apply Hassign.
Qed.

(** A string against an [interface{}] field that holds a string: the
    entry ends with the error of [Field.Set]. *)
Lemma interface_field_is_never_assigned_witness :
  match PkgPatch.ApplyEntry (Fixtures.str "coaxium")
          (Fixtures.ref Fixtures.Cargo) (SAddr 0) "label" false None
          Fixtures.cargo with
  | Continue _ _ _ | Done (Return _ None _) => False
  | Done (Return _ (Some _) h') => h' = Fixtures.cargo
  | Done Panic => True
  end.
Proof.
  apply (interface_field_is_never_assigned Fixtures.cargo
           (Fixtures.ref Fixtures.Cargo) 0 "label" (Fixtures.str "coaxium")
           (MkField (Fixtures.field "Label" "label") TIface 0
              (Fixtures.str "spice"))
           Fixtures.string_t false None);
    reflexivity.
Defined.

(** ** The errors of [Apply] *)

Lemma string_length_app (a b : string) :
  String.length (a ++ b) = (String.length a + String.length b)%nat.
Proof. induction a as [|c a IH]; simpl; [reflexivity | now rewrite IH]. Qed.

Lemma last_chars_app (n : nat) (p t : string) :
  (n <= String.length t)%nat -> last_chars n (p ++ t) = last_chars n t.
Proof.
  intros Hn. induction p as [|c p IH]; [reflexivity|].
  unfold last_chars in *. simpl.
  pose proof (string_length_app p t) as Hl.
  replace (S (String.length (p ++ t)) - n)%nat
    with (S (String.length (p ++ t) - n)) by lia.
  exact IH.
Qed.

Lemma apply_error_not_a_struct (e k : string) :
  apply_error e -> e <> k ++ " is not a struct".
Proof.
  intros He Heq. apply (f_equal (last_chars 8)) in Heq.
  rewrite (last_chars_app 8 k) in Heq by (simpl; lia).
  destruct He as [k'|k'| |got want].
  - rewrite (last_chars_app 8 "can't convert "), (last_chars_app 8 k') in Heq
      by (rewrite ?string_length_app; simpl; lia).
    discriminate Heq.
  - rewrite (last_chars_app 8 k') in Heq by (simpl; lia). discriminate Heq.
  - discriminate Heq.
  - rewrite (last_chars_app 8 "wrong kind. got: "),
      (last_chars_app 8 (kind_string got)) in Heq
      by (rewrite ?string_length_app; destruct want; simpl; lia).
    destruct want; discriminate Heq.
Qed.

Lemma FieldSet_error (h : heap) (dst : Struct) (f : Field) (v : value) (e : string) :
  IsExported f = true -> FieldSet h dst f v = SetErr e -> apply_error e.
Proof.
  intros He. unfold FieldSet. rewrite He. cbn [negb].
  destruct dst as [a|sv].
  - destruct (negb (kind_eqb (FieldKind f) (ValueKind v))).
    + intros [= <-]. apply wrong_kind.
    + destruct (assignable (ftype f) v); [|discriminate].
      destruct (h !! a) as [[]|]; discriminate.
  - intros [= <-]. apply not_settable.
Qed.

Lemma range_elems_error apply (name : string) (slot : type) (xs : list value) :
  (forall x m tgt h, In x xs -> as_mapping x = Some m ->
     outcome_error (apply tgt m h)) ->
  forall i det arr h,
    match PkgPatch.range_elems apply name slot xs i det arr None h with
    | EPanic => True
    | EErr e _ => apply_error e
    | EOk _ err _ => err = None
    end.
Proof.
  induction xs as [|x xs IH]; intros Happly i det arr h; [reflexivity|].
  assert (IH' := IH (fun x m tgt h H => Happly x m tgt h (or_intror H))).
  rewrite range_elems_cons.
  destruct (as_mapping x) as [m|] eqn:Hm; cycle 1.
  { destruct (CanConvert x (Some det)) as [[]|]; trivial.
    - destruct (assignable slot _); trivial. apply IH'.
    - apply cannot_convert. }
  pose proof (Happly x m (VPtr (elem_if_pointer det) (Some (length h)))
                (h ++ [zero (elem_if_pointer det)])%list (or_introl eq_refl) Hm)
    as Ho.
  destruct (apply _ m _) as [|c [e|] h2]; simpl in Ho; trivial.
  destruct (assignable slot _); trivial. apply IH'.
Qed.

Lemma assign_error (val : value) (dst : Struct) (name : string) (f : Field)
    (changed : bool) (err : option string) (h : heap) :
  IsExported f = true ->
  (kind_eqb (FieldKind f) KSlice = true -> err = None) ->
  (forall m tgt h, (msize m < vsize val)%nat ->
     outcome_error (PkgPatch.Apply h tgt m)) ->
  step_error (PkgPatch.assign val dst name f changed err h).
Proof.
  intros He Herr IH. unfold PkgPatch.assign.
  destruct (kind_eqb (FieldKind f) KSlice).
  - rewrite (Herr eq_refl).
    destruct (TypeOf (Value f)) as [[| | | |et| |]|]; simpl; trivial.
    destruct (Len val); simpl; trivial.
    destruct val as [| | | | | | |[| | | | | |] arr| |]; simpl;
      try apply not_an_array.
    assert (Hr : match
        match arr with
        | Some xs =>
            PkgPatch.range_elems (Apply_with PkgPatch.ApplyEntry) name et xs 0
              et (MakeSlice et n) None h
        | None => EOk (MakeSlice et n) None h
        end
      with
      | EPanic => True
      | EErr e _ => apply_error e
      | EOk _ err _ => err = None
      end).
    { destruct arr as [xs|]; [|reflexivity].
      apply range_elems_error. intros x m tgt h0 Hin Hm. apply (IH m tgt h0).
      pose proof (list_sum_In _ _ Hin) as Hs.
      pose proof (as_mapping_size _ _ Hm). simpl. lia. }
    destruct (match arr with Some _ => _ | None => _ end)
      as [|e h'|arr' [e|] h']; simpl; trivial; [discriminate Hr|].
    destruct (FieldSet h' dst f _) eqn:Hs; simpl; trivial.
    eapply FieldSet_error; eassumption.
  - destruct (CanConvert val (TypeOf (Value f))) as [[]|]; simpl; trivial;
      [|apply cannot_convert].
    destruct (TypeOf (Value f)) as [t|]; simpl; trivial.
    destruct (FieldSet h dst f _) eqn:Hs; simpl; trivial.
    eapply FieldSet_error; eassumption.
Qed.

Lemma ApplyEntry_error (val target : value) (dst : Struct) (key : string)
    (changed : bool) (h : heap) :
  (forall m tgt h, (msize m < vsize val)%nat ->
     outcome_error (PkgPatch.Apply h tgt m)) ->
  step_error (PkgPatch.ApplyEntry val target dst key changed None h).
Proof.
  intros IH. rewrite ApplyEntry_mapping.
  destruct (findField h dst key) as [f|] eqn:Hf; [|reflexivity].
  assert (He : IsExported f = true).
  { unfold findField in Hf. now destruct (findField_in_In _ _ _ Hf). }
  assert (Hassign : forall err,
    (kind_eqb (FieldKind f) KSlice = true -> err = None) ->
    step_error (PkgPatch.assign val dst key f changed err h)).
  { intros err Herr. now apply assign_error. }
  destruct (as_mapping val) as [m|] eqn:Hm; cycle 1.
  { apply Hassign. destruct (FieldKind f); simpl; congruence. }
  pose proof (as_mapping_size _ _ Hm) as Hsize.
  destruct (kind_eqb (FieldKind f) KPointer && IsZero h f).
  - unfold PkgPatch.assign_new.
    destruct (target_type target) as [tt|]; simpl; trivial.
    destruct (FieldByName tt (Name f)) as [st|]; simpl; trivial.
    pose proof (IH m (VPtr (elem_if_pointer st) (Some (length h)))
                  (h ++ [zero (elem_if_pointer st)])%list ltac:(lia)) as Ho.
    destruct (PkgPatch.Apply _ _ m) as [|c [e|] h2]; simpl in Ho |- *; trivial.
    destruct (FieldSet h2 dst f _) eqn:Hs; simpl; trivial.
    eapply FieldSet_error; eassumption.
  - destruct (kind_eqb (FieldKind f) KStruct || _).
    + pose proof (IH m (Value f) h ltac:(lia)) as Ho.
      destruct (PkgPatch.Apply h (Value f) m) as [|c [e|] h2];
        simpl in Ho |- *; trivial.
    + now apply Hassign.
Qed.

Lemma range_patch_error (target : value) (dst : Struct) (m : list (string * value)) :
  (forall k v c h, In (k, v) m ->
     step_error (PkgPatch.ApplyEntry v target dst k c None h)) ->
  forall c h,
    outcome_error
      (range_patch (fun key val => PkgPatch.ApplyEntry val target dst key)
         m c None h).
Proof.
  induction m as [|[k v] m IH]; intros Hentry c h; simpl; [trivial|].
  pose proof (Hentry k v c h (or_introl eq_refl)) as Hs.
  destruct (PkgPatch.ApplyEntry v target dst k c None h) as [o|c' e' h'];
    simpl in Hs; [exact Hs|]. subst e'.
  apply IH. intros k0 v0 c0 h0 H. apply Hentry. now right.
Qed.

Lemma Apply_outcome_error (m : list (string * value)) (target : value) (h : heap) :
  outcome_error (PkgPatch.Apply h target m).
Proof.
  remember (msize m) as n eqn:Hn. revert m Hn target h.
  induction n as [n IH] using lt_wf_ind. intros m -> target h.
  unfold PkgPatch.Apply, Apply_with.
  destruct (New h target) as [dst|]; simpl; trivial.
  apply range_patch_error. intros k v c h0 Hin.
  apply ApplyEntry_error. intros m' tgt h1 Hlt.
  apply (IH (msize m')); trivial.
  pose proof (msize_In _ _ _ Hin). lia.
Qed.

(** Every error [Apply] returns is the conversion error or the
    not-an-array error for some key, or the not-settable or wrong-kind
    error of [Field.Set].  The message ["<key> is not a struct"] that
    line 58 puts into [err] is never returned: the conversion check or
    [Field.Set] overwrites it. *)
Theorem Apply_returns_known_errors
    (h : heap) (target : value) (patch : list (string * value)) (c : bool)
    (e : string) (h' : heap) :
  PkgPatch.Apply h target patch = Return c (Some e) h' ->
  apply_error e /\ forall k, e <> k ++ " is not a struct".
Proof.
  intros H. pose proof (Apply_outcome_error patch target h) as Ho.
  rewrite H in Ho. simpl in Ho.
  split; [exact Ho | intros k; now apply apply_error_not_a_struct].
Qed.

(** [TestApplyDetectsWrongType]: a string against an [int] field. *)
Lemma Apply_returns_known_errors_witness :
  apply_error "can't convert salary to dst type"
  /\ forall k, "can't convert salary to dst type" <> k ++ " is not a struct".
Proof.
  apply (Apply_returns_known_errors Fixtures.anakin
           (Fixtures.ref Fixtures.Employee) [("salary", Fixtures.str "euros")]
           true "can't convert salary to dst type" Fixtures.anakin).
  reflexivity.
Defined.

(** * The change flag, at any depth *)

Lemma steps_app entry (pre m : list (string * value)) c e h :
  steps entry (pre ++ m)%list c e h
  = match steps entry pre c e h with
    | Some (c1, e1, h1) => steps entry m c1 e1 h1
    | None => None
    end.
Proof.
  revert c e h; induction pre as [|[k v] pre IH]; intros c e h; simpl;
    [reflexivity|].
  destruct (entry k v c e h); [reflexivity | apply IH].
Qed.

Lemma unequal_app (h : heap) (target : value) (p q : list (string * value)) :
  unequal h target p -> unequal h target (p ++ q)%list.
Proof.
  intros H. destruct H; rewrite <- app_assoc; simpl.
  - eapply unequal_here; eassumption.
  - eapply unequal_nested; eassumption.
Qed.

Lemma app_cons_snoc {A} (pre1 rest1 pre : list A) (x y : A) :
  (pre1 ++ x :: rest1 = pre ++ [y])%list ->
  (pre1 = pre /\ x = y /\ rest1 = [])
  \/ exists r, (pre = pre1 ++ x :: r)%list /\ (rest1 = r ++ [y])%list.
Proof.
  destruct rest1 as [|z r _] using rev_ind.
  - intros H. apply app_inj_tail in H. destruct H. auto.
  - intros H. change (pre1 ++ x :: r ++ [z])%list with (pre1 ++ (x :: r) ++ [z])%list in H.
    rewrite app_assoc in H. apply app_inj_tail in H. destruct H as [<- ->].
    right. exists r. auto.
Qed.

(** An unequal comparison in a patch that ends with the entry
    [key, val] lies before that entry, or is or starts at it. *)
Lemma unequal_snoc (h : heap) (target : value) (dst : Struct)
    (pre : list (string * value)) (key : string) (val : value) c e h1 :
  New h target = Some dst ->
  steps (fun k v => PkgPatch.ApplyEntry v target dst k) pre false None h
  = Some (c, e, h1) ->
  unequal h target (pre ++ [(key, val)])%list ->
  unequal h target pre \/ entry_unequal h1 target dst key val.
Proof.
  intros Hn Hs H. remember (pre ++ [(key, val)])%list as p eqn:Hp.
  destruct H as [h target dst' pre1 k v rest1 c1 e1 h1' f Hn' Hs' Hf Hc Hd
                |h target dst' pre1 k v rest1 c1 e1 h1' f m h2 tgt Hn' Hs' Hf Hm Hc Hu];
    apply app_cons_snoc in Hp;
    destruct Hp as [(-> & [= -> ->] & ->)|(r & -> & ->)].
  - right. rewrite Hn in Hn'. injection Hn' as <-. rewrite Hs in Hs'.
    injection Hs' as <- <- <-. exists f. auto.
  - left. eapply unequal_here; eassumption.
  - right. rewrite Hn in Hn'. injection Hn' as <-. rewrite Hs in Hs'.
    injection Hs' as <- <- <-. exists f. split; [assumption|].
    right. exists m, h2, tgt. auto.
  - left. eapply unequal_nested; eassumption.
Qed.

Lemma entry_unequal_snoc (h : heap) (target : value) (dst : Struct)
    (pre rest : list (string * value)) (key : string) (val : value) c e h1 :
  New h target = Some dst ->
  steps (fun k v => PkgPatch.ApplyEntry v target dst k) pre false None h
  = Some (c, e, h1) ->
  entry_unequal h1 target dst key val ->
  unequal h target (pre ++ (key, val) :: rest)%list.
Proof.
  intros Hn Hs (f & Hf & [[Hc Hd]|(m & h2 & tgt & Hm & Hc & Hu)]).
  - eapply unequal_here; eassumption.
  - eapply unequal_nested; eassumption.
Qed.

(** The flag an entry leaves when it gets as far as the comparison. *)
Lemma assign_changed (val : value) (dst : Struct) (name : string) (f : Field)
    (changed : bool) (err : option string) (h : heap) :
  match PkgPatch.assign val dst name f changed err h with
  | Done Panic => True
  | Done (Return c _ _) | Continue c _ _ =>
      c = if DeepEqual h val (Value f) then changed else true
  end.
Proof.
  unfold PkgPatch.assign.
  destruct (DeepEqual h val (Value f)); simpl;
    repeat destruct_innermost; auto.
Qed.

(** What one entry does to the flag, given what its nested call
    does. *)
Lemma ApplyEntry_flag (val target : value) (dst : Struct) (key : string)
    (changed : bool) (h : heap) :
  (forall m tgt h, (msize m < vsize val)%nat ->
     flag_sound h tgt m (PkgPatch.Apply h tgt m)) ->
  match PkgPatch.ApplyEntry val target dst key changed None h with
  | Done Panic => True
  | Done (Return c _ _) =>
      c = true -> changed = true \/ entry_unequal h target dst key val
  | Continue c _ _ =>
      c = true <-> changed = true \/ entry_unequal h target dst key val
  end.
Proof.
  intros IH. rewrite ApplyEntry_mapping.
  destruct (findField h dst key) as [f|] eqn:Hf.
  2:{ split; [auto|]. intros [H|(f & Hf' & _)]; [assumption | congruence]. }
  assert (Hassign : forall err,
    compared h f val = true ->
    match PkgPatch.assign val dst key f changed err h with
    | Done Panic => True
    | Done (Return c _ _) =>
        c = true -> changed = true \/ entry_unequal h target dst key val
    | Continue c _ _ =>
        c = true <-> changed = true \/ entry_unequal h target dst key val
    end).
  { intros err Hc. pose proof (assign_changed val dst key f changed err h) as Ha.
    assert (Hiff : (if DeepEqual h val (Value f) then changed else true) = true
                   <-> changed = true \/ entry_unequal h target dst key val).
    { destruct (DeepEqual h val (Value f)) eqn:Hd.
      - split; [auto|]. intros [H|(f' & Hf' & H)]; [assumption|].
        rewrite Hf in Hf'. injection Hf' as <-.
        destruct H as [[_ H]|(m & h2 & tgt & Hm & Hn & _)]; [congruence|].
        unfold compared in Hc. rewrite Hm in Hc. unfold nested_call in Hn.
        destruct (allocates h f); [discriminate|].
        destruct (recurses h f); discriminate.
      - split; [|reflexivity]. intros _. right. exists f. auto. }
    destruct (PkgPatch.assign val dst key f changed err h) as [[|c e h']|c e h'];
      trivial; subst c; apply Hiff. }
  destruct (as_mapping val) as [m|] eqn:Hm; cycle 1.
  { apply Hassign. unfold compared. now rewrite Hm. }
  pose proof (as_mapping_size _ _ Hm) as Hsize.
  assert (Hnested : forall h2 tgt ic,
    nested_call h target f = Some (h2, tgt) ->
    (ic = true -> unequal h2 tgt m) ->
    (unequal h2 tgt m -> ic = true) ->
    changed || ic = true <-> changed = true \/ entry_unequal h target dst key val).
  { intros h2 tgt ic Hn H1 H2. rewrite orb_true_iff. split.
    - intros [H|H]; [auto|]. right. exists f. split; [assumption|].
      right. exists m, h2, tgt. auto.
    - intros [H|(f' & Hf' & H)]; [auto|]. right.
      rewrite Hf in Hf'. injection Hf' as <-.
      destruct H as [[Hc _]|(m' & h2' & tgt' & Hm' & Hn' & Hu)].
      + unfold compared in Hc. rewrite Hm in Hc. unfold nested_call in Hn.
        destruct (allocates h f); [discriminate|].
        destruct (recurses h f); discriminate.
      + rewrite Hm in Hm'. injection Hm' as <-. rewrite Hn in Hn'.
        injection Hn' as <- <-. auto. }
  fold (allocates h f). fold (recurses h f).
  destruct (allocates h f) eqn:Hal.
  - unfold PkgPatch.assign_new.
    destruct (target_type target) as [tt|] eqn:Htt; simpl; trivial.
    destruct (FieldByName tt (Name f)) as [st|] eqn:Hst; simpl; trivial.
    pose proof (IH m (VPtr (elem_if_pointer st) (Some (length h)))
                  (h ++ [zero (elem_if_pointer st)])%list ltac:(lia)) as Ho.
    destruct (PkgPatch.Apply _ _ m) as [|ic [e|] h2]; simpl in Ho |- *; auto.
    destruct (FieldSet h2 dst f _) eqn:Hs; simpl; auto.
    destruct Ho as [H1 H2].
    apply (Hnested (h ++ [zero (elem_if_pointer st)])%list
             (VPtr (elem_if_pointer st) (Some (length h)))); auto.
    unfold nested_call. now rewrite Hal, Htt, Hst.
  - destruct (recurses h f) eqn:Hre.
    + pose proof (IH m (Value f) h ltac:(lia)) as Ho.
      destruct (PkgPatch.Apply h (Value f) m) as [|ic [e|] h2];
        simpl in Ho |- *; auto.
      destruct Ho as [H1 H2]. apply (Hnested h (Value f)); auto.
      unfold nested_call. now rewrite Hal, Hre.
    + apply Hassign. unfold compared. now rewrite Hm, Hal, Hre.
Qed.

(** The loop, from the state the entries [pre] have left. *)
Lemma range_patch_flag (h0 : heap) (target : value) (dst : Struct)
    (rest : list (string * value)) :
  New h0 target = Some dst ->
  (forall k v, In (k, v) rest ->
     forall m tgt h, (msize m < vsize v)%nat ->
       flag_sound h tgt m (PkgPatch.Apply h tgt m)) ->
  forall pre c h1,
    steps (fun k v => PkgPatch.ApplyEntry v target dst k) pre false None h0
    = Some (c, None, h1) ->
    (c = true <-> unequal h0 target pre) ->
    flag_sound h0 target (pre ++ rest)%list
      (range_patch (fun key val => PkgPatch.ApplyEntry val target dst key)
         rest c None h1).
Proof.
  intros Hn. induction rest as [|[k v] rest IH]; intros Hnested pre c h1 Hs Hinv.
  - simpl. rewrite app_nil_r. split; [apply Hinv | intros _; apply Hinv].
  - rewrite range_patch_cons.
    pose proof (ApplyEntry_flag v target dst k c h1
                  (Hnested k v (or_introl eq_refl))) as He.
    pose proof (ApplyEntry_error_shape v target dst k c h1) as Hsh.
    destruct (PkgPatch.ApplyEntry v target dst k c None h1)
      as [[|c' e' h']|c' e' h'] eqn:Hentry; simpl; trivial.
    + split; [|intros ->; now destruct Hsh].
      intros Hc. destruct (He Hc) as [H|H].
      * apply unequal_app. now apply Hinv.
      * eapply entry_unequal_snoc; eassumption.
    + subst e'.
      replace (pre ++ (k, v) :: rest)%list with ((pre ++ [(k, v)]) ++ rest)%list
        by (rewrite <- app_assoc; reflexivity).
      apply IH.
      * intros k0 v0 Hin. apply (Hnested k0 v0). now right.
      * rewrite steps_app, Hs. simpl. now rewrite Hentry.
      * rewrite He. split.
        -- intros [H|H].
           ++ apply unequal_app. now apply Hinv.
           ++ eapply entry_unequal_snoc; eassumption.
        -- intros H. destruct (unequal_snoc _ _ _ _ _ _ _ _ _ Hn Hs H) as [H'|H'].
           ++ left. now apply Hinv.
           ++ now right.
Qed.

(** C1 (as amended).  For every heap, target and patch, at any depth of
    nesting: when [Apply] returns [changed = true], some entry of the
    merge has reached the comparison with a raw value that
    [reflect.DeepEqual] does not find equal to the value of its field
    at that moment; and when [Apply] returns a nil error, every such
    entry makes [changed] true.  So the flag follows the comparisons of
    raw values, not the values the fields end up with. *)
Theorem C1_changed_iff_unequal_comparison
    (h : heap) (target : value) (patch : list (string * value)) :
  match PkgPatch.Apply h target patch with
  | Panic => True
  | Return changed err _ =>
      (changed = true -> unequal h target patch)
      /\ (err = None -> unequal h target patch -> changed = true)
  end.
Proof.
  change (flag_sound h target patch (PkgPatch.Apply h target patch)).
  remember (msize patch) as n eqn:Hsize. revert patch Hsize target h.
  induction n as [n IH] using lt_wf_ind. intros patch -> target h.
  unfold PkgPatch.Apply, Apply_with.
  destruct (New h target) as [dst|] eqn:Hn; simpl; trivial.
  apply (range_patch_flag h target dst patch Hn) with (pre := []).
  - intros k v Hin m tgt h0 Hlt. apply (IH (msize m)); trivial.
    pose proof (msize_In _ _ _ Hin). lia.
  - reflexivity.
  - split; [discriminate|]. intros H. exfalso.
    remember [] as p eqn:Hp. destruct H; now destruct pre.
Qed.

(** [TestApplyNilSubStructs]: the call returns [changed = true], and
    the unequal comparison lies in the nested merge, at the first name
    of the record allocated for the contact. *)
Lemma C1_witness :
  unequal Fixtures.no_contact (Fixtures.ref Fixtures.Contacted)
    [("contact", VMap [("first_name", Fixtures.str "Darth")])].
Proof.
  pose proof (C1_changed_iff_unequal_comparison Fixtures.no_contact
                (Fixtures.ref Fixtures.Contacted)
                [("contact", VMap [("first_name", Fixtures.str "Darth")])]) as H.
  assert (E : exists h',
    PkgPatch.Apply Fixtures.no_contact (Fixtures.ref Fixtures.Contacted)
      [("contact", VMap [("first_name", Fixtures.str "Darth")])]
    = Return true None h') by (eexists; vm_compute; reflexivity).
  destruct E as [h' E]. rewrite E in H. exact (proj1 H eq_refl).
Defined.

(** Why the converse asks for a nil error: a nested merge that fails
    returns before its flag is taken over.  The first name has changed,
    the number does not convert to the position, and the call returns
    [changed = false] with the error. *)
Example failing_nested_merge_loses_flag :
  PkgPatch.Apply Fixtures.contacted (Fixtures.ref Fixtures.Contacted)
    [("contact",
      VMap [("first_name", Fixtures.str "Darth"); ("position", Fixtures.num 5)])]
  = Return false (Some "can't convert position to dst type")
      [VStruct Fixtures.Contacted
         [VPtr Fixtures.TargetPerson (Some 1%nat); VInt Fixtures.int_t 123];
       VStruct Fixtures.TargetPerson
         [Fixtures.str "Darth"; Fixtures.str "Skywalker"; Fixtures.str ""]].
Proof. vm_compute; reflexivity. Qed.

(** * Mappings inside a patch sequence *)

Lemma strctVal_no_record (h : heap) (n : nat) (loc : Struct) (v : value) :
  match v with VStruct _ _ | VPtr _ _ => False | _ => True end ->
  strctVal h n loc v = None.
Proof. destruct n, v; simpl; tauto. Qed.

(** [structs.New] panics on a pointer to a fresh cell for an element
    type that a mapping converts to: an interface or a map. *)
Lemma New_fresh_element (h : heap) (et : type) :
  ConvertibleTo TMap et = true ->
  elem_if_pointer et = et
  /\ New (h ++ [zero et])%list (VPtr et (Some (length h))) = None.
Proof.
  intros Hc. destruct et as [[]|? []| | | | |]; try discriminate Hc;
    (split; [reflexivity|]); unfold New; cbn [strctVal Kind kind_eqb].
  - rewrite list_lookup_middle by reflexivity. apply strctVal_no_record. exact I.
  - reflexivity.
Qed.

(** The element loop panics at the first mapping when the recursive
    call on the fresh element does. *)
Lemma range_elems_mapping_panics apply (name : string) (et : type)
    (pre : list value) (x : value) (m : list (string * value))
    (post : list value) :
  Forall (fun x => not_mapping x = true /\ CanConvert x (Some et) = Some true) pre ->
  as_mapping x = Some m ->
  (forall h, apply (VPtr (elem_if_pointer et) (Some (length h))) m
               (h ++ [zero (elem_if_pointer et)])%list = Panic) ->
  forall i arr err h,
    PkgPatch.range_elems apply name et (pre ++ x :: post)%list i et arr err h
    = EPanic.
Proof.
  intros Hpre Hm Hp. induction Hpre as [|y pre [Hy Hc] _ IH]; intros i arr err h.
  - simpl app. rewrite range_elems_cons, Hm, Hp. reflexivity.
  - simpl app. rewrite range_elems_cons.
    apply not_mapping_as_mapping in Hy. rewrite Hy, Hc.
    rewrite (Convert_assignable _ _ Hc). apply IH.
Qed.

(** C5.  A patch sequence whose elements all convert to the element
    type of the slice field is not always stored: a mapping converts to
    [interface{}] and to a map type, but the element loop takes every
    mapping for the patch of a record, calls [Apply] on a fresh element
    and panics there in [structs.New].  Whatever follows the mapping in
    the sequence and in the patch, the call panics. *)
Theorem C5_mapping_element_panics
    (h : heap) (target : value) (dst : Struct) (key : string) (f : Field)
    (et : type) (pre : list value) (x : value) (post : list value)
    (rest : list (string * value)) (changed : bool) (err : option string) :
  findField h dst key = Some f ->
  ftype f = TSlice et ->
  TypeOf (Value f) = Some (TSlice et) ->
  Forall (fun x => not_mapping x = true /\ CanConvert x (Some et) = Some true) pre ->
  not_mapping x = false ->
  CanConvert x (Some et) = Some true ->
  range_patch (fun key val => PkgPatch.ApplyEntry val target dst key)
    ((key, VSlice TIface (Some (pre ++ x :: post)%list)) :: rest) changed err h
  = Panic.
Proof.
  intros Hf Hft Hty Hpre Hx Hc.
  assert (Hm : exists m, as_mapping x = Some m).
  { destruct x; try discriminate Hx; eexists; reflexivity. }
  destruct Hm as [m Hm].
  assert (Hconv : ConvertibleTo TMap et = true).
  { unfold CanConvert in Hc. destruct x; try discriminate Hm; simpl in Hc;
      now injection Hc. }
  rewrite range_patch_cons, ApplyEntry_eq, Hf.
  unfold PkgPatch.assign, FieldKind. rewrite Hft. cbn [Kind kind_eqb].
  rewrite Hty. cbn [Len].
  rewrite (range_elems_mapping_panics _ key et pre x m post Hpre Hm);
    [reflexivity|].
  intros h0. destruct (New_fresh_element h0 et Hconv) as [-> Hn].
  unfold Apply_with. now rewrite Hn.
Qed.

(** A [[]interface{}] field patched with a sequence of one empty
    mapping. *)
Lemma C5_witness :
  range_patch
    (fun key val =>
       PkgPatch.ApplyEntry val (Fixtures.ref Fixtures.Bag) (SAddr 0) key)
    [("things", VSlice TIface (Some ([] ++ VMap [] :: [])%list))] false None
    Fixtures.bag
  = Panic.
Proof.
  apply (C5_mapping_element_panics Fixtures.bag (Fixtures.ref Fixtures.Bag)
           (SAddr 0) "things"
           (MkField (Fixtures.field "Things" "things") (TSlice TIface) 0
              (VSlice TIface None))
           TIface [] (VMap []) [] [] false None);
    try reflexivity.
  constructor.
Defined.

(** * Conversions between integers and floats *)

(** An integer of up to 53 bits is a [float64]. *)
Lemma float64_of_int_exact (z : Z) :
  Z.abs z < 2 ^ 53 -> float64_of_int z = z.
Proof.
  intros H. unfold float64_of_int.
  destruct (Z.ltb_spec (Z.abs z) (2 ^ 53)); [reflexivity | lia].
Qed.

(** A whole [float64] in the range of [int64] is that [int64]. *)
Lemma int64_of_float_exact (z : Z) :
  - 2 ^ 63 <= z < 2 ^ 63 -> int64_of_float z = z.
Proof.
  intros [Hlo Hhi]. unfold int64_of_float.
  destruct (Z.leb_spec (- 2 ^ 63) z), (Z.ltb_spec z (2 ^ 63));
    simpl; (reflexivity || lia).
Qed.

(** Outside these ranges: 2^53 + 1 is rounded to 2^53, ties go to the
    even significand, 1e19 becomes the smallest [int64], and 70000
    wraps around in an [int16]. *)
Example conversions_out_of_range :
  Convert (VInt Fixtures.int64_t (2 ^ 53 + 1)) Fixtures.float64_t
  = VFloat Fixtures.float64_t (2 ^ 53)
  /\ Convert (VInt Fixtures.int64_t (2 ^ 53 + 3)) Fixtures.float64_t
     = VFloat Fixtures.float64_t (2 ^ 53 + 4)
  /\ Convert (Fixtures.num (10 ^ 19)) Fixtures.int_t
     = VInt Fixtures.int_t (- 2 ^ 63)
  /\ Convert (Fixtures.num 70000) (TBasic BInt16) = VInt (TBasic BInt16) 4464.
Proof. vm_compute. auto. Qed.

(** A nil map field patched with an empty mapping: the two are not
    deeply equal, so the call reports a change and stores the empty
    map. *)
Example empty_mapping_against_nil_map :
  let Holder := TStruct "Holder" [(Fixtures.field "Labels" "labels", TMap)] in
  PkgPatch.Apply [VStruct Holder [VNilMap]] (Fixtures.ref Holder)
    [("labels", VMap [])]
  = Return true None [VStruct Holder [VMap []]].
Proof. vm_compute; reflexivity. Qed.
